(** * RowWriterV2: the row-format-v2 encoder of src/codec/RowWriterV2.cpp

    A shallow embedding of the writer: the byte buffer is a list of bytes
    (integers in 0..255), the writer object is a record threaded through
    every operation, and each member function becomes a function returning
    either a result code together with the new writer, or an abort
    (LOG(FATAL) / CHECK failure, or behaviour the C++ standard leaves
    undefined). *)

From Stdlib Require Import ZArith QArith Lia.
From stdpp Require Import base list.

Close Scope Q_scope.
Open Scope nat_scope.

Set Warnings "-register-all".

(** ** Bytes and little-endian integers *)

(** [memcpy(&buf[off], &v, n)] of an integer [v] on a little-endian host:
    the [n] low bytes of the two's complement representation. *)
Fixpoint le_bytes (n : nat) (v : Z) : list Z :=
  match n with
  | O => []
  | S n' => (v mod 256)%Z :: le_bytes n' (v / 256)%Z
  end.

(** Reading bytes back as an unsigned, resp. signed [8 * n]-bit integer. *)
Fixpoint le_unsigned (bs : list Z) : Z :=
  match bs with
  | [] => 0%Z
  | b :: r => (b + 256 * le_unsigned r)%Z
  end.

Definition le_signed (bs : list Z) : Z :=
  let u := le_unsigned bs in
  let m := (2 ^ (8 * Z.of_nat (length bs)))%Z in
  if (2 * u <? m)%Z then u else (u - m)%Z.

(** [std::string::operator[]] read; position [size()] holds the
    terminating zero, anything beyond is not defined by the language and
    read as zero here. *)
Definition byte_at (b : list Z) (i : nat) : Z := default 0%Z (b !! i).

(** [memcpy(&x, &buf[off], 4)] for an [int32_t x]. *)
Definition load_int32 (b : list Z) (off : nat) : Z :=
  le_signed (take 4 (drop off b)).

(** ** The data model *)

Inductive PropertyType :=
| UNKNOWN | BOOL | INT64 | VID | FLOAT | DOUBLE | STRING | FIXED_STRING
| INT8 | INT16 | INT32 | TIMESTAMP | DURATION | DATE | DATETIME | TIME
| GEOGRAPHY
| LIST_STRING | LIST_INT | LIST_FLOAT
| SET_STRING | SET_INT | SET_FLOAT.

Inductive GeoShape := ANY | POINT | LINESTRING | POLYGON.

(** [folly::to<uint32_t>(geoShape)] *)
Definition GeoShape_code (g : GeoShape) : Z :=
  match g with ANY => 0 | POINT => 1 | LINESTRING => 2 | POLYGON => 3 end%Z.

Inductive WriteResult :=
| SUCCEEDED | UNKNOWN_FIELD | TYPE_MISMATCH | OUT_OF_RANGE | NOT_NULLABLE
| FIELD_UNSET.

(** A [float] or [double]: not-a-number, an infinity, or a finite value,
    which is a rational number.  Comparison of finite values and
    [std::round] are exact on them. *)
Inductive fpnum :=
| FNaN
| FInf (negative : bool)
| FFin (q : Q).

Record Date := { year : Z; month : Z; day : Z }.
Record Time := { t_hour : Z; t_minute : Z; t_sec : Z; t_microsec : Z }.
Record DateTime := {
  dt_year : Z; dt_month : Z; dt_day : Z;
  dt_hour : Z; dt_minute : Z; dt_sec : Z; dt_microsec : Z }.
Record Duration := { seconds : Z; microseconds : Z; months : Z }.

(** A geography value, seen through the two members the writer calls:
    [shape()] (as its [uint32_t] code) and [asWKB()]. *)
Record Geography := { shape : Z; asWKB : list Z }.

Inductive ValueType :=
| T_EMPTY | T_NULLVALUE | T_BOOL | T_INT | T_FLOAT | T_STRING | T_DATE
| T_TIME | T_DATETIME | T_GEOGRAPHY | T_DURATION | T_LIST | T_SET | T_OTHER.

(** [nebula::Value].  [Null bad] carries [isBadNull()]; [Other] stands for
    the kinds the writer never accepts (vertex, edge, path, map, data
    set).  [ListV] holds the elements of [List::values] (a vector) and
    [SetV] those of [Set::values] (an unordered set) in iteration order. *)
Inductive Value :=
| Empty
| Null (bad : bool)
| BoolV (b : bool)
| IntV (i : Z)
| FloatV (f : fpnum)
| StringV (s : list Z)
| DateV (d : Date)
| TimeV (t : Time)
| DateTimeV (dt : DateTime)
| GeographyV (g : Geography)
| DurationV (d : Duration)
| ListV (values : list Value)
| SetV (values : list Value)
| Other.

Definition Value_type (v : Value) : ValueType :=
  match v with
  | Empty => T_EMPTY | Null _ => T_NULLVALUE | BoolV _ => T_BOOL
  | IntV _ => T_INT | FloatV _ => T_FLOAT | StringV _ => T_STRING
  | DateV _ => T_DATE | TimeV _ => T_TIME | DateTimeV _ => T_DATETIME
  | GeographyV _ => T_GEOGRAPHY | DurationV _ => T_DURATION
  | ListV _ => T_LIST | SetV _ => T_SET | Other => T_OTHER
  end.

Definition ValueType_eqb (a b : ValueType) : bool :=
  match a, b with
  | T_EMPTY, T_EMPTY | T_NULLVALUE, T_NULLVALUE | T_BOOL, T_BOOL
  | T_INT, T_INT | T_FLOAT, T_FLOAT | T_STRING, T_STRING | T_DATE, T_DATE
  | T_TIME, T_TIME | T_DATETIME, T_DATETIME | T_GEOGRAPHY, T_GEOGRAPHY
  | T_DURATION, T_DURATION | T_LIST, T_LIST | T_SET, T_SET
  | T_OTHER, T_OTHER => true
  | _, _ => false
  end.

(** One field of the schema.  [f_default] is [None] when [hasDefault()]
    is false and otherwise the literal that [Expression::eval] returns for
    the field's default expression. *)
Record SchemaField := {
  f_type : PropertyType;
  f_offset : nat;
  f_size : nat;
  f_nullable : bool;
  f_nullFlagPos : nat;
  f_default : option Value;
  f_geoShape : GeoShape }.

Record Schema := {
  getVersion : Z;
  fields : list SchemaField;
  size : nat }.

Definition getNumFields (s : Schema) : nat := length (fields s).

Definition hasDefault (f : SchemaField) : bool :=
  match f_default f with Some _ => true | None => false end.

(** Modelled from the spec: [getNumNullableFields()] of the schema
    provider, whose source is not part of this file; the spec takes it to
    be the number of nullable fields. *)
Definition getNumNullableFields (s : Schema) : nat :=
  length (filter (fun f => f_nullable f = true) (fields s)).

Record RowWriterV2 := {
  buf_ : list Z;
  headerLen_ : nat;
  numNullBytes_ : nat;
  isSet_ : list bool;
  outOfSpaceStr_ : bool;
  strList_ : list (list Z);
  approxStrLen_ : Z;
  finished_ : bool }.

Definition with_buf (w : RowWriterV2) (b : list Z) : RowWriterV2 :=
  {| buf_ := b; headerLen_ := headerLen_ w; numNullBytes_ := numNullBytes_ w;
     isSet_ := isSet_ w; outOfSpaceStr_ := outOfSpaceStr_ w;
     strList_ := strList_ w; approxStrLen_ := approxStrLen_ w;
     finished_ := finished_ w |}.

Definition with_isSet (w : RowWriterV2) (s : list bool) : RowWriterV2 :=
  {| buf_ := buf_ w; headerLen_ := headerLen_ w;
     numNullBytes_ := numNullBytes_ w;
     isSet_ := s; outOfSpaceStr_ := outOfSpaceStr_ w;
     strList_ := strList_ w; approxStrLen_ := approxStrLen_ w;
     finished_ := finished_ w |}.

Definition with_outOfSpaceStr (w : RowWriterV2) (o : bool) : RowWriterV2 :=
  {| buf_ := buf_ w; headerLen_ := headerLen_ w;
     numNullBytes_ := numNullBytes_ w;
     isSet_ := isSet_ w; outOfSpaceStr_ := o;
     strList_ := strList_ w; approxStrLen_ := approxStrLen_ w;
     finished_ := finished_ w |}.

Definition with_strList (w : RowWriterV2) (l : list (list Z)) : RowWriterV2 :=
  {| buf_ := buf_ w; headerLen_ := headerLen_ w;
     numNullBytes_ := numNullBytes_ w;
     isSet_ := isSet_ w; outOfSpaceStr_ := outOfSpaceStr_ w;
     strList_ := l; approxStrLen_ := approxStrLen_ w;
     finished_ := finished_ w |}.

Definition with_approxStrLen (w : RowWriterV2) (n : Z) : RowWriterV2 :=
  {| buf_ := buf_ w; headerLen_ := headerLen_ w;
     numNullBytes_ := numNullBytes_ w;
     isSet_ := isSet_ w; outOfSpaceStr_ := outOfSpaceStr_ w;
     strList_ := strList_ w; approxStrLen_ := n;
     finished_ := finished_ w |}.

Definition with_finished (w : RowWriterV2) (f : bool) : RowWriterV2 :=
  {| buf_ := buf_ w; headerLen_ := headerLen_ w;
     numNullBytes_ := numNullBytes_ w;
     isSet_ := isSet_ w; outOfSpaceStr_ := outOfSpaceStr_ w;
     strList_ := strList_ w; approxStrLen_ := approxStrLen_ w;
     finished_ := f |}.

(** Why a call does not return: a [LOG(FATAL)] or failed [CHECK], or an
    operation whose behaviour C++ leaves undefined. *)
Inductive abort := Fatal | Undefined.

Inductive outcome (A : Type) :=
| Ret (a : A)
| Abort (e : abort).
Arguments Ret {A} a.
Arguments Abort {A} e.

(** [size_t] arithmetic wraps modulo 2^64. *)
Definition wrap64 (z : Z) : Z := (z mod 2 ^ 64)%Z.

(** ** Construction from a schema *)

(** The [if (numNullables > 0) numNullBytes_ = ((numNullables - 1) >> 3) + 1]
    of both constructors. *)
Definition nullBytesFor (numNullables : nat) : nat :=
  if (0 <? numNullables) then Nat.shiftr (numNullables - 1) 3 + 1 else 0.

(** The header byte and [headerLen_] chosen for a positive version, or
    [None] on the [LOG(FATAL)] branch. *)
Definition headerFor (ver : Z) : option (Z * nat) :=
  if (ver <=? 0x00FF)%Z then Some (0x09%Z, 2)
  else if (ver <? 0x00FFFF)%Z then Some (0x0A%Z, 3)
  else if (ver <? 0x00FFFFFF)%Z then Some (0x0B%Z, 4)
  else if (ver <? 0x00FFFFFFFF)%Z then Some (0x0C%Z, 5)
  else if (ver <? 0x00FFFFFFFFFF)%Z then Some (0x0D%Z, 6)
  else if (ver <? 0x00FFFFFFFFFFFF)%Z then Some (0x0E%Z, 7)
  else if (ver <? 0x00FFFFFFFFFFFFFF)%Z then Some (0x0F%Z, 8)
  else None.

Definition RowWriterV2_new (schema : Schema) : outcome RowWriterV2 :=
  let ver := getVersion schema in
  let start :=
    if (0 <? ver)%Z then
      match headerFor ver with
      | Some (header, headerLen) =>
          let b := [header] in
          Some (b ++ le_bytes (Z.to_nat (Z.land (byte_at b 0) 0x07)) ver,
                headerLen)
      | None => None
      end
    else Some ([0x08%Z], 1) in
  match start with
  | None => Abort Fatal
  | Some (b, headerLen) =>
      let numNullBytes := nullBytesFor (getNumNullableFields schema) in
      Ret {| buf_ := resize (headerLen + numNullBytes + size schema) 0%Z b;
             headerLen_ := headerLen;
             numNullBytes_ := numNullBytes;
             isSet_ := replicate (getNumFields schema) false;
             outOfSpaceStr_ := false;
             strList_ := [];
             approxStrLen_ := 0;
             finished_ := false |}
  end.

(** ** Construction from an encoded row *)

Definition processV2EncodedStr (schema : Schema) (b : list Z)
  : outcome RowWriterV2 :=
  if negb (Z.land (byte_at b 0) 0x18 =? 0x08)%Z then Abort Fatal
  else
    let verBytes := Z.to_nat (Z.land (byte_at b 0) 0x07) in
    if negb (verBytes + 1 <=? length b) && (0 <? verBytes) then Abort Undefined
    else
      let ver := if (0 <? verBytes)
                 then le_unsigned (take verBytes (drop 1 b)) else 0%Z in
      if negb (ver =? getVersion schema)%Z then Abort Fatal
      else
        let headerLen := verBytes + 1 in
        let numNullBytes := nullBytesFor (getNumNullableFields schema) in
        Ret {| buf_ := b;
               headerLen_ := headerLen;
               numNullBytes_ := numNullBytes;
               isSet_ := replicate (getNumFields schema) true;
               outOfSpaceStr_ := false;
               strList_ := [];
               approxStrLen_ :=
                 wrap64 (Z.of_nat (length b) - Z.of_nat headerLen
                         - Z.of_nat numNullBytes - Z.of_nat (size schema) - 8);
               finished_ := false |}.

(** [encoded.substr(0, encoded.size() - sizeof(int64_t))]: the count is a
    [size_t], so for fewer than eight bytes it wraps to a huge value and
    [substr] keeps the whole string. *)
Definition stripTrailer (encoded : list Z) : list Z :=
  if (length encoded <? 8) then encoded else take (length encoded - 8) encoded.

Definition RowWriterV2_fromEncoded (schema : Schema) (encoded : list Z)
  : outcome RowWriterV2 :=
  processV2EncodedStr schema (stripTrailer encoded).

(** ** The null bitmap *)

Definition orBits : list Z := [0x80; 0x40; 0x20; 0x10; 0x08; 0x04; 0x02; 0x01]%Z.
Definition andBits : list Z := [0x7F; 0xBF; 0xDF; 0xEF; 0xF7; 0xFB; 0xFD; 0xFE]%Z.

Definition nullByteOffset (w : RowWriterV2) (pos : nat) : nat :=
  headerLen_ w + Nat.shiftr pos 3.

Definition setNullBit (w : RowWriterV2) (pos : nat) : RowWriterV2 :=
  let offset := nullByteOffset w pos in
  with_buf w (<[offset := Z.lor (byte_at (buf_ w) offset)
                               (byte_at orBits (Nat.land pos 7))]> (buf_ w)).

Definition clearNullBit (w : RowWriterV2) (pos : nat) : RowWriterV2 :=
  let offset := nullByteOffset w pos in
  with_buf w (<[offset := Z.land (byte_at (buf_ w) offset)
                                (byte_at andBits (Nat.land pos 7))]> (buf_ w)).

Definition checkNullBit (w : RowWriterV2) (pos : nat) : bool :=
  let offset := nullByteOffset w pos in
  negb (Z.land (byte_at (buf_ w) offset) (byte_at orBits (Nat.land pos 7)) =? 0)%Z.

(** ** Integer and floating-point conversions *)

(** Conversion to a signed [bits]-bit integer by wrap-around. *)
Definition wrap_signed (bits : Z) (z : Z) : Z :=
  let m := (2 ^ bits)%Z in
  let u := (z mod m)%Z in
  if (2 * u <? m)%Z then u else (u - m)%Z.

Definition int32 (z : Z) : Z := wrap_signed 32 z.

Definition int_min (bits : Z) : Z := (- 2 ^ (bits - 1))%Z.
Definition int_max (bits : Z) : Z := (2 ^ (bits - 1) - 1)%Z.

(** [v > c] and [v < c] for a floating-point [v] and a finite constant
    [c]; every comparison with a NaN is false. *)
Definition fp_gt (v : fpnum) (c : Q) : bool :=
  match v with
  | FNaN => false
  | FInf negative => negb negative
  | FFin q => negb (Qle_bool q c)
  end.

Definition fp_lt (v : fpnum) (c : Q) : bool :=
  match v with
  | FNaN => false
  | FInf negative => negative
  | FFin q => negb (Qle_bool c q)
  end.

(** [std::round] on a finite value: to the nearest integer, halfway cases
    away from zero. *)
Definition round_half_away (q : Q) : Z :=
  let n := Qnum q in
  let d := Zpos (Qden q) in
  if (0 <=? n)%Z then ((2 * n + d) / (2 * d))%Z
  else (- ((2 * (- n) + d) / (2 * d)))%Z.

(** [intN_t iv = std::round(v)]: the conversion of a floating-point value
    to an integer type is defined only when the value fits the type. *)
Definition round_to_int (bits : Z) (v : fpnum) : option Z :=
  match v with
  | FFin q =>
      let r := round_half_away q in
      if (int_min bits <=? r)%Z && (r <=? int_max bits)%Z then Some r else None
  | _ => None
  end.

(** [std::numeric_limits<float>::max()]; [lowest()] is its negation. *)
Definition FLT_MAX : Q := inject_Z ((2 ^ 24 - 1) * 2 ^ 104).

(** ** Helpers shared by the typed writers *)

Definition isSetAt (w : RowWriterV2) (index : nat) : bool :=
  default false (isSet_ w !! index).

(** The tail every typed writer ends with:
    [if (field->nullable()) clearNullBit(field->nullFlagPos());
     isSet_[index] = true; return SUCCEEDED;] *)
Definition succeed (w : RowWriterV2) (field : SchemaField) (index : nat)
  : outcome (WriteResult * RowWriterV2) :=
  let w1 := if f_nullable field then clearNullBit w (f_nullFlagPos field)
            else w in
  Ret (SUCCEEDED, with_isSet w1 (<[index := true]> (isSet_ w1))).

(** [memcpy(&buf_[offset], src, |src|)] into the writer's buffer. *)
Definition store (w : RowWriterV2) (offset : nat) (src : list Z)
  : RowWriterV2 :=
  with_buf w (list_inserts offset src (buf_ w)).

Definition fieldOffset (w : RowWriterV2) (field : SchemaField) : nat :=
  headerLen_ w + numNullBytes_ w + f_offset field.

(** [strncpy(dst, src, len)] writes [len] bytes: the bytes of [src] up to
    its first zero, then zeros. *)
Fixpoint strncpy (src : list Z) (len : nat) : list Z :=
  match len with
  | O => []
  | S len' =>
      match src with
      | [] => replicate len 0%Z
      | c :: src' => if (c =? 0)%Z then replicate len 0%Z
                     else c :: strncpy src' len'
      end
  end.

(** Modelled from the spec: [utf8CutSize] of codec/Common.h, which is not
    part of this file: back off from the length limit until no UTF-8
    continuation byte (10xxxxxx) would be split off. *)
Fixpoint utf8CutSize (v : list Z) (maxLen : nat) : nat :=
  match maxLen with
  | O => O
  | S n => if (Z.land (byte_at v maxLen) 0xC0 =? 0x80)%Z
           then utf8CutSize v n else maxLen
  end.

(** ** The typed writers *)

Definition write_bool (schema : Schema) (w : RowWriterV2) (index : nat)
  (v : bool) : outcome (WriteResult * RowWriterV2) :=
  match fields schema !! index with
  | None => Abort Undefined
  | Some field =>
      let offset := fieldOffset w field in
      let b := if v then 0x01%Z else 0%Z in
      let hi64 (x : list Z) :=
        <[offset + 4 := 0%Z]> (<[offset + 5 := 0%Z]>
          (<[offset + 6 := 0%Z]> (<[offset + 7 := 0%Z]> x))) in
      let hi32 (x : list Z) :=
        <[offset + 2 := 0%Z]> (<[offset + 3 := 0%Z]> x) in
      let lo16 (x : list Z) :=
        <[offset + 0 := b]> (<[offset + 1 := 0%Z]> x) in
      match f_type field with
      | BOOL | INT8 =>
          succeed (with_buf w (<[offset := b]> (buf_ w))) field index
      | INT64 =>
          succeed (with_buf w (lo16 (hi32 (hi64 (buf_ w))))) field index
      | INT32 =>
          succeed (with_buf w (lo16 (hi32 (buf_ w)))) field index
      | INT16 =>
          succeed (with_buf w (lo16 (buf_ w))) field index
      | _ => Ret (TYPE_MISMATCH, w)
      end
  end.

Section Writers.

(** The collaborators whose code lies outside this file. *)

(** [TimeUtils::toTimestamp]: the validated timestamp, or [None] when the
    status is not ok. *)
Variable toTimestamp : Z -> option Z.

(** The IEEE 754 bit pattern of a value converted to [float], resp.
    [double], as an unsigned integer. *)
Variable binary32 : fpnum -> Z.
Variable binary64 : fpnum -> Z.

(** The key equality of [std::unordered_set<Value>], by which [find]
    recognises an element that is already there. *)
Variable Value_eq : Value -> Value -> bool.

(** The part of the float and double writers shared by the four integer
    destinations: the range guard on [v], then [std::round] and the
    store. *)
Definition storeRounded (w : RowWriterV2) (field : SchemaField) (index : nat)
  (v : fpnum) (hi lo : Q) (nbytes : nat) : outcome (WriteResult * RowWriterV2) :=
  if fp_gt v hi || fp_lt v lo then Ret (OUT_OF_RANGE, w)
  else
    match round_to_int (8 * Z.of_nat nbytes) v with
    | None => Abort Undefined
    | Some iv => succeed (store w (fieldOffset w field) (le_bytes nbytes iv))
                         field index
    end.

(** [write(ssize_t, float)]: the limits of [int32_t] and [int64_t] are
    cast to [float], which rounds the two maxima up to 2^31 and 2^63. *)
Definition write_float (schema : Schema) (w : RowWriterV2) (index : nat)
  (v : fpnum) : outcome (WriteResult * RowWriterV2) :=
  match fields schema !! index with
  | None => Abort Undefined
  | Some field =>
      let offset := fieldOffset w field in
      match f_type field with
      | INT8 =>
          storeRounded w field index v
            (inject_Z (int_max 8)) (inject_Z (int_min 8)) 1
      | INT16 =>
          storeRounded w field index v
            (inject_Z (int_max 16)) (inject_Z (int_min 16)) 2
      | INT32 =>
          storeRounded w field index v
            (inject_Z (2 ^ 31)) (inject_Z (int_min 32)) 4
      | INT64 =>
          storeRounded w field index v
            (inject_Z (2 ^ 63)) (inject_Z (int_min 64)) 8
      | FLOAT => succeed (store w offset (le_bytes 4 (binary32 v))) field index
      | DOUBLE => succeed (store w offset (le_bytes 8 (binary64 v))) field index
      | _ => Ret (TYPE_MISMATCH, w)
      end
  end.

(** [write(ssize_t, double)]: the limits of the three narrow types are
    exact in [double]; the maximum of [int64_t] is cast to 2^63. *)
Definition write_double (schema : Schema) (w : RowWriterV2) (index : nat)
  (v : fpnum) : outcome (WriteResult * RowWriterV2) :=
  match fields schema !! index with
  | None => Abort Undefined
  | Some field =>
      let offset := fieldOffset w field in
      match f_type field with
      | INT8 =>
          storeRounded w field index v
            (inject_Z (int_max 8)) (inject_Z (int_min 8)) 1
      | INT16 =>
          storeRounded w field index v
            (inject_Z (int_max 16)) (inject_Z (int_min 16)) 2
      | INT32 =>
          storeRounded w field index v
            (inject_Z (int_max 32)) (inject_Z (int_min 32)) 4
      | INT64 =>
          storeRounded w field index v
            (inject_Z (2 ^ 63)) (inject_Z (int_min 64)) 8
      | FLOAT =>
          if fp_gt v FLT_MAX || fp_lt v (Qopp FLT_MAX) then Ret (OUT_OF_RANGE, w)
          else succeed (store w offset (le_bytes 4 (binary32 v))) field index
      | DOUBLE => succeed (store w offset (le_bytes 8 (binary64 v))) field index
      | _ => Ret (TYPE_MISMATCH, w)
      end
  end.

(** The range guard of the narrowing integer stores. *)
Definition storeNarrow (w : RowWriterV2) (field : SchemaField) (index : nat)
  (v : Z) (nbytes : nat) : outcome (WriteResult * RowWriterV2) :=
  let bits := (8 * Z.of_nat nbytes)%Z in
  if (int_max bits <? v)%Z || (v <? int_min bits)%Z then Ret (OUT_OF_RANGE, w)
  else succeed (store w (fieldOffset w field) (le_bytes nbytes v)) field index.

(** [write(ssize_t, int64_t)], the integer writer [setValue] and the
    defaults filler call. *)
Definition write_int64 (schema : Schema) (w : RowWriterV2) (index : nat)
  (v : Z) : outcome (WriteResult * RowWriterV2) :=
  match fields schema !! index with
  | None => Abort Undefined
  | Some field =>
      let offset := fieldOffset w field in
      match f_type field with
      | BOOL =>
          succeed (with_buf w (<[offset := if (v =? 0)%Z then 0x00%Z else 0x01%Z]>
                                 (buf_ w))) field index
      | INT8 => storeNarrow w field index v 1
      | INT16 => storeNarrow w field index v 2
      | INT32 => storeNarrow w field index v 4
      | TIMESTAMP =>
          match toTimestamp v with
          | None => Ret (OUT_OF_RANGE, w)
          | Some ts => succeed (store w offset (le_bytes 8 ts)) field index
          end
      | INT64 => succeed (store w offset (le_bytes 8 v)) field index
      | FLOAT =>
          succeed (store w offset (le_bytes 4 (binary32 (FFin (inject_Z v)))))
                  field index
      | DOUBLE =>
          succeed (store w offset (le_bytes 8 (binary64 (FFin (inject_Z v)))))
                  field index
      | _ => Ret (TYPE_MISMATCH, w)
      end
  end.

(** [write(ssize_t, folly::StringPiece, bool isWKB)].  The slot of a
    STRING or GEOGRAPHY field holds two [int32_t]: offset and length, or
    zero and an index into [strList_] once the writer is out of space.
    [buf_.append(v.data(), strLen)] takes the [int32_t] length back as a
    [size_t]; a negative one exceeds [max_size()] and throws. *)
Definition write_string (schema : Schema) (w : RowWriterV2) (index : nat)
  (v : list Z) (isWKB : bool) : outcome (WriteResult * RowWriterV2) :=
  match fields schema !! index with
  | None => Abort Undefined
  | Some field =>
      let offset := fieldOffset w field in
      let varlen (_ : unit) :=
        let w1 := if isSetAt w index then with_outOfSpaceStr w true else w in
        let appended :=
          if outOfSpaceStr_ w1 then
            let w2 := with_strList w1 (strList_ w1 ++ [v]) in
            Ret (w2, 0%Z, int32 (Z.of_nat (length (strList_ w2)) - 1))
          else
            let strOffset := int32 (Z.of_nat (length (buf_ w1))) in
            let strLen := int32 (Z.of_nat (length v)) in
            if (strLen <? 0)%Z then Abort Fatal
            else Ret (with_buf w1 (buf_ w1 ++ take (Z.to_nat strLen) v),
                      strOffset, strLen) in
        match appended with
        | Abort e => Abort e
        | Ret (w3, strOffset, strLen) =>
            let w4 := store w3 offset (le_bytes 4 strOffset) in
            let w5 := store w4 (offset + 4) (le_bytes 4 strLen) in
            let w6 := with_approxStrLen w5
                        (wrap64 (approxStrLen_ w5 + Z.of_nat (length v))) in
            succeed w6 field index
        end in
      match f_type field with
      | GEOGRAPHY => if negb isWKB then Ret (TYPE_MISMATCH, w) else varlen tt
      | STRING => varlen tt
      | FIXED_STRING =>
          let len := if (f_size field <? length v)
                     then utf8CutSize v (f_size field) else length v in
          let w1 := store w offset (strncpy v len) in
          let w2 := if (len <? f_size field)
                    then store w1 (offset + len)
                               (replicate (f_size field - len) 0%Z)
                    else w1 in
          succeed w2 field index
      | _ => Ret (TYPE_MISMATCH, w)
      end
  end.

Definition write_date (schema : Schema) (w : RowWriterV2) (index : nat)
  (v : Date) : outcome (WriteResult * RowWriterV2) :=
  match fields schema !! index with
  | None => Abort Undefined
  | Some field =>
      let offset := fieldOffset w field in
      match f_type field with
      | DATE =>
          let w1 := store w offset (le_bytes 2 (year v)) in
          let w2 := store w1 (offset + 2) (le_bytes 1 (month v)) in
          let w3 := store w2 (offset + 2 + 1) (le_bytes 1 (day v)) in
          succeed w3 field index
      | _ => Ret (TYPE_MISMATCH, w)
      end
  end.

Definition write_time (schema : Schema) (w : RowWriterV2) (index : nat)
  (v : Time) : outcome (WriteResult * RowWriterV2) :=
  match fields schema !! index with
  | None => Abort Undefined
  | Some field =>
      let offset := fieldOffset w field in
      match f_type field with
      | TIME =>
          let w1 := store w offset (le_bytes 1 (t_hour v)) in
          let w2 := store w1 (offset + 1) (le_bytes 1 (t_minute v)) in
          let w3 := store w2 (offset + 2 * 1) (le_bytes 1 (t_sec v)) in
          let w4 := store w3 (offset + 3 * 1) (le_bytes 4 (t_microsec v)) in
          succeed w4 field index
      | _ => Ret (TYPE_MISMATCH, w)
      end
  end.

Definition write_datetime (schema : Schema) (w : RowWriterV2) (index : nat)
  (v : DateTime) : outcome (WriteResult * RowWriterV2) :=
  match fields schema !! index with
  | None => Abort Undefined
  | Some field =>
      let offset := fieldOffset w field in
      match f_type field with
      | DATETIME =>
          let w1 := store w offset (le_bytes 2 (dt_year v)) in
          let w2 := store w1 (offset + 2) (le_bytes 1 (dt_month v)) in
          let w3 := store w2 (offset + 2 + 1) (le_bytes 1 (dt_day v)) in
          let w4 := store w3 (offset + 2 + 2 * 1) (le_bytes 1 (dt_hour v)) in
          let w5 := store w4 (offset + 2 + 3 * 1) (le_bytes 1 (dt_minute v)) in
          let w6 := store w5 (offset + 2 + 4 * 1) (le_bytes 1 (dt_sec v)) in
          let w7 := store w6 (offset + 2 + 5 * 1) (le_bytes 4 (dt_microsec v)) in
          succeed w7 field index
      | _ => Ret (TYPE_MISMATCH, w)
      end
  end.

Definition write_duration (schema : Schema) (w : RowWriterV2) (index : nat)
  (v : Duration) : outcome (WriteResult * RowWriterV2) :=
  match fields schema !! index with
  | None => Abort Undefined
  | Some field =>
      let offset := fieldOffset w field in
      match f_type field with
      | DURATION =>
          let w1 := store w offset (le_bytes 8 (seconds v)) in
          let w2 := store w1 (offset + 8) (le_bytes 4 (microseconds v)) in
          let w3 := store w2 (offset + 8 + 4) (le_bytes 4 (months v)) in
          succeed w3 field index
      | _ => Ret (TYPE_MISMATCH, w)
      end
  end.

Definition write_geography (schema : Schema) (w : RowWriterV2) (index : nat)
  (v : Geography) : outcome (WriteResult * RowWriterV2) :=
  match fields schema !! index with
  | None => Abort Undefined
  | Some field =>
      let geoShape := f_geoShape field in
      if negb (GeoShape_code geoShape =? GeoShape_code ANY)%Z
         && negb (GeoShape_code geoShape =? shape v)%Z
      then Ret (TYPE_MISMATCH, w)
      else write_string schema w index (asWKB v) true
  end.

(** ** Lists and sets *)

(** [writeItem]: the getters [getStr], [getInt] and [getFloat] check the
    kind of the value they are called on. *)
Definition writeItem (item : Value) (valueType : ValueType) (buffer : list Z)
  : outcome (WriteResult * list Z) :=
  match valueType with
  | T_STRING =>
      match item with
      | StringV str =>
          let strLen := int32 (Z.of_nat (length str)) in
          if (strLen <? 0)%Z then Abort Fatal
          else Ret (SUCCEEDED,
                    (buffer ++ le_bytes 4 strLen) ++ take (Z.to_nat strLen) str)
      | _ => Abort Fatal
      end
  | T_INT =>
      match item with
      | IntV i => Ret (SUCCEEDED, buffer ++ le_bytes 4 (int32 i))
      | _ => Abort Fatal
      end
  | T_FLOAT =>
      match item with
      | FloatV f => Ret (SUCCEEDED, buffer ++ le_bytes 4 (binary32 f))
      | _ => Abort Fatal
      end
  | _ => Ret (TYPE_MISMATCH, buffer)
  end.

(** The first loop of [writeList] and [writeSet]. *)
Definition allOfType (values : list Value) (valueType : ValueType) : bool :=
  forallb (fun item => ValueType_eqb (Value_type item) valueType) values.

(** The second loop of [writeList]. *)
Fixpoint writeItems (values : list Value) (valueType : ValueType)
  (buffer : list Z) : outcome (WriteResult * list Z) :=
  match values with
  | [] => Ret (SUCCEEDED, buffer)
  | item :: rest =>
      match writeItem item valueType buffer with
      | Ret (SUCCEEDED, buffer') => writeItems rest valueType buffer'
      | other => other
      end
  end.

Definition writeList (values : list Value) (valueType : ValueType)
  (buffer : list Z) : outcome (WriteResult * list Z) :=
  if negb (allOfType values valueType) then Ret (TYPE_MISMATCH, buffer)
  else writeItems values valueType buffer.

(** The second loop of [writeSet]; [serialized] is the local
    [unordered_set] of the elements written so far. *)
Fixpoint writeUnique (values : list Value) (valueType : ValueType)
  (serialized : list Value) (buffer : list Z)
  : outcome (WriteResult * list Z) :=
  match values with
  | [] => Ret (SUCCEEDED, buffer)
  | item :: rest =>
      if existsb (Value_eq item) serialized
      then writeUnique rest valueType serialized buffer
      else
        match writeItem item valueType buffer with
        | Ret (SUCCEEDED, buffer') =>
            writeUnique rest valueType (item :: serialized) buffer'
        | other => other
        end
  end.

Definition writeSet (values : list Value) (valueType : ValueType)
  (buffer : list Z) : outcome (WriteResult * list Z) :=
  if negb (allOfType values valueType) then Ret (TYPE_MISMATCH, buffer)
  else writeUnique values valueType [] buffer.

Definition listElemType (t : PropertyType) : option ValueType :=
  match t with
  | LIST_STRING => Some T_STRING
  | LIST_INT => Some T_INT
  | LIST_FLOAT => Some T_FLOAT
  | _ => None
  end.

Definition setElemType (t : PropertyType) : option ValueType :=
  match t with
  | SET_STRING => Some T_STRING
  | SET_INT => Some T_INT
  | SET_FLOAT => Some T_FLOAT
  | _ => None
  end.

(** [write(ssize_t, const List&)]: the element count is appended to the
    buffer before the field's type is looked at. *)
Definition write_list (schema : Schema) (w : RowWriterV2) (index : nat)
  (list : list Value) : outcome (WriteResult * RowWriterV2) :=
  match fields schema !! index with
  | None => Abort Undefined
  | Some field =>
      let offset := fieldOffset w field in
      let w1 := if isSetAt w index then with_outOfSpaceStr w true else w in
      let listSize := int32 (Z.of_nat (length list)) in
      let listOffset := int32 (Z.of_nat (length (buf_ w1))) in
      let w2 := with_buf w1 (buf_ w1 ++ le_bytes 4 listSize) in
      match listElemType (f_type field) with
      | None => Ret (TYPE_MISMATCH, w2)
      | Some valueType =>
          match writeList list valueType (buf_ w2) with
          | Abort e => Abort e
          | Ret (SUCCEEDED, b) =>
              succeed (store (with_buf w2 b) offset (le_bytes 4 listOffset))
                      field index
          | Ret (result, b) => Ret (result, with_buf w2 b)
          end
      end
  end.

(** [write(ssize_t, const Set&)]: [set.size()] is written first, the
    elements after it. *)
Definition write_set (schema : Schema) (w : RowWriterV2) (index : nat)
  (set : list Value) : outcome (WriteResult * RowWriterV2) :=
  match fields schema !! index with
  | None => Abort Undefined
  | Some field =>
      let offset := fieldOffset w field in
      let w1 := if isSetAt w index then with_outOfSpaceStr w true else w in
      let setSize := int32 (Z.of_nat (length set)) in
      let setOffset := int32 (Z.of_nat (length (buf_ w1))) in
      let w2 := with_buf w1 (buf_ w1 ++ le_bytes 4 setSize) in
      match setElemType (f_type field) with
      | None => Ret (TYPE_MISMATCH, w2)
      | Some valueType =>
          match writeSet set valueType (buf_ w2) with
          | Abort e => Abort e
          | Ret (SUCCEEDED, b) =>
              succeed (store (with_buf w2 b) offset (le_bytes 4 setOffset))
                      field index
          | Ret (result, b) => Ret (result, with_buf w2 b)
          end
      end
  end.

(** ** setNull and setValue *)

Definition setNull (schema : Schema) (w : RowWriterV2) (index : Z)
  : outcome (WriteResult * RowWriterV2) :=
  if finished_ w then Abort Fatal
  else if (index <? 0)%Z || (Z.of_nat (getNumFields schema) <=? index)%Z
  then Ret (UNKNOWN_FIELD, w)
  else
    match fields schema !! Z.to_nat index with
    | None => Abort Undefined
    | Some field =>
        if negb (f_nullable field) then Ret (NOT_NULLABLE, w)
        else
          let w1 := setNullBit w (f_nullFlagPos field) in
          Ret (SUCCEEDED,
               with_isSet w1 (<[Z.to_nat index := true]> (isSet_ w1)))
    end.

(** The [switch] on the kind of a value shared by [setValue] and the
    defaults filler; [None] is the [default:] label. *)
Definition writeValue (schema : Schema) (w : RowWriterV2) (index : nat)
  (val : Value) : option (outcome (WriteResult * RowWriterV2)) :=
  match val with
  | BoolV b => Some (write_bool schema w index b)
  | IntV i => Some (write_int64 schema w index i)
  | FloatV f => Some (write_double schema w index f)
  | StringV s => Some (write_string schema w index s false)
  | DateV d => Some (write_date schema w index d)
  | TimeV t => Some (write_time schema w index t)
  | DateTimeV dt => Some (write_datetime schema w index dt)
  | GeographyV g => Some (write_geography schema w index g)
  | DurationV d => Some (write_duration schema w index d)
  | ListV l => Some (write_list schema w index l)
  | SetV l => Some (write_set schema w index l)
  | _ => None
  end.

Definition setValue (schema : Schema) (w : RowWriterV2) (index : Z)
  (val : Value) : outcome (WriteResult * RowWriterV2) :=
  if finished_ w then Abort Fatal
  else if (index <? 0)%Z || (Z.of_nat (getNumFields schema) <=? index)%Z
  then Ret (UNKNOWN_FIELD, w)
  else
    match val with
    | Null bad =>
        if bad then Ret (TYPE_MISMATCH, w) else setNull schema w index
    | _ =>
        match writeValue schema w (Z.to_nat index) val with
        | Some r => r
        | None => Ret (TYPE_MISMATCH, w)
        end
    end.

(** ** finish *)

(** The body of the loop of [checkUnsetFields] for a field that is not
    set. *)
Definition fillUnset (schema : Schema) (w : RowWriterV2) (i : nat)
  : outcome (WriteResult * RowWriterV2) :=
  match fields schema !! i with
  | None => Abort Undefined
  | Some field =>
      if negb (f_nullable field) && negb (hasDefault field)
      then Ret (FIELD_UNSET, w)
      else
        match f_default field with
        | Some defVal =>
            match defVal with
            | Null _ => Ret (SUCCEEDED, setNullBit w (f_nullFlagPos field))
            | _ =>
                match writeValue schema w i defVal with
                | Some r => r
                | None => Abort Fatal
                end
            end
        | None => Ret (SUCCEEDED, setNullBit w (f_nullFlagPos field))
        end
  end.

(** The loop of [checkUnsetFields] over the remaining indices. *)
Fixpoint checkUnsetFrom (schema : Schema) (indices : list nat)
  (w : RowWriterV2) : outcome (WriteResult * RowWriterV2) :=
  match indices with
  | [] => Ret (SUCCEEDED, w)
  | i :: rest =>
      if isSetAt w i then checkUnsetFrom schema rest w
      else
        match fillUnset schema w i with
        | Ret (SUCCEEDED, w') => checkUnsetFrom schema rest w'
        | other => other
        end
  end.

Definition checkUnsetFields (schema : Schema) (w : RowWriterV2)
  : outcome (WriteResult * RowWriterV2) :=
  checkUnsetFrom schema (seq 0 (getNumFields schema)) w.

(** The loop of [processOutOfSpace] over the remaining fields; [temp] is
    the string under construction, [w] the writer whose buffer and
    out-of-space list are read.  Reading past the end of the buffer is
    undefined, a length that fails [CHECK_LT] is fatal. *)
Fixpoint processStrings (w : RowWriterV2) (fs : list SchemaField)
  (temp : list Z) : outcome (list Z) :=
  match fs with
  | [] => Ret temp
  | field :: rest =>
      let isString := match f_type field with
                      | STRING | GEOGRAPHY => true
                      | _ => false
                      end in
      if negb isString then processStrings w rest temp
      else
        let offset := fieldOffset w field in
        let newOffset := int32 (Z.of_nat (length temp)) in
        let moved :=
          if f_nullable field && checkNullBit w (f_nullFlagPos field)
          then Ret (temp, 0%Z, 0%Z)
          else
            let oldOffset := load_int32 (buf_ w) offset in
            let strLen := load_int32 (buf_ w) (offset + 4) in
            if (0 <? oldOffset)%Z then
              if (strLen <? 0)%Z
                 || (Z.of_nat (length (buf_ w)) <? oldOffset + strLen)%Z
              then Abort Undefined
              else Ret (temp ++ take (Z.to_nat strLen)
                                     (drop (Z.to_nat oldOffset) (buf_ w)),
                        newOffset, strLen)
            else
              if (strLen <? 0)%Z then Abort Fatal
              else
                match strList_ w !! Z.to_nat strLen with
                | None => Abort Fatal
                | Some str =>
                    Ret (temp ++ str, newOffset,
                         int32 (Z.of_nat (length str)))
                end in
        match moved with
        | Abort e => Abort e
        | Ret (temp1, newOffset', strLen') =>
            let temp2 := list_inserts offset (le_bytes 4 newOffset') temp1 in
            let temp3 := list_inserts (offset + 4) (le_bytes 4 strLen') temp2 in
            processStrings w rest temp3
        end
  end.

Definition processOutOfSpace (schema : Schema) (w : RowWriterV2)
  : outcome (list Z) :=
  let fixedEnd := headerLen_ w + numNullBytes_ w + size schema in
  if (length (buf_ w) <? fixedEnd) then Abort Undefined
  else processStrings w (fields schema) (take fixedEnd (buf_ w)).

(** [finish()]; [ts] is what [WallClock::fastNowInMicroSec()] returns. *)
Definition finish (schema : Schema) (w : RowWriterV2) (ts : Z)
  : outcome (WriteResult * RowWriterV2) :=
  if finished_ w then Abort Fatal
  else
    match checkUnsetFields schema w with
    | Abort e => Abort e
    | Ret (SUCCEEDED, w1) =>
        let canonical :=
          if outOfSpaceStr_ w1 then processOutOfSpace schema w1
          else Ret (buf_ w1) in
        match canonical with
        | Abort e => Abort e
        | Ret b =>
            Ret (SUCCEEDED,
                 with_finished (with_buf w1 (b ++ le_bytes 8 ts)) true)
        end
    | Ret (res, w1) => Ret (res, w1)
    end.

End Writers.

(** ** The narrower integer writers *)

Section NarrowWriters.

Variable toTimestamp : Z -> option Z.
Variable binary32 : fpnum -> Z.
Variable binary64 : fpnum -> Z.
Variable Value_eq : Value -> Value -> bool.

(** [write(ssize_t, int8_t)]; [v] is a value of [int8_t].  Every
    destination is at least as wide, so nothing is checked. *)
Definition write_int8 (schema : Schema) (w : RowWriterV2) (index : nat)
  (v : Z) : outcome (WriteResult * RowWriterV2) :=
  match fields schema !! index with
  | None => Abort Undefined
  | Some field =>
      let offset := fieldOffset w field in
      match f_type field with
      | BOOL =>
          succeed (with_buf w (<[offset := if (v =? 0)%Z then 0x00%Z else 0x01%Z]>
                                 (buf_ w))) field index
      | INT8 => succeed (store w offset (le_bytes 1 v)) field index
      | INT16 => succeed (store w offset (le_bytes 2 v)) field index
      | INT32 => succeed (store w offset (le_bytes 4 v)) field index
      | INT64 => succeed (store w offset (le_bytes 8 v)) field index
      | FLOAT =>
          succeed (store w offset (le_bytes 4 (binary32 (FFin (inject_Z v)))))
                  field index
      | DOUBLE =>
          succeed (store w offset (le_bytes 8 (binary64 (FFin (inject_Z v)))))
                  field index
      | _ => Ret (TYPE_MISMATCH, w)
      end
  end.

(** [write(ssize_t, int16_t)]; [v] is a value of [int16_t]. *)
Definition write_int16 (schema : Schema) (w : RowWriterV2) (index : nat)
  (v : Z) : outcome (WriteResult * RowWriterV2) :=
  match fields schema !! index with
  | None => Abort Undefined
  | Some field =>
      let offset := fieldOffset w field in
      match f_type field with
      | BOOL =>
          succeed (with_buf w (<[offset := if (v =? 0)%Z then 0x00%Z else 0x01%Z]>
                                 (buf_ w))) field index
      | INT8 => storeNarrow w field index v 1
      | INT16 => succeed (store w offset (le_bytes 2 v)) field index
      | INT32 => succeed (store w offset (le_bytes 4 v)) field index
      | INT64 => succeed (store w offset (le_bytes 8 v)) field index
      | FLOAT =>
          succeed (store w offset (le_bytes 4 (binary32 (FFin (inject_Z v)))))
                  field index
      | DOUBLE =>
          succeed (store w offset (le_bytes 8 (binary64 (FFin (inject_Z v)))))
                  field index
      | _ => Ret (TYPE_MISMATCH, w)
      end
  end.

(** [write(ssize_t, int32_t)]; [v] is a value of [int32_t]. *)
Definition write_int32 (schema : Schema) (w : RowWriterV2) (index : nat)
  (v : Z) : outcome (WriteResult * RowWriterV2) :=
  match fields schema !! index with
  | None => Abort Undefined
  | Some field =>
      let offset := fieldOffset w field in
      match f_type field with
      | BOOL =>
          succeed (with_buf w (<[offset := if (v =? 0)%Z then 0x00%Z else 0x01%Z]>
                                 (buf_ w))) field index
      | INT8 => storeNarrow w field index v 1
      | INT16 => storeNarrow w field index v 2
      | INT32 => succeed (store w offset (le_bytes 4 v)) field index
      | TIMESTAMP =>
          match toTimestamp v with
          | None => Ret (OUT_OF_RANGE, w)
          | Some ts => succeed (store w offset (le_bytes 8 ts)) field index
          end
      | INT64 => succeed (store w offset (le_bytes 8 v)) field index
      | FLOAT =>
          succeed (store w offset (le_bytes 4 (binary32 (FFin (inject_Z v)))))
                  field index
      | DOUBLE =>
          succeed (store w offset (le_bytes 8 (binary64 (FFin (inject_Z v)))))
                  field index
      | _ => Ret (TYPE_MISMATCH, w)
      end
  end.

(** The unsigned overloads: [write(index, static_cast<intN_t>(v))]. *)
Definition write_uint8 (schema : Schema) (w : RowWriterV2) (index : nat)
  (v : Z) : outcome (WriteResult * RowWriterV2) :=
  write_int8 schema w index (wrap_signed 8 v).

Definition write_uint16 (schema : Schema) (w : RowWriterV2) (index : nat)
  (v : Z) : outcome (WriteResult * RowWriterV2) :=
  write_int16 schema w index (wrap_signed 16 v).

Definition write_uint32 (schema : Schema) (w : RowWriterV2) (index : nat)
  (v : Z) : outcome (WriteResult * RowWriterV2) :=
  write_int32 schema w index (wrap_signed 32 v).

Definition write_uint64 (schema : Schema) (w : RowWriterV2) (index : nat)
  (v : Z) : outcome (WriteResult * RowWriterV2) :=
  write_int64 toTimestamp binary32 binary64 schema w index (wrap_signed 64 v).

(** ** Construction from a row reader *)

(** One iteration of the loop of [RowWriterV2(RowReaderWrapper&)] for the
    value [v] the reader returns for field [i].  Modelled from the spec:
    [set(i, x)] is a template of RowWriterV2.h, which is not part of this
    file; the spec has it invoke the typed writer for [x].  The result of
    [setNull] and [set] is dropped, and [isSet_[i] = true] ends the
    iteration, which for an index beyond the fields writes outside the
    vector. *)
Definition seedField (schema : Schema) (w : RowWriterV2) (i : nat)
  (v : Value) : outcome RowWriterV2 :=
  let called :=
    match v with
    | Null _ => Some (setNull schema w (Z.of_nat i))
    | StringV s =>
        let w1 := with_approxStrLen w
                    (wrap64 (approxStrLen_ w + Z.of_nat (length s))) in
        writeValue toTimestamp binary32 binary64 Value_eq schema w1 i v
    | _ => writeValue toTimestamp binary32 binary64 Value_eq schema w i v
    end in
  match called with
  | None => Abort Fatal
  | Some (Abort e) => Abort e
  | Some (Ret (_, w1)) =>
      if (i <? length (isSet_ w1)) then
        Ret (with_isSet w1 (<[i := true]> (isSet_ w1)))
      else Abort Undefined
  end.

(** The loop over the fields of the reader, from index [i] on. *)
Fixpoint seedFrom (schema : Schema) (i : nat) (values : list Value)
  (w : RowWriterV2) : outcome RowWriterV2 :=
  match values with
  | [] => Ret w
  | v :: rest =>
      match seedField schema w i v with
      | Ret w1 => seedFrom schema (S i) rest w1
      | Abort e => Abort e
      end
  end.

(** [RowWriterV2(RowReaderWrapper& reader)]: [values] lists
    [reader.getValueByIndex(i)] for [i] below [reader.numFields()]. *)
Definition RowWriterV2_fromReader (schema : Schema) (values : list Value)
  : outcome RowWriterV2 :=
  match RowWriterV2_new schema with
  | Ret w0 => seedFrom schema 0 values w0
  | Abort e => Abort e
  end.

End NarrowWriters.

(** * Vocabulary of the properties *)

(** The [n] bytes of a buffer from position [off] on. *)
Definition slice (off n : nat) (b : list Z) : list Z := take n (drop off b).

(** The bytes of the fixed slot of a field. *)
Definition slotBytes (w : RowWriterV2) (field : SchemaField) (n : nat)
  : list Z :=
  slice (fieldOffset w field) n (buf_ w).

(** The first [n] bytes of the slot of [field] lie inside the buffer, and
    the null flag of a nullable field lies inside the null bitmap. *)
Definition slotInBuffer (w : RowWriterV2) (field : SchemaField) (n : nat)
  : Prop :=
  fieldOffset w field + n <= length (buf_ w) /\
  (f_nullable field = true ->
   Nat.shiftr (f_nullFlagPos field) 3 < numNullBytes_ w).

(** Width in bytes of the four integer property types. *)
Definition intWidth (t : PropertyType) : option nat :=
  match t with
  | INT8 => Some 1
  | INT16 => Some 2
  | INT32 => Some 4
  | INT64 => Some 8
  | _ => None
  end.

(** A schema with the given version and no further constraint. *)
Definition schemaOfVersion (ver : Z) (fs : list SchemaField) (sz : nat)
  : Schema :=
  {| getVersion := ver; fields := fs; size := sz |}.

(** The least [k] in 1..7 with [ver < 2^(8k)], if there is one. *)
Definition minVersionBytes (ver : Z) : option Z :=
  find (fun k => ver <? 2 ^ (8 * k))%Z [1; 2; 3; 4; 5; 6; 7]%Z.

(** A field description with no default and any shape. *)
Definition plainField (t : PropertyType) (off sz : nat) (nullable : bool)
  (pos : nat) : SchemaField :=
  {| f_type := t; f_offset := off; f_size := sz; f_nullable := nullable;
     f_nullFlagPos := pos; f_default := None; f_geoShape := ANY |}.

(** Stand-ins for the collaborators, used to run the writer on concrete
    rows: every timestamp is valid, the bit patterns of floating-point
    values are not looked at, and values are equal when both are the same
    integer or the same string. *)
Definition anyTimestamp (z : Z) : option Z := Some z.
Definition noBits (f : fpnum) : Z := 0%Z.
Definition sameScalar (a b : Value) : bool :=
  match a, b with
  | IntV x, IntV y => (x =? y)%Z
  | StringV x, StringV y => bool_decide (x = y)
  | _, _ => false
  end.

(** The element kinds a list or set may hold. *)
Definition scalarKind (vt : ValueType) : Prop :=
  vt = T_STRING \/ vt = T_INT \/ vt = T_FLOAT.

Section Vocabulary.

Variable binary32 : fpnum -> Z.
Variable Value_eq : Value -> Value -> bool.

(** The bytes [writeItem] appends for one element. *)
Definition encodeItem (item : Value) : list Z :=
  match item with
  | StringV str =>
      let strLen := int32 (Z.of_nat (length str)) in
      le_bytes 4 strLen ++ take (Z.to_nat strLen) str
  | IntV i => le_bytes 4 (int32 i)
  | FloatV f => le_bytes 4 (binary32 f)
  | _ => []
  end.

(** The elements [writeSet] serializes: each element of [values] that is
    not equal to one serialized before it. *)
Fixpoint uniqueFrom (seen : list Value) (values : list Value) : list Value :=
  match values with
  | [] => []
  | item :: rest =>
      if existsb (Value_eq item) seen then uniqueFrom seen rest
      else item :: uniqueFrom (item :: seen) rest
  end.

(** No element is equal to an earlier one or to one of [seen]: with
    [seen] empty, what [std::unordered_set] guarantees of its keys. *)
Fixpoint distinctKeys (seen : list Value) (values : list Value) : bool :=
  match values with
  | [] => true
  | item :: rest =>
      negb (existsb (Value_eq item) seen) && distinctKeys (item :: seen) rest
  end.

End Vocabulary.

(** The schema version an encoded row announces in its header. *)
Definition decodedVersion (payload : list Z) : Z :=
  le_unsigned (take (Z.to_nat (Z.land (byte_at payload 0) 0x07))
                    (drop 1 payload)).

(** The maximum of the [n]-byte integer type after the cast the guard
    applies to it: exact in [double] up to four bytes and in [float] up to
    two, rounded up to the next power of two otherwise. *)
Definition maxAsDouble (n : nat) : Q :=
  if (n <=? 4) then inject_Z (int_max (8 * Z.of_nat n))
  else inject_Z (2 ^ (8 * Z.of_nat n - 1)).

Definition maxAsFloat (n : nat) : Q :=
  if (n <=? 2) then inject_Z (int_max (8 * Z.of_nat n))
  else inject_Z (2 ^ (8 * Z.of_nat n - 1)).

Definition minAsFloating (n : nat) : Q := inject_Z (int_min (8 * Z.of_nat n)).

(** A row of one non-nullable INT8 field and a fresh writer for it. *)
Definition int8Schema : Schema :=
  schemaOfVersion 0 [plainField INT8 0 1 false 0] 1.

Definition int8Writer : RowWriterV2 :=
  {| buf_ := [0x08; 0]%Z; headerLen_ := 1; numNullBytes_ := 0;
     isSet_ := [false]; outOfSpaceStr_ := false; strList_ := [];
     approxStrLen_ := 0; finished_ := false |}.

(** The codes a typed writer can return. *)
Definition writerCode (r : WriteResult) : Prop :=
  r = SUCCEEDED \/ r = TYPE_MISMATCH \/ r = OUT_OF_RANGE.

(** ** Well-formed schemas and what a call may touch *)

(** The bytes the writers store for a field of each type. *)
Definition minSlotSize (t : PropertyType) : nat :=
  match t with
  | BOOL | INT8 => 1
  | INT16 => 2
  | INT32 | FLOAT | DATE => 4
  | INT64 | TIMESTAMP | DOUBLE | STRING | GEOGRAPHY => 8
  | TIME => 7
  | DATETIME => 11
  | DURATION => 16
  | LIST_STRING | LIST_INT | LIST_FLOAT | SET_STRING | SET_INT | SET_FLOAT => 4
  | FIXED_STRING | UNKNOWN | VID => 0
  end.

Definition isStringType (t : PropertyType) : bool :=
  match t with STRING | GEOGRAPHY => true | _ => false end.

(** A schema that is laid out well and has no NULLVALUE default on a
    field that cannot be null: every slot lies in the fixed part and is
    wide enough for its type, slots do not overlap, the null flags of
    nullable fields lie in the null bitmap and differ from each other,
    and no field that is not nullable has a default that evaluates to
    NULLVALUE. *)
Record wfSchema (schema : Schema) : Prop := {
  wf_inside : forall i f, fields schema !! i = Some f ->
    f_offset f + f_size f <= size schema;
  wf_width : forall i f, fields schema !! i = Some f ->
    minSlotSize (f_type f) <= f_size f;
  wf_disjoint : forall i j f g, i <> j ->
    fields schema !! i = Some f -> fields schema !! j = Some g ->
    f_offset f + f_size f <= f_offset g \/ f_offset g + f_size g <= f_offset f;
  wf_nullpos : forall i f, fields schema !! i = Some f ->
    f_nullable f = true ->
    Nat.shiftr (f_nullFlagPos f) 3
    < nullBytesFor (getNumNullableFields schema);
  wf_nullpos_unique : forall i j f g, i <> j ->
    fields schema !! i = Some f -> fields schema !! j = Some g ->
    f_nullable f = true -> f_nullable g = true ->
    f_nullFlagPos f <> f_nullFlagPos g;
  wf_default : forall i f bad, fields schema !! i = Some f ->
    f_nullable f = false -> f_default f <> Some (Null bad) }.

(** The same layout without the condition on defaults: what the schema
    says of slots and null flags. *)
Record wfLayout (schema : Schema) : Prop := {
  wl_inside : forall i f, fields schema !! i = Some f ->
    f_offset f + f_size f <= size schema;
  wl_width : forall i f, fields schema !! i = Some f ->
    minSlotSize (f_type f) <= f_size f;
  wl_disjoint : forall i j f g, i <> j ->
    fields schema !! i = Some f -> fields schema !! j = Some g ->
    f_offset f + f_size f <= f_offset g \/ f_offset g + f_size g <= f_offset f;
  wl_nullpos : forall i f, fields schema !! i = Some f ->
    f_nullable f = true ->
    Nat.shiftr (f_nullFlagPos f) 3
    < nullBytesFor (getNumNullableFields schema);
  wl_nullpos_unique : forall i j f g, i <> j ->
    fields schema !! i = Some f -> fields schema !! j = Some g ->
    f_nullable f = true -> f_nullable g = true ->
    f_nullFlagPos f <> f_nullFlagPos g }.

(** What a call on field [f] (at [index]) leaves alone: the dimensions,
    every byte of the fixed part and the tail outside the slot of [f],
    every null flag but that of [f], the [isSet_] flag of every other
    field, the out-of-space list as a prefix, and a latch that is set. *)
Record frame (index : nat) (f : SchemaField) (w w' : RowWriterV2)
  : Prop := {
  fr_headerLen : headerLen_ w' = headerLen_ w;
  fr_numNullBytes : numNullBytes_ w' = numNullBytes_ w;
  fr_finished : finished_ w' = finished_ w;
  fr_length : length (buf_ w) <= length (buf_ w');
  fr_bytes : forall i,
    headerLen_ w + numNullBytes_ w <= i -> i < length (buf_ w) ->
    ~ (fieldOffset w f <= i < fieldOffset w f + f_size f) ->
    buf_ w' !! i = buf_ w !! i;
  fr_nullbits : forall pos,
    Nat.shiftr pos 3 < numNullBytes_ w ->
    (f_nullable f = true -> pos <> f_nullFlagPos f) ->
    checkNullBit w' pos = checkNullBit w pos;
  fr_isSet_length : length (isSet_ w') = length (isSet_ w);
  fr_isSet : forall k, k <> index -> isSet_ w' !! k = isSet_ w !! k;
  fr_strList : strList_ w `prefix_of` strList_ w';
  fr_latch : outOfSpaceStr_ w = true -> outOfSpaceStr_ w' = true }.

(** The dimensions of a writer for [schema]: the buffer holds header,
    null bitmap and fixed part, and there is one flag per field. *)
Record layout (schema : Schema) (w : RowWriterV2) : Prop := {
  lay_header : 1 <= headerLen_ w;
  lay_nullBytes : numNullBytes_ w = nullBytesFor (getNumNullableFields schema);
  lay_fixed : headerLen_ w + numNullBytes_ w + size schema <= length (buf_ w);
  lay_isSet : length (isSet_ w) = getNumFields schema }.

(** ** Strings: what the slot of a field refers to *)

(** End of the fixed part of the buffer. *)
Definition fixedEnd (schema : Schema) (w : RowWriterV2) : nat :=
  headerLen_ w + numNullBytes_ w + size schema.

(** The bytes a value stands for when it is written to a STRING or
    GEOGRAPHY field. *)
Definition stringOf (v : Value) : option (list Z) :=
  match v with
  | StringV s => Some s
  | GeographyV g => Some (asWKB g)
  | _ => None
  end.

(** Buffer and out-of-space list are short enough for the [int32_t]
    offsets, lengths and indices of the slots. *)
Definition fitsInt32 (w : RowWriterV2) : Prop :=
  (Z.of_nat (length (buf_ w)) < 2 ^ 31)%Z /\
  (Z.of_nat (length (strList_ w)) < 2 ^ 31)%Z.

(** Before [finish], the slot of [f] refers to the string [s]: either to
    a place in the tail of the buffer, or, with offset zero, to an entry
    of the out-of-space list. *)
Definition liveString (schema : Schema) (w : RowWriterV2) (f : SchemaField)
  (s : list Z) : Prop :=
  let off := load_int32 (buf_ w) (fieldOffset w f) in
  let len := load_int32 (buf_ w) (fieldOffset w f + 4) in
  (0 <= len)%Z /\
  (((0 < off)%Z /\ (Z.of_nat (fixedEnd schema w) <= off)%Z /\
    (off + len <= Z.of_nat (length (buf_ w)))%Z /\
    slice (Z.to_nat off) (Z.to_nat len) (buf_ w) = s) \/
   (off = 0%Z /\ outOfSpaceStr_ w = true /\
    strList_ w !! Z.to_nat len = Some s)).

(** The writer has only been extended: bytes were appended to the buffer
    and the out-of-space latch may have been set. *)
Definition appended (w w' : RowWriterV2) : Prop :=
  exists (c : bool) (t : list Z),
    w' = with_buf (if c then with_outOfSpaceStr w true else w) (buf_ w ++ t).

(** The record of the last string written to each field. *)
Definition noteWrite (last : nat -> option (list Z)) (index : nat)
  (v : Value) (r : WriteResult) : nat -> option (list Z) :=
  match r, stringOf v with
  | SUCCEEDED, Some s => fun k => if decide (k = index) then Some s else last k
  | _, _ => last
  end.

(** The writer and the record of last strings agree on every STRING and
    GEOGRAPHY field: a field with a recorded string is set and its slot
    refers to that string; a field with none is not set, or is null. *)
Definition stringsRecorded (schema : Schema) (w : RowWriterV2)
  (last : nat -> option (list Z)) : Prop :=
  forall i f, fields schema !! i = Some f ->
    isStringType (f_type f) = true ->
    match last i with
    | Some s => isSetAt w i = true /\ liveString schema w f s
    | None => isSetAt w i = false \/
              (f_nullable f = true /\
               checkNullBit w (f_nullFlagPos f) = true)
    end.

(** A call of the public interface. *)
Inductive call :=
| SetValue (index : Z) (val : Value)
| SetNull (index : Z).

Section Calls.

Variable toTimestamp : Z -> option Z.
Variable binary32 : fpnum -> Z.
Variable binary64 : fpnum -> Z.
Variable Value_eq : Value -> Value -> bool.

Definition perform (schema : Schema) (w : RowWriterV2) (c : call)
  : outcome (WriteResult * RowWriterV2) :=
  match c with
  | SetValue index val =>
      setValue toTimestamp binary32 binary64 Value_eq schema w index val
  | SetNull index => setNull schema w index
  end.

Definition noteCall (last : nat -> option (list Z)) (c : call)
  (r : WriteResult) : nat -> option (list Z) :=
  match c with
  | SetValue index val => noteWrite last (Z.to_nat index) val r
  | SetNull _ => last
  end.

(** A sequence of calls, whatever each of them returns, together with
    the record of the last string written to each field. *)
Fixpoint performAll (schema : Schema) (w : RowWriterV2)
  (last : nat -> option (list Z)) (calls : list call)
  : outcome (RowWriterV2 * (nat -> option (list Z))) :=
  match calls with
  | [] => Ret (w, last)
  | c :: rest =>
      match perform schema w c with
      | Ret (r, w') => performAll schema w' (noteCall last c r) rest
      | Abort e => Abort e
      end
  end.

(** The record once [finish] has filled the fields that were not set:
    such a field holds the string of its default, if it has one. *)
Definition noteDefaults (schema : Schema) (w : RowWriterV2)
  (last : nat -> option (list Z)) : nat -> option (list Z) :=
  fun k =>
    if isSetAt w k then last k
    else
      match fields schema !! k with
      | Some f => match f_default f with
                  | Some v => stringOf v
                  | None => None
                  end
      | None => None
      end.

End Calls.

(** The strings a value carries are shorter than 2^31 bytes, the range
    of the [int32_t] length of a slot. *)
Definition valueFits (v : Value) : Prop :=
  match stringOf v with
  | Some s => (Z.of_nat (length s) < 2 ^ 31)%Z
  | None => True
  end.

Definition callFits (c : call) : Prop :=
  match c with
  | SetValue _ v => valueFits v
  | SetNull _ => True
  end.

Definition defaultsFit (schema : Schema) : Prop :=
  forall i f v, fields schema !! i = Some f -> f_default f = Some v ->
    valueFits v.

(** The record after the defaults filler has handled a field that was
    not set. *)
Definition noteFill (last : nat -> option (list Z)) (i : nat)
  (f : SchemaField) : nat -> option (list Z) :=
  match f_default f with
  | Some v => noteWrite last i v SUCCEEDED
  | None => last
  end.

(** A STRING or GEOGRAPHY field is set, or it is null. *)
Definition setOrNull (w : RowWriterV2) (k : nat) (g : SchemaField) : Prop :=
  isSetAt w k = true \/
  (f_nullable g = true /\ checkNullBit w (f_nullFlagPos g) = true).

(** In the canonical buffer [b], the slot of [g] refers to the string [s]
    in the tail of [b]. *)
Definition canonicalString (schema : Schema) (w : RowWriterV2) (b : list Z)
  (g : SchemaField) (s : list Z) : Prop :=
  let off := load_int32 b (fieldOffset w g) in
  let len := load_int32 b (fieldOffset w g + 4) in
  (Z.of_nat (fixedEnd schema w) <= off)%Z /\ (0 <= len)%Z /\
  (off + len <= Z.of_nat (length b))%Z /\
  slice (Z.to_nat off) (Z.to_nat len) b = s.

(** The field is null in the writer. *)
Definition isNullIn (w : RowWriterV2) (g : SchemaField) : Prop :=
  f_nullable g = true /\ checkNullBit w (f_nullFlagPos g) = true.

(** ** Concrete rows *)

(** One INT32 field, and a writer whose slot holds bytes of an earlier
    row. *)
Definition int32Field : SchemaField := plainField INT32 0 4 false 0.
Definition int32Schema : Schema := schemaOfVersion 0 [int32Field] 4.
Definition staleInt32Writer : RowWriterV2 :=
  {| buf_ := [0x08; 0xAA; 0xBB; 0xCC; 0xDD]%Z; headerLen_ := 1;
     numNullBytes_ := 0; isSet_ := [true]; outOfSpaceStr_ := false;
     strList_ := []; approxStrLen_ := 0; finished_ := false |}.

Definition int8Field : SchemaField := plainField INT8 0 1 false 0.

(** One SET_INT field and one LIST_INT field, each with a fresh writer. *)
Definition setField : SchemaField := plainField SET_INT 0 4 false 0.
Definition setSchema : Schema := schemaOfVersion 0 [setField] 4.
Definition listField : SchemaField := plainField LIST_INT 0 4 false 0.
Definition listSchema : Schema := schemaOfVersion 0 [listField] 4.
Definition freshWriter4 : RowWriterV2 :=
  {| buf_ := [0x08; 0; 0; 0; 0]%Z; headerLen_ := 1; numNullBytes_ := 0;
     isSet_ := [false]; outOfSpaceStr_ := false; strList_ := [];
     approxStrLen_ := 0; finished_ := false |}.

(** One STRING field; the row of "0123456789" with a trailing timestamp;
    the calls that write "hello" and then "world". *)
Definition stringField : SchemaField := plainField STRING 0 8 false 0.
Definition stringSchema : Schema := schemaOfVersion 0 [stringField] 8.
Definition digitsRow : list Z :=
  [0x08; 9; 0; 0; 0; 10; 0; 0; 0;
   48; 49; 50; 51; 52; 53; 54; 55; 56; 57;
   7; 0; 0; 0; 0; 0; 0; 0]%Z.
Definition hello : list Z := [0x68; 0x65; 0x6C; 0x6C; 0x6F]%Z.
Definition world : list Z := [0x77; 0x6F; 0x72; 0x6C; 0x64]%Z.
Definition helloWorldCalls : list call :=
  [SetValue 0 (StringV hello); SetValue 0 (StringV world)].

(** One INT8 field that is not nullable and whose default evaluates to
    NULLVALUE; one nullable INT8 field without default. *)
Definition nullDefaultField : SchemaField :=
  {| f_type := INT8; f_offset := 0; f_size := 1; f_nullable := false;
     f_nullFlagPos := 0; f_default := Some (Null false); f_geoShape := ANY |}.
Definition nullDefaultSchema : Schema := schemaOfVersion 0 [nullDefaultField] 1.
Definition nullableField : SchemaField := plainField INT8 0 1 true 0.
Definition nullableSchema : Schema := schemaOfVersion 0 [nullableField] 1.
Definition nullableWriter : RowWriterV2 :=
  {| buf_ := [0x08; 0; 0]%Z; headerLen_ := 1; numNullBytes_ := 1;
     isSet_ := [false]; outOfSpaceStr_ := false; strList_ := [];
     approxStrLen_ := 0; finished_ := false |}.

(** A STRING field followed by a LIST_INT field, and calls that write
    the list, write the string and write the string again. *)
Definition stringListSchema : Schema :=
  schemaOfVersion 0 [plainField STRING 0 8 false 0;
                     plainField LIST_INT 8 4 false 0] 12.
Definition listThenOverwrite : list call :=
  [SetValue 1 (ListV [IntV 7]);
   SetValue 0 (StringV [0x61%Z]);
   SetValue 0 (StringV [0x62%Z])].

(** ** Vocabulary of the further properties *)

(** What no call takes back: the dimensions stay, and so do the header
    bytes of a buffer that holds the header; the buffer does not shrink,
    a field that is set stays set, the out-of-space list is only extended
    and its latch only set. *)
Record grows (w w' : RowWriterV2) : Prop := {
  gr_headerLen : headerLen_ w' = headerLen_ w;
  gr_numNullBytes : numNullBytes_ w' = numNullBytes_ w;
  gr_header : headerLen_ w <= length (buf_ w) ->
    take (headerLen_ w) (buf_ w') = take (headerLen_ w) (buf_ w);
  gr_length : length (buf_ w) <= length (buf_ w');
  gr_isSet_length : length (isSet_ w') = length (isSet_ w);
  gr_isSet : forall k, isSetAt w k = true -> isSetAt w' k = true;
  gr_strList : strList_ w `prefix_of` strList_ w';
  gr_latch : outOfSpaceStr_ w = true -> outOfSpaceStr_ w' = true;
  gr_finished : finished_ w' = finished_ w }.

(** The bytes of a C string: those before the first zero byte. *)
Fixpoint upToNul (s : list Z) : list Z :=
  match s with
  | [] => []
  | c :: r => if (c =? 0)%Z then [] else c :: upToNul r
  end.

(** The value is a list or a set. *)
Definition isCollection (v : Value) : bool :=
  match v with ListV _ | SetV _ => true | _ => false end.

(** The header byte that announces [k] version bytes. *)
Definition headerByte (k : nat) : Z := Z.lor 0x08 (Z.of_nat k).

(** A writer as the constructor leaves it for [stringSchema]. *)
Definition stringWriter : RowWriterV2 :=
  {| buf_ := [0x08; 0; 0; 0; 0; 0; 0; 0; 0]%Z; headerLen_ := 1;
     numNullBytes_ := 0; isSet_ := [false]; outOfSpaceStr_ := false;
     strList_ := []; approxStrLen_ := 0; finished_ := false |}.

(** [stringWriter] after [helloWorldCalls], and after [finish] at time 7. *)
Definition helloWorldWriter : RowWriterV2 :=
  {| buf_ := [0x08; 0; 0; 0; 0; 0; 0; 0; 0]%Z ++ hello; headerLen_ := 1;
     numNullBytes_ := 0; isSet_ := [true]; outOfSpaceStr_ := true;
     strList_ := [world]; approxStrLen_ := 10; finished_ := false |}.

Definition helloWorldFinished : RowWriterV2 :=
  {| buf_ := [0x08; 9; 0; 0; 0; 5; 0; 0; 0]%Z ++ world
             ++ [7; 0; 0; 0; 0; 0; 0; 0]%Z;
     headerLen_ := 1; numNullBytes_ := 0; isSet_ := [true];
     outOfSpaceStr_ := true; strList_ := [world]; approxStrLen_ := 10;
     finished_ := true |}.

Definition helloWorldLast : nat -> option (list Z) :=
  noteCall (noteCall (fun _ => None) (SetValue 0 (StringV hello)) SUCCEEDED)
    (SetValue 0 (StringV world)) SUCCEEDED.

(** The field a call works on. *)
Definition callIndex (c : call) : Z :=
  match c with SetValue index _ | SetNull index => index end.

(** What a successful [setValue] leaves in the null flag of a nullable
    field: set for NULLVALUE, clear for every other value. *)
Definition nullFlagFor (v : Value) : bool :=
  match v with Null _ => true | _ => false end.

(** A writer as the constructor leaves it for [stringListSchema]. *)
Definition stringListWriter : RowWriterV2 :=
  {| buf_ := [0x08; 0; 0; 0; 0; 0; 0; 0; 0; 0; 0; 0; 0]%Z; headerLen_ := 1;
     numNullBytes_ := 0; isSet_ := [false; false]; outOfSpaceStr_ := false;
     strList_ := []; approxStrLen_ := 0; finished_ := false |}.

(** One INT64 field and a fresh writer for it. *)
Definition int64Field : SchemaField := plainField INT64 0 8 false 0.
Definition int64Schema : Schema := schemaOfVersion 0 [int64Field] 8.
Definition int64Writer : RowWriterV2 :=
  {| buf_ := [0x08; 0; 0; 0; 0; 0; 0; 0; 0]%Z; headerLen_ := 1;
     numNullBytes_ := 0; isSet_ := [false]; outOfSpaceStr_ := false;
     strList_ := []; approxStrLen_ := 0; finished_ := false |}.

(** One DATE field; one FIXED_STRING field of four bytes. *)
Definition dateField : SchemaField := plainField DATE 0 4 false 0.
Definition dateSchema : Schema := schemaOfVersion 0 [dateField] 4.
Definition fixedField : SchemaField := plainField FIXED_STRING 0 4 false 0.
Definition fixedSchema : Schema := schemaOfVersion 0 [fixedField] 4.

(** The length [write] keeps of a string for a FIXED_STRING field. *)
Definition fixedLen (field : SchemaField) (v : list Z) : nat :=
  if (f_size field <? length v) then utf8CutSize v (f_size field)
  else length v.

(** [stringListWriter] after [listThenOverwrite]. *)
Definition overwrittenWriter : RowWriterV2 :=
  {| buf_ := [0x08; 0; 0; 0; 0; 0; 0; 0; 0; 13; 0; 0; 0;
              1; 0; 0; 0; 7; 0; 0; 0; 0x61]%Z;
     headerLen_ := 1; numNullBytes_ := 0; isSet_ := [true; true];
     outOfSpaceStr_ := true; strList_ := [[0x62%Z]]; approxStrLen_ := 2;
     finished_ := false |}.

(** One nullable STRING field, and the writer after "abc" was written to
    it three times and then null. *)
Definition nullableStringField : SchemaField := plainField STRING 0 8 true 0.
Definition nullableStringSchema : Schema :=
  schemaOfVersion 0 [nullableStringField] 8.
Definition nulledStringWriter : RowWriterV2 :=
  {| buf_ := [0x08; 0x80; 0; 0; 0; 0; 1; 0; 0; 0; 0x61; 0x62; 0x63]%Z;
     headerLen_ := 1; numNullBytes_ := 1; isSet_ := [true];
     outOfSpaceStr_ := true;
     strList_ := [[0x61; 0x62; 0x63]%Z; [0x61; 0x62; 0x63]%Z];
     approxStrLen_ := 9; finished_ := false |}.

(** [overwrittenWriter] after [finish] at time 7. *)
Definition overwrittenFinished : RowWriterV2 :=
  {| buf_ := [0x08; 13; 0; 0; 0; 1; 0; 0; 0; 13; 0; 0; 0; 0x62;
              7; 0; 0; 0; 0; 0; 0; 0]%Z;
     headerLen_ := 1; numNullBytes_ := 0; isSet_ := [true; true];
     outOfSpaceStr_ := true; strList_ := [[0x62%Z]]; approxStrLen_ := 2;
     finished_ := true |}.

(** An INT32 field and an INT8 field; a fresh writer; the writer after
    -2 was written to the first field, then after 5 was written to the
    second, then after [finish] at time 7. *)
Definition intPairSchema : Schema :=
  schemaOfVersion 0 [plainField INT32 0 4 false 0;
                     plainField INT8 4 1 false 0] 5.
Definition intPairWriter : RowWriterV2 :=
  {| buf_ := [0x08; 0; 0; 0; 0; 0]%Z; headerLen_ := 1; numNullBytes_ := 0;
     isSet_ := [false; false]; outOfSpaceStr_ := false; strList_ := [];
     approxStrLen_ := 0; finished_ := false |}.
Definition intPairFirst : RowWriterV2 :=
  {| buf_ := [0x08; 0xFE; 0xFF; 0xFF; 0xFF; 0]%Z; headerLen_ := 1;
     numNullBytes_ := 0; isSet_ := [true; false]; outOfSpaceStr_ := false;
     strList_ := []; approxStrLen_ := 0; finished_ := false |}.
Definition intPairBoth : RowWriterV2 :=
  {| buf_ := [0x08; 0xFE; 0xFF; 0xFF; 0xFF; 5]%Z; headerLen_ := 1;
     numNullBytes_ := 0; isSet_ := [true; true]; outOfSpaceStr_ := false;
     strList_ := []; approxStrLen_ := 0; finished_ := false |}.
Definition intPairFinished : RowWriterV2 :=
  {| buf_ := [0x08; 0xFE; 0xFF; 0xFF; 0xFF; 5; 7; 0; 0; 0; 0; 0; 0; 0]%Z;
     headerLen_ := 1; numNullBytes_ := 0; isSet_ := [true; true];
     outOfSpaceStr_ := false; strList_ := []; approxStrLen_ := 0;
     finished_ := true |}.

(** The field is handled by setting its null flag when it is not set at
    [finish]: its default evaluates to NULLVALUE, or it has no default
    and is nullable. *)
Definition takesNullPath (f : SchemaField) : Prop :=
  (exists bad, f_default f = Some (Null bad)) \/
  (f_default f = None /\ f_nullable f = true).

(** A STRING field followed by an INT8 field that is not nullable, has
    flag position 0 and a default that evaluates to NULLVALUE; the string
    "hi". *)
Definition nullDefaultInt8 : SchemaField :=
  {| f_type := INT8; f_offset := 8; f_size := 1; f_nullable := false;
     f_nullFlagPos := 0; f_default := Some (Null false); f_geoShape := ANY |}.
Definition stringNullDefaultSchema : Schema :=
  schemaOfVersion 0 [stringField; nullDefaultInt8] 9.
Definition hi : list Z := [0x68; 0x69]%Z.

(** No field that is not set in [w] and is not nullable has a default
    that evaluates to NULLVALUE. *)
Definition nullDefaultsNullable (schema : Schema) (w : RowWriterV2) : Prop :=
  forall j g bad, fields schema !! j = Some g -> isSetAt w j = false ->
    f_default g = Some (Null bad) -> f_nullable g = true.


(** * Well-formed schemas *)

Lemma wfSchema_layout schema : wfSchema schema -> wfLayout schema.
Proof. intros [H1 H2 H3 H4 H5 _]. by constructor. Qed.

Coercion wfSchema_layout : wfSchema >-> wfLayout.

(** * Buffer lemmas *)

Lemma lookup_slice (b : list Z) off n i :
  slice off n b !! i = if decide (i < n) then b !! (off + i) else None.
Proof.
  unfold slice. rewrite lookup_take. case_decide; [|done].
  by rewrite lookup_drop.
Qed.

Lemma length_slice (b : list Z) off n :
  off + n <= length b -> length (slice off n b) = n.
Proof. intros. unfold slice. rewrite length_take, length_drop. lia. Qed.

Lemma slice_insert_outside (b : list Z) off n j x :
  j < off \/ off + n <= j -> slice off n (<[j := x]> b) = slice off n b.
Proof.
  intros Hj. apply list_eq. intros i. rewrite !lookup_slice.
  case_decide; [|done]. apply list_lookup_insert_ne. lia.
Qed.

Lemma slice_inserts_outside (b src : list Z) off n j :
  j + length src <= off \/ off + n <= j ->
  slice off n (list_inserts j src b) = slice off n b.
Proof.
  intros Hj. apply list_eq. intros i. rewrite !lookup_slice.
  case_decide; [|done].
  destruct (decide (off + i < j)).
  - by apply list_lookup_inserts_lt.
  - apply list_lookup_inserts_ge. lia.
Qed.

Lemma slice_inserts_same (b src : list Z) off :
  off + length src <= length b ->
  slice off (length src) (list_inserts off src b) = src.
Proof.
  intros Hlen. apply list_eq. intros i. rewrite lookup_slice.
  case_decide as Hi.
  - rewrite list_lookup_inserts by lia. f_equal. lia.
  - symmetry. apply lookup_ge_None. lia.
Qed.

Lemma slice_app_l (b t : list Z) off n :
  off + n <= length b -> slice off n (b ++ t) = slice off n b.
Proof.
  intros Hlen. apply list_eq. intros i. rewrite !lookup_slice.
  case_decide; [|done]. apply lookup_app_l. lia.
Qed.

Lemma slice_app_r (b t : list Z) :
  slice (length b) (length t) (b ++ t) = t.
Proof. unfold slice. by rewrite drop_app_length, firstn_all. Qed.

Lemma length_le_bytes n v : length (le_bytes n v) = n.
Proof. revert v. induction n; intros; simpl; auto. Qed.

(** * The null bitmap *)

Lemma length_setNullBit w pos : length (buf_ (setNullBit w pos)) = length (buf_ w).
Proof. unfold setNullBit. simpl. apply length_insert. Qed.

Lemma length_clearNullBit w pos :
  length (buf_ (clearNullBit w pos)) = length (buf_ w).
Proof. unfold clearNullBit. simpl. apply length_insert. Qed.

Lemma slice_clearNullBit w pos off n :
  nullByteOffset w pos < off ->
  slice off n (buf_ (clearNullBit w pos)) = slice off n (buf_ w).
Proof. intros. unfold clearNullBit. simpl. apply slice_insert_outside. lia. Qed.

Lemma slice_setNullBit w pos off n :
  nullByteOffset w pos < off ->
  slice off n (buf_ (setNullBit w pos)) = slice off n (buf_ w).
Proof. intros. unfold setNullBit. simpl. apply slice_insert_outside. lia. Qed.

(** What the common tail of the typed writers leaves of a slot. *)
Lemma succeed_slot w field index n :
  (f_nullable field = true ->
   Nat.shiftr (f_nullFlagPos field) 3 < numNullBytes_ w) ->
  exists w', succeed w field index = Ret (SUCCEEDED, w') /\
    slotBytes w' field n = slotBytes w field n /\
    length (buf_ w') = length (buf_ w) /\
    isSetAt w' index = bool_decide (index < length (isSet_ w)).
Proof.
  intros Hnull. unfold succeed. eexists. split; [reflexivity|].
  unfold slotBytes, fieldOffset, isSetAt. simpl.
  destruct (f_nullable field) eqn:Hn; simpl.
  - split; [|split].
    + apply slice_insert_outside. left. unfold nullByteOffset.
      specialize (Hnull eq_refl). lia.
    + apply length_insert.
    + case_bool_decide.
      * by rewrite list_lookup_insert_eq.
      * by rewrite list_insert_ge, lookup_ge_None_2 by lia.
  - split; [done|split; [done|]].
    case_bool_decide.
    + by rewrite list_lookup_insert_eq.
    + by rewrite list_insert_ge, lookup_ge_None_2 by lia.
Qed.

(** * The header *)

(** C2, evaluated where the code leaves the rule of the claim: version
    0xFFFF fits two bytes, yet the header announces three (0x0B) and three
    version bytes follow; version 2^56 - 1, the largest the claim allows,
    ends in the fatal branch. *)
Theorem header_boundary_versions (fs : list SchemaField) (sz : nat) :
  minVersionBytes 0xFFFF = Some 2%Z /\
  (exists w, RowWriterV2_new (schemaOfVersion 0xFFFF fs sz) = Ret w /\
             headerLen_ w = 4 /\
             take 4 (buf_ w) = [0x0B; 0xFF; 0xFF; 0x00]%Z) /\
  minVersionBytes (2 ^ 56 - 1) = Some 7%Z /\
  RowWriterV2_new (schemaOfVersion (2 ^ 56 - 1) fs sz) = Abort Fatal.
Proof.
  split; [reflexivity|]. split.
  - eexists. split.
    + unfold RowWriterV2_new, schemaOfVersion.
      cbn -[resize nullBytesFor getNumNullableFields]. reflexivity.
    + split; [reflexivity|]. cbn [buf_].
      rewrite take_resize_le by lia. reflexivity.
  - split; reflexivity.
Qed.

(** * Booleans in integer slots *)

(** Projections of an updated writer. *)
Ltac wsimpl :=
  cbn [buf_ headerLen_ numNullBytes_ isSet_ outOfSpaceStr_ strList_
       approxStrLen_ finished_ with_buf with_isSet with_outOfSpaceStr
       with_strList with_approxStrLen with_finished store] in *.

Ltac byte_of_inserts :=
  repeat (rewrite list_lookup_insert_ne by lia);
  rewrite list_lookup_insert_eq by (rewrite ?length_insert; lia).

(** C7: a bool written to an INT16, INT32 or INT64 field leaves 0x01 or
    0x00 in the low byte of the slot and zero in every other byte of the
    slot, whatever the slot held before. *)
Theorem write_bool_zero_pads (schema : Schema) (w : RowWriterV2)
  (index : nat) (field : SchemaField) (n : nat) (v : bool) :
  fields schema !! index = Some field ->
  intWidth (f_type field) = Some n ->
  f_type field <> INT8 ->
  slotInBuffer w field n ->
  exists w', write_bool schema w index v = Ret (SUCCEEDED, w') /\
    slotBytes w' field n
    = (if v then 1%Z else 0%Z) :: replicate (n - 1) 0%Z.
Proof.
  intros Hfield Hwidth Hne [Hlen Hnull].
  unfold write_bool. rewrite Hfield.
  set (off := fieldOffset w field) in *.
  destruct (f_type field) eqn:Htype; try discriminate; try congruence;
    injection Hwidth as <-;
    match goal with
    | |- context [succeed ?w1 field index] =>
        destruct (succeed_slot w1 field index
                    (match f_type field with INT16 => 2 | INT32 => 4
                                        | _ => 8 end) Hnull)
          as (w' & Hret & Hslot & _)
    end;
    rewrite Htype in Hslot; exists w'; (split; [exact Hret|]);
    rewrite Hslot; unfold slotBytes, fieldOffset; wsimpl;
    fold (fieldOffset w field); fold off;
    apply list_eq; intros i; rewrite lookup_slice;
    (case_decide as Hi;
     [ do 8 (destruct i as [|i];
             [ first [ exfalso; simpl in Hi; lia
                     | rewrite ?Nat.add_0_r; byte_of_inserts; reflexivity ] | ]);
       exfalso; simpl in Hi; lia
     | symmetry; apply lookup_ge_None; simpl; rewrite ?length_replicate;
       simpl; lia ]).
Qed.

(** * Lists and sets *)

Section ListsAndSets.

Variable binary32 : fpnum -> Z.
Variable Value_eq : Value -> Value -> bool.

Lemma writeItem_scalar item vt b r b' :
  scalarKind vt ->
  writeItem binary32 item vt b = Ret (r, b') ->
  r = SUCCEEDED /\ b' = b ++ encodeItem binary32 item.
Proof.
  intros [-> | [-> | ->]]; simpl; destruct item; try discriminate.
  - destruct (int32 _ <? 0)%Z; [discriminate|].
    intros [= <- <-]. by rewrite <- app_assoc.
  - by intros [= <- <-].
  - by intros [= <- <-].
Qed.

Lemma writeItems_scalar values vt b r b' :
  scalarKind vt ->
  writeItems binary32 values vt b = Ret (r, b') ->
  r = SUCCEEDED /\ b' = b ++ flat_map (encodeItem binary32) values.
Proof.
  intros Hvt. revert b. induction values as [|item rest IH]; intros b; simpl.
  - intros [= <- <-]. by rewrite app_nil_r.
  - destruct (writeItem binary32 item vt b) as [[r1 b1]|] eqn:Hitem;
      [|discriminate].
    destruct (writeItem_scalar _ _ _ _ _ Hvt Hitem) as [-> ->].
    intros Hrest. destruct (IH _ Hrest) as [-> ->].
    by rewrite <- app_assoc.
Qed.

Lemma writeUnique_scalar values vt seen b r b' :
  scalarKind vt ->
  writeUnique binary32 Value_eq values vt seen b = Ret (r, b') ->
  r = SUCCEEDED /\
  b' = b ++ flat_map (encodeItem binary32) (uniqueFrom Value_eq seen values).
Proof.
  intros Hvt. revert seen b.
  induction values as [|item rest IH]; intros seen b; simpl.
  - intros [= <- <-]. by rewrite app_nil_r.
  - destruct (existsb (Value_eq item) seen); [apply IH|].
    destruct (writeItem binary32 item vt b) as [[r1 b1]|] eqn:Hitem;
      [|discriminate].
    destruct (writeItem_scalar _ _ _ _ _ Hvt Hitem) as [-> ->].
    intros Hrest. destruct (IH _ _ Hrest) as [-> ->].
    simpl. by rewrite <- app_assoc.
Qed.

Lemma writeList_result values vt b r b' :
  scalarKind vt ->
  writeList binary32 values vt b = Ret (r, b') ->
  (r = TYPE_MISMATCH /\ b' = b /\ allOfType values vt = false) \/
  (r = SUCCEEDED /\ b' = b ++ flat_map (encodeItem binary32) values).
Proof.
  intros Hvt. unfold writeList.
  destruct (allOfType values vt) eqn:Hall; simpl.
  - intros H. right. by eapply writeItems_scalar.
  - intros [= <- <-]. by left.
Qed.

Lemma writeSet_result values vt b r b' :
  scalarKind vt ->
  writeSet binary32 Value_eq values vt b = Ret (r, b') ->
  (r = TYPE_MISMATCH /\ b' = b /\ allOfType values vt = false) \/
  (r = SUCCEEDED /\
   b' = b ++ flat_map (encodeItem binary32) (uniqueFrom Value_eq [] values)).
Proof.
  intros Hvt. unfold writeSet.
  destruct (allOfType values vt) eqn:Hall; simpl.
  - intros H. right. by eapply writeUnique_scalar.
  - intros [= <- <-]. by left.
Qed.

Lemma listElemType_scalar t vt : listElemType t = Some vt -> scalarKind vt.
Proof. destruct t; intros [= <-]; unfold scalarKind; auto. Qed.

Lemma setElemType_scalar t vt : setElemType t = Some vt -> scalarKind vt.
Proof. destruct t; intros [= <-]; unfold scalarKind; auto. Qed.

(** What [writeSet] serializes holds no element twice. *)
Lemma uniqueFrom_distinct seen values :
  distinctKeys Value_eq seen (uniqueFrom Value_eq seen values) = true.
Proof.
  revert seen. induction values as [|item rest IH]; intros seen; simpl.
  - done.
  - destruct (existsb (Value_eq item) seen) eqn:Hseen; [apply IH|].
    simpl. rewrite Hseen. simpl. apply IH.
Qed.

(** Keys that are already distinct are all serialized. *)
Lemma uniqueFrom_of_distinct seen values :
  distinctKeys Value_eq seen values = true ->
  uniqueFrom Value_eq seen values = values.
Proof.
  revert seen. induction values as [|item rest IH]; intros seen; simpl.
  - done.
  - destruct (existsb (Value_eq item) seen); simpl; [discriminate|].
    intros H. f_equal. by apply IH.
Qed.

(** What [writeSet] serializes is taken from the set, in its order. *)
Lemma uniqueFrom_sublist seen values :
  uniqueFrom Value_eq seen values `sublist_of` values.
Proof.
  revert seen. induction values as [|item rest IH]; intros seen; simpl.
  - done.
  - destruct (existsb (Value_eq item) seen).
    + apply sublist_cons. apply IH.
    + apply sublist_skip. apply IH.
Qed.

(** Every element of the set is serialized, or is equal to one that was
    seen or serialized before it. *)
Lemma uniqueFrom_covers seen values v :
  v ∈ values ->
  existsb (Value_eq v) seen = true \/
  v ∈ uniqueFrom Value_eq seen values \/
  exists u, u ∈ uniqueFrom Value_eq seen values /\ Value_eq v u = true.
Proof.
  revert seen. induction values as [|item rest IH]; intros seen Hv.
  - by apply elem_of_nil in Hv.
  - simpl. apply elem_of_cons in Hv as [->|Hv].
    + destruct (existsb (Value_eq item) seen) eqn:Hseen; [by left|].
      right. left. apply elem_of_cons. by left.
    + destruct (existsb (Value_eq item) seen) eqn:Hseen; [by apply IH|].
      destruct (IH (item :: seen) Hv) as [Hold|[Hin|(u & Hu & Heq)]].
      * simpl in Hold. apply orb_true_iff in Hold as [Heq|Hold]; [|by left].
        right. right. exists item. split; [|done].
        apply elem_of_cons. by left.
      * right. left. apply elem_of_cons. by right.
      * right. right. exists u. split; [|done].
        apply elem_of_cons. by right.
Qed.

(** Keys that are distinct: none is equal to one of [seen], and none to
    an earlier one. *)
Lemma distinctKeys_spec seen values :
  distinctKeys Value_eq seen values = true ->
  (forall b a, b ∈ values -> a ∈ seen -> Value_eq b a = false) /\
  (forall i j a b, i < j -> values !! i = Some a -> values !! j = Some b ->
     Value_eq b a = false).
Proof.
  revert seen. induction values as [|item rest IH]; intros seen; simpl.
  - intros _. split; [intros b a Hb; by apply elem_of_nil in Hb|done].
  - intros [Hitem Hrest]%andb_true_iff.
    destruct (IH _ Hrest) as [Hseen Hpair].
    apply negb_true_iff in Hitem.
    assert (Hnone : forall a, a ∈ seen -> Value_eq item a = false).
    { intros a Ha. destruct (Value_eq item a) eqn:Heq; [|done].
      rewrite <- Hitem. symmetry. apply existsb_exists.
      exists a. split; [by apply list_elem_of_In|done]. }
    split.
    + intros b a Hb Ha. apply elem_of_cons in Hb as [->|Hb]; [by apply Hnone|].
      apply Hseen; [done|]. apply elem_of_cons. by right.
    + intros [|i] [|j] a b Hij; simpl; try lia.
      * intros [= <-] Hb. apply Hseen.
        -- by eapply list_elem_of_lookup_2.
        -- apply elem_of_cons. by left.
      * apply Hpair. lia.
Qed.

End ListsAndSets.

(** * Decoding what was stored *)

Lemma le_unsigned_le_bytes n v :
  le_unsigned (le_bytes n v) = (v mod 2 ^ (8 * Z.of_nat n))%Z.
Proof.
  revert v. induction n as [|n IH]; intros v.
  - simpl. by rewrite Z.mod_1_r.
  - cbn [le_bytes le_unsigned]. rewrite IH.
    replace (8 * Z.of_nat (S n))%Z with (8 + 8 * Z.of_nat n)%Z by lia.
    rewrite Z.pow_add_r by lia. change (2 ^ 8)%Z with 256%Z.
    rewrite (Z.rem_mul_r v 256) by lia. reflexivity.
Qed.

Lemma le_signed_le_bytes n v :
  le_signed (le_bytes n v) = wrap_signed (8 * Z.of_nat n) v.
Proof.
  unfold le_signed, wrap_signed.
  by rewrite le_unsigned_le_bytes, length_le_bytes.
Qed.

Lemma int32_small z : (- 2 ^ 31 <= z < 2 ^ 31)%Z -> int32 z = z.
Proof.
  intros Hz. unfold int32, wrap_signed.
  destruct (Z.ltb_spec (2 * (z mod 2 ^ 32)) (2 ^ 32)) as [Hlt|Hge].
  - destruct (Z.le_gt_cases 0 z).
    + apply Z.mod_small. lia.
    + assert (z mod 2 ^ 32 = z + 2 ^ 32)%Z; [|lia].
      symmetry. apply (Z.mod_unique_pos _ _ (-1)); lia.
  - destruct (Z.le_gt_cases 0 z).
    + rewrite Z.mod_small in Hge by lia. rewrite Z.mod_small by lia. lia.
    + assert (z mod 2 ^ 32 = z + 2 ^ 32)%Z; [|lia].
      symmetry. apply (Z.mod_unique_pos _ _ (-1)); lia.
Qed.

Lemma int32_range z : (- 2 ^ 31 <= int32 z < 2 ^ 31)%Z.
Proof.
  unfold int32, wrap_signed.
  pose proof (Z.mod_pos_bound z (2 ^ 32) ltac:(lia)).
  destruct (Z.ltb_spec (2 * (z mod 2 ^ 32)) (2 ^ 32)); lia.
Qed.

Lemma int32_idemp z : int32 (int32 z) = int32 z.
Proof. apply int32_small, int32_range. Qed.

Lemma load_int32_slice b off : load_int32 b off = le_signed (slice off 4 b).
Proof. reflexivity. Qed.

Lemma load_int32_stored b off v :
  slice off 4 b = le_bytes 4 v -> load_int32 b off = int32 v.
Proof.
  intros H. rewrite load_int32_slice, H. apply le_signed_le_bytes.
Qed.

(** * The common tail of the typed writers *)

Lemma drop_inserts_below (b src : list Z) j n :
  j + length src <= n -> drop n (list_inserts j src b) = drop n b.
Proof.
  intros H. apply list_eq. intros i. rewrite !lookup_drop.
  apply list_lookup_inserts_ge. lia.
Qed.

Lemma succeed_above w field index :
  (f_nullable field = true ->
   Nat.shiftr (f_nullFlagPos field) 3 < numNullBytes_ w) ->
  exists w', succeed w field index = Ret (SUCCEEDED, w') /\
    headerLen_ w' = headerLen_ w /\
    numNullBytes_ w' = numNullBytes_ w /\
    length (buf_ w') = length (buf_ w) /\
    (forall i, headerLen_ w + numNullBytes_ w <= i ->
               buf_ w' !! i = buf_ w !! i) /\
    isSet_ w' = <[index := true]> (isSet_ w) /\
    outOfSpaceStr_ w' = outOfSpaceStr_ w /\
    strList_ w' = strList_ w.
Proof.
  intros Hnull. unfold succeed. eexists. split; [reflexivity|].
  destruct (f_nullable field) eqn:Hn; wsimpl; unfold clearNullBit; wsimpl.
  - repeat split; try done.
    + apply length_insert.
    + intros i Hi. apply list_lookup_insert_ne. unfold nullByteOffset.
      specialize (Hnull eq_refl). lia.
  - repeat split; done.
Qed.

Lemma drop_agree (b b' : list Z) n :
  (forall i, n <= i -> b' !! i = b !! i) -> drop n b' = drop n b.
Proof.
  intros H. apply list_eq. intros i. rewrite !lookup_drop. apply H. lia.
Qed.

Lemma slice_agree (b b' : list Z) off n k :
  (forall i, k <= i -> b' !! i = b !! i) -> k <= off ->
  slice off n b' = slice off n b.
Proof.
  intros H Hk. apply list_eq. intros i. rewrite !lookup_slice.
  case_decide; [|done]. apply H. lia.
Qed.

Section ListAndSetWrites.

Variable binary32 : fpnum -> Z.
Variable Value_eq : Value -> Value -> bool.

(** The buffer of the writer that [write_list] and [write_set] work on
    after the out-of-space latch is the buffer they were given. *)
Lemma buf_latched w index :
  buf_ (if isSetAt w index then with_outOfSpaceStr w true else w) = buf_ w.
Proof. by destruct (isSetAt w index). Qed.

Lemma isSet_latched w index :
  isSet_ (if isSetAt w index then with_outOfSpaceStr w true else w) = isSet_ w.
Proof. by destruct (isSetAt w index). Qed.

Lemma write_list_mismatch schema w index field values w' :
  fields schema !! index = Some field ->
  write_list binary32 schema w index values = Ret (TYPE_MISMATCH, w') ->
  w' = with_buf (if isSetAt w index then with_outOfSpaceStr w true else w)
         (buf_ w ++ le_bytes 4 (int32 (Z.of_nat (length values)))) /\
  match listElemType (f_type field) with
  | None => True
  | Some vt => allOfType values vt = false
  end.
Proof.
  intros Hfield. unfold write_list. rewrite Hfield.
  rewrite buf_latched.
  destruct (listElemType (f_type field)) as [vt|] eqn:Hvt.
  - destruct (writeList _ _ _ _) as [[r b]|] eqn:Hw; [|discriminate].
    apply writeList_result in Hw; [|by eapply listElemType_scalar].
    destruct Hw as [(-> & -> & Hall)|(-> & ->)].
    + intros [= <-]. split; [|done].
      by destruct (isSetAt w index).
    + unfold succeed. discriminate.
  - intros [= <-]. by destruct (isSetAt w index).
Qed.

Lemma write_set_mismatch schema w index field values w' :
  fields schema !! index = Some field ->
  write_set binary32 Value_eq schema w index values = Ret (TYPE_MISMATCH, w') ->
  w' = with_buf (if isSetAt w index then with_outOfSpaceStr w true else w)
         (buf_ w ++ le_bytes 4 (int32 (Z.of_nat (length values)))) /\
  match setElemType (f_type field) with
  | None => True
  | Some vt => allOfType values vt = false
  end.
Proof.
  intros Hfield. unfold write_set. rewrite Hfield.
  rewrite buf_latched.
  destruct (setElemType (f_type field)) as [vt|] eqn:Hvt.
  - destruct (writeSet _ _ _ _ _) as [[r b]|] eqn:Hw; [|discriminate].
    apply writeSet_result in Hw; [|by eapply setElemType_scalar].
    destruct Hw as [(-> & -> & Hall)|(-> & ->)].
    + intros [= <-]. split; [|done].
      by destruct (isSetAt w index).
    + unfold succeed. discriminate.
  - intros [= <-]. by destruct (isSetAt w index).
Qed.

(** C10: when writing a list or a set fails with TYPE_MISMATCH, the slot
    of the field and every [isSet_] flag are as before, and the buffer is
    the old buffer followed by the four bytes of the element count: the
    writer is not left unchanged. *)
Theorem list_set_mismatch_leaves_count (schema : Schema) (w : RowWriterV2)
  (index : nat) (field : SchemaField) (values : list Value)
  (w' : RowWriterV2) :
  fields schema !! index = Some field ->
  fieldOffset w field + f_size field <= length (buf_ w) ->
  write_list binary32 schema w index values = Ret (TYPE_MISMATCH, w') \/
  write_set binary32 Value_eq schema w index values = Ret (TYPE_MISMATCH, w') ->
  buf_ w' = buf_ w ++ le_bytes 4 (int32 (Z.of_nat (length values))) /\
  length (buf_ w') = length (buf_ w) + 4 /\
  slotBytes w' field (f_size field) = slotBytes w field (f_size field) /\
  isSet_ w' = isSet_ w /\
  w' <> w.
Proof.
  intros Hfield Hslot Hwrite.
  assert (w' = with_buf
                 (if isSetAt w index then with_outOfSpaceStr w true else w)
                 (buf_ w ++ le_bytes 4 (int32 (Z.of_nat (length values)))))
    as ->.
  { destruct Hwrite as [H|H].
    - by destruct (write_list_mismatch _ _ _ _ _ _ Hfield H).
    - by destruct (write_set_mismatch _ _ _ _ _ _ Hfield H). }
  assert (Hlen : length (buf_ w ++ le_bytes 4 (int32 (Z.of_nat (length values))))
                 = length (buf_ w) + 4).
  { by rewrite length_app, length_le_bytes. }
  split; [done|]. split; [done|]. split; [|split].
  - unfold slotBytes, fieldOffset. wsimpl.
    destruct (isSetAt w index); wsimpl; by apply slice_app_l.
  - wsimpl. apply isSet_latched.
  - intros Heq. apply (f_equal (fun x => length (buf_ x))) in Heq.
    wsimpl. lia.
Qed.

(** C4: a successful write of a set appends the count and then the
    elements, each of them once: the elements of the payload are taken
    from the set in its order, none of them is equal to an earlier one,
    and every element of the set is among them or equal to one of them.
    The count is [set.size()]; the keys of an unordered set are distinct,
    and for such keys every element is in the payload and the count is
    the number of elements in the payload.  The slot holds the offset of
    the count. *)
Theorem write_set_count (schema : Schema) (w : RowWriterV2) (index : nat)
  (field : SchemaField) (values : list Value) (w' : RowWriterV2) :
  fields schema !! index = Some field ->
  slotInBuffer w field 4 ->
  write_set binary32 Value_eq schema w index values = Ret (SUCCEEDED, w') ->
  let written := uniqueFrom Value_eq [] values in
  drop (length (buf_ w)) (buf_ w')
  = le_bytes 4 (int32 (Z.of_nat (length values)))
    ++ flat_map (encodeItem binary32) written /\
  load_int32 (buf_ w') (fieldOffset w' field)
  = int32 (Z.of_nat (length (buf_ w))) /\
  written `sublist_of` values /\
  (forall i j a b, i < j -> written !! i = Some a -> written !! j = Some b ->
     Value_eq b a = false) /\
  (forall v, v ∈ values ->
     v ∈ written \/ exists u, u ∈ written /\ Value_eq v u = true) /\
  (distinctKeys Value_eq [] values = true ->
   written = values /\ length values = length written).
Proof.
  intros Hfield [Hlen Hnull] Hwrite written.
  unfold write_set in Hwrite. rewrite Hfield in Hwrite.
  rewrite buf_latched in Hwrite.
  destruct (setElemType (f_type field)) as [vt|] eqn:Hvt; [|discriminate].
  destruct (writeSet _ _ _ _ _) as [[r b]|] eqn:Hw; [|discriminate].
  apply writeSet_result in Hw; [|by eapply setElemType_scalar].
  destruct Hw as [(-> & -> & Hall)|(-> & ->)]; [discriminate|].
  fold written in Hwrite.
  match type of Hwrite with
  | succeed ?w1 _ _ = _ =>
      destruct (succeed_above w1 field index) as
        (w'' & Hret & Hhl & Hnb & Hl & Habove & _)
  end.
  { destruct (isSetAt w index); exact Hnull. }
  rewrite Hret in Hwrite. injection Hwrite as <-.
  assert (Hbase : headerLen_ w + numNullBytes_ w <= fieldOffset w field)
    by (unfold fieldOffset; lia).
  assert (Hhl' : headerLen_ w'' = headerLen_ w)
    by (rewrite Hhl; by destruct (isSetAt w index)).
  assert (Hnb' : numNullBytes_ w'' = numNullBytes_ w)
    by (rewrite Hnb; by destruct (isSetAt w index)).
  assert (Habove' : forall i, headerLen_ w + numNullBytes_ w <= i ->
            buf_ w'' !! i
            = list_inserts (fieldOffset w field)
                (le_bytes 4 (int32 (Z.of_nat (length (buf_ w)))))
                ((buf_ w ++ le_bytes 4 (int32 (Z.of_nat (length values))))
                 ++ flat_map (encodeItem binary32) written) !! i).
  { intros i Hi. rewrite Habove.
    - wsimpl. unfold fieldOffset. by destruct (isSetAt w index).
    - wsimpl. by destruct (isSetAt w index). }
  split; [|split; [|split; [|split; [|split]]]].
  - erewrite drop_agree; [|intros i Hi; apply Habove'; lia].
    rewrite drop_inserts_below by (rewrite length_le_bytes; lia).
    by rewrite <- app_assoc, drop_app_length.
  - rewrite <- int32_idemp. apply load_int32_stored.
    unfold fieldOffset. rewrite Hhl', Hnb'. fold (fieldOffset w field).
    rewrite (slice_agree _ _ _ _ _ Habove' Hbase).
    rewrite <- (length_le_bytes 4 (int32 (Z.of_nat (length (buf_ w))))) at 1.
    rewrite slice_inserts_same.
    + reflexivity.
    + rewrite !length_app, length_le_bytes. lia.
  - apply uniqueFrom_sublist.
  - apply (distinctKeys_spec Value_eq []). apply uniqueFrom_distinct.
  - intros v Hv.
    destruct (uniqueFrom_covers Value_eq [] values v Hv) as [Hnil|Hcase];
      [discriminate|exact Hcase].
  - intros Hdistinct.
    assert (Hsame : written = values) by by apply uniqueFrom_of_distinct.
    split; [exact Hsame|]. by rewrite Hsame.
Qed.

End ListAndSetWrites.

(** * Rebuilding a writer from an encoded row *)

Lemma succeed_ret w field index :
  exists w', succeed w field index = Ret (SUCCEEDED, w') /\
    outOfSpaceStr_ w' = outOfSpaceStr_ w /\ strList_ w' = strList_ w /\
    finished_ w' = finished_ w.
Proof.
  unfold succeed. eexists. split; [reflexivity|].
  by destruct (f_nullable field).
Qed.

Lemma isSetAt_replicate w n index :
  isSet_ w = replicate n true -> index < n -> isSetAt w index = true.
Proof.
  unfold isSetAt. intros -> Hi. by rewrite lookup_replicate_2.
Qed.

(** A string written to a STRING field that is already set goes to the
    out-of-space list. *)
Lemma write_string_latches schema w index field s isWKB :
  fields schema !! index = Some field ->
  f_type field = STRING \/ (f_type field = GEOGRAPHY /\ isWKB = true) ->
  isSetAt w index = true ->
  exists w', write_string schema w index s isWKB = Ret (SUCCEEDED, w') /\
    outOfSpaceStr_ w' = true /\ strList_ w' = strList_ w ++ [s].
Proof.
  intros Hfield Htype Hset. unfold write_string. rewrite Hfield, Hset.
  destruct Htype as [-> | [-> ->]]; simpl;
    match goal with
    | |- context [succeed ?w1 field index] =>
        destruct (succeed_ret w1 field index)
          as (w' & Hret & Hlatch & Hlist & _)
    end;
    exists w'; rewrite Hret; wsimpl; done.
Qed.

Section Reseed.

Variable toTimestamp : Z -> option Z.
Variable binary32 : fpnum -> Z.
Variable binary64 : fpnum -> Z.
Variable Value_eq : Value -> Value -> bool.

(** C8: a writer rebuilt from an encoded row works on the row without
    its last eight bytes; a version in the header other than that of the
    schema is fatal; every field counts as set, so that the next string or
    geography written to a STRING or GEOGRAPHY field is put on the
    out-of-space list.  [approxStrLen_] is computed from the row that is
    already stripped and eight is taken off once more: it is the length of
    the encoded row less header, null bytes, fixed part and sixteen, in
    [size_t] arithmetic, which is never the length less header, null
    bytes, fixed part and eight; it is eight less than the bytes behind
    the fixed part when there are eight or more of them, and wraps around
    when there are fewer. *)
Theorem reseed_from_encoded (schema : Schema) (encoded : list Z) :
  8 <= length encoded ->
  let payload := take (length encoded - 8) encoded in
  ((Z.land (byte_at payload 0) 0x18 = 0x08)%Z ->
   Z.to_nat (Z.land (byte_at payload 0) 0x07) + 1 <= length payload ->
   decodedVersion payload <> getVersion schema ->
   RowWriterV2_fromEncoded schema encoded = Abort Fatal) /\
  (forall w, RowWriterV2_fromEncoded schema encoded = Ret w ->
     buf_ w = payload /\
     decodedVersion payload = getVersion schema /\
     headerLen_ w = Z.to_nat (Z.land (byte_at payload 0) 0x07) + 1 /\
     numNullBytes_ w = nullBytesFor (getNumNullableFields schema) /\
     isSet_ w = replicate (getNumFields schema) true /\
     (let tail := (Z.of_nat (length encoded) - Z.of_nat (headerLen_ w)
                   - Z.of_nat (numNullBytes_ w) - Z.of_nat (size schema)
                   - 8)%Z in
      approxStrLen_ w = wrap64 (tail - 8) /\
      approxStrLen_ w <> tail /\
      ((0 <= tail)%Z -> (Z.of_nat (length encoded) < 2 ^ 64)%Z ->
       approxStrLen_ w
       = if (8 <=? tail)%Z then (tail - 8)%Z else (tail - 8 + 2 ^ 64)%Z)) /\
     (forall index field s,
        fields schema !! index = Some field -> f_type field = STRING ->
        exists w', setValue toTimestamp binary32 binary64 Value_eq schema w
                     (Z.of_nat index) (StringV s) = Ret (SUCCEEDED, w') /\
          outOfSpaceStr_ w' = true /\ strList_ w' = [s]) /\
     (forall index field g,
        fields schema !! index = Some field -> f_type field = GEOGRAPHY ->
        f_geoShape field = ANY \/ GeoShape_code (f_geoShape field) = shape g ->
        exists w', setValue toTimestamp binary32 binary64 Value_eq schema w
                     (Z.of_nat index) (GeographyV g) = Ret (SUCCEEDED, w') /\
          outOfSpaceStr_ w' = true /\ strList_ w' = [asWKB g])).
Proof.
  intros Hlen payload.
  assert (Hstrip : stripTrailer encoded = payload).
  { unfold stripTrailer. destruct (Nat.ltb_spec (length encoded) 8); [lia|done]. }
  unfold RowWriterV2_fromEncoded, processV2EncodedStr. rewrite Hstrip.
  set (verBytes := Z.to_nat (Z.land (byte_at payload 0) 0x07)).
  assert (Hver : (if 0 <? verBytes
                  then le_unsigned (take verBytes (drop 1 payload)) else 0%Z)
                 = decodedVersion payload).
  { unfold decodedVersion. fold verBytes.
    destruct (Nat.ltb_spec 0 verBytes) as [|H0]; [done|].
    by replace verBytes with 0 by lia. }
  rewrite Hver. split.
  - intros Hsig Hlong Hne.
    rewrite Hsig. simpl.
    destruct (Nat.leb_spec (verBytes + 1) (length payload)); [|lia]. simpl.
    destruct (Z.eqb_spec (decodedVersion payload) (getVersion schema)); done.
  - intros w.
    destruct (negb _); [discriminate|].
    destruct (_ && _); [discriminate|].
    destruct (Z.eqb_spec (decodedVersion payload) (getVersion schema))
      as [Heq|]; [|discriminate].
    simpl. intros [= Hw]. symmetry in Hw.
    assert (Hset : isSet_ w = replicate (getNumFields schema) true)
      by (by rewrite Hw).
    assert (Hfin : finished_ w = false) by (by rewrite Hw).
    assert (Hlist : strList_ w = []) by (by rewrite Hw).
    assert (Happrox : approxStrLen_ w
              = wrap64 (Z.of_nat (length payload) - Z.of_nat (headerLen_ w)
                        - Z.of_nat (numNullBytes_ w)
                        - Z.of_nat (size schema) - 8)) by (by rewrite Hw).
    assert (Hrange : forall index field,
              fields schema !! index = Some field ->
              ((Z.of_nat index <? 0)%Z
               || (Z.of_nat (getNumFields schema) <=? Z.of_nat index)%Z)
              = false).
    { intros index field Hfield.
      assert (index < getNumFields schema)
        by (eapply lookup_lt_Some; exact Hfield).
      destruct (Z.ltb_spec (Z.of_nat index) 0); [lia|].
      destruct (Z.leb_spec (Z.of_nat (getNumFields schema)) (Z.of_nat index));
        [lia|done]. }
    split; [by rewrite Hw|]. split; [done|]. split; [by rewrite Hw|].
    split; [by rewrite Hw|]. split; [done|].
    split; [|split].
    + assert (Hpayload : length payload = length encoded - 8)
        by (unfold payload; rewrite length_take; lia).
      rewrite Hpayload in Happrox. cbv zeta.
      set (tail := (Z.of_nat (length encoded) - Z.of_nat (headerLen_ w)
                    - Z.of_nat (numNullBytes_ w) - Z.of_nat (size schema)
                    - 8)%Z).
      assert (Happrox' : approxStrLen_ w = wrap64 (tail - 8)).
      { rewrite Happrox. f_equal. unfold tail. lia. }
      unfold wrap64 in Happrox'.
      change (2 ^ 64)%Z with 18446744073709551616%Z in *.
      pose proof (Z.div_mod (tail - 8) 18446744073709551616 ltac:(lia)) as Hdm.
      pose proof (Z.mod_pos_bound (tail - 8) 18446744073709551616 ltac:(lia))
        as Hbound.
      split; [exact Happrox'|]. split; [lia|].
      intros Htail Hsmall. rewrite Happrox'.
      destruct (Z.leb_spec 8 tail).
      * apply Z.mod_small. unfold tail in *. lia.
      * symmetry. apply (Z.mod_unique _ _ (-1)); lia.
    + intros index field s Hfield Htype.
      unfold setValue. rewrite Hfin, (Hrange _ _ Hfield). simpl.
      rewrite Nat2Z.id.
      destruct (write_string_latches schema w index field s false)
        as (w' & Hret & Hl & Hs); [exact Hfield|left; exact Htype| |].
      * eapply isSetAt_replicate; [exact Hset|].
        eapply lookup_lt_Some; exact Hfield.
      * exists w'. split; [exact Hret|]. split; [exact Hl|].
        by rewrite Hs, Hlist.
    + intros index field g Hfield Htype Hshape.
      unfold setValue. rewrite Hfin, (Hrange _ _ Hfield). simpl.
      rewrite Nat2Z.id. unfold write_geography. rewrite Hfield.
      assert (Hpass : negb (GeoShape_code (f_geoShape field)
                            =? GeoShape_code ANY)%Z
                      && negb (GeoShape_code (f_geoShape field) =? shape g)%Z
                      = false).
      { destruct Hshape as [-> | ->]; [done|].
        rewrite Z.eqb_refl. simpl. apply andb_false_r. }
      rewrite Hpass.
      destruct (write_string_latches schema w index field (asWKB g) true)
        as (w' & Hret & Hl & Hs);
        [exact Hfield|right; split; [exact Htype|reflexivity]| |].
      * eapply isSetAt_replicate; [exact Hset|].
        eapply lookup_lt_Some; exact Hfield.
      * exists w'. split; [exact Hret|]. split; [exact Hl|].
        by rewrite Hs, Hlist.
Qed.

End Reseed.

(** * Result codes of the typed writers *)


Section Codes.

Variable toTimestamp : Z -> option Z.
Variable binary32 : fpnum -> Z.
Variable binary64 : fpnum -> Z.
Variable Value_eq : Value -> Value -> bool.

Ltac codes H :=
  unfold storeRounded, storeNarrow in H; cbv zeta in H;
  repeat case_match; simplify_eq; unfold succeed in *;
  repeat case_match; simplify_eq; unfold writerCode; auto.

Lemma write_bool_code schema w i v r w' :
  write_bool schema w i v = Ret (r, w') -> writerCode r.
Proof. unfold write_bool. intros H. codes H. Qed.

Lemma write_int64_code schema w i v r w' :
  write_int64 toTimestamp binary32 binary64 schema w i v = Ret (r, w') ->
  writerCode r.
Proof. unfold write_int64. intros H. codes H. Qed.

Lemma write_double_code schema w i v r w' :
  write_double binary32 binary64 schema w i v = Ret (r, w') -> writerCode r.
Proof. unfold write_double. intros H. codes H. Qed.

Lemma write_float_code schema w i v r w' :
  write_float binary32 binary64 schema w i v = Ret (r, w') -> writerCode r.
Proof. unfold write_float. intros H. codes H. Qed.

Lemma write_string_code schema w i v isWKB r w' :
  write_string schema w i v isWKB = Ret (r, w') -> writerCode r.
Proof. unfold write_string. intros H. codes H. Qed.

Lemma write_date_code schema w i v r w' :
  write_date schema w i v = Ret (r, w') -> writerCode r.
Proof. unfold write_date. intros H. codes H. Qed.

Lemma write_time_code schema w i v r w' :
  write_time schema w i v = Ret (r, w') -> writerCode r.
Proof. unfold write_time. intros H. codes H. Qed.

Lemma write_datetime_code schema w i v r w' :
  write_datetime schema w i v = Ret (r, w') -> writerCode r.
Proof. unfold write_datetime. intros H. codes H. Qed.

Lemma write_duration_code schema w i v r w' :
  write_duration schema w i v = Ret (r, w') -> writerCode r.
Proof. unfold write_duration. intros H. codes H. Qed.

Lemma write_geography_code schema w i v r w' :
  write_geography schema w i v = Ret (r, w') -> writerCode r.
Proof.
  unfold write_geography. intros H.
  destruct (fields schema !! i); [|discriminate].
  destruct (_ && _).
  - injection H as <- <-. unfold writerCode. auto.
  - by eapply write_string_code.
Qed.

Lemma write_list_code schema w i v r w' :
  write_list binary32 schema w i v = Ret (r, w') -> writerCode r.
Proof.
  unfold write_list. intros H.
  destruct (fields schema !! i) as [field|]; [|discriminate].
  destruct (listElemType (f_type field)) as [vt|] eqn:Hvt.
  - destruct (writeList _ _ _ _) as [[r1 b]|] eqn:Hw; [|discriminate].
    apply writeList_result in Hw; [|by eapply listElemType_scalar].
    destruct Hw as [(-> & _)|(-> & _)].
    + injection H as <- <-. unfold writerCode. auto.
    + unfold succeed in H. injection H as <- <-. unfold writerCode. auto.
  - injection H as <- <-. unfold writerCode. auto.
Qed.

Lemma write_set_code schema w i v r w' :
  write_set binary32 Value_eq schema w i v = Ret (r, w') -> writerCode r.
Proof.
  unfold write_set. intros H.
  destruct (fields schema !! i) as [field|]; [|discriminate].
  destruct (setElemType (f_type field)) as [vt|] eqn:Hvt.
  - destruct (writeSet _ _ _ _ _) as [[r1 b]|] eqn:Hw; [|discriminate].
    apply writeSet_result in Hw; [|by eapply setElemType_scalar].
    destruct Hw as [(-> & _)|(-> & _)].
    + injection H as <- <-. unfold writerCode. auto.
    + unfold succeed in H. injection H as <- <-. unfold writerCode. auto.
  - injection H as <- <-. unfold writerCode. auto.
Qed.

Lemma writeValue_code schema w i v r w' :
  writeValue toTimestamp binary32 binary64 Value_eq schema w i v
  = Some (Ret (r, w')) ->
  writerCode r.
Proof.
  destruct v; simpl; intros [= H];
    eauto using write_bool_code, write_int64_code, write_double_code,
      write_string_code, write_date_code, write_time_code,
      write_datetime_code, write_geography_code, write_duration_code,
      write_list_code, write_set_code.
Qed.

Lemma fillUnset_code schema w i r w' :
  fillUnset toTimestamp binary32 binary64 Value_eq schema w i = Ret (r, w') ->
  writerCode r \/ r = FIELD_UNSET.
Proof.
  unfold fillUnset. intros H.
  destruct (fields schema !! i) as [field|]; [|discriminate].
  destruct (_ && _); [injection H as <- <-; by right|].
  destruct (f_default field) as [defVal|].
  - destruct (writeValue _ _ _ _ _ _ _ defVal) as [res|] eqn:Hw.
    + assert (res = Ret (r, w') \/ defVal = Null true \/ defVal = Null false)
        as [->|Hnull].
      { destruct defVal as [| [|] | | | | | | | | | | | |]; auto. }
      * left. by eapply writeValue_code.
      * destruct Hnull as [-> | ->]; discriminate.
    + destruct defVal; try discriminate.
      injection H as <- <-. left. unfold writerCode. auto.
  - injection H as <- <-. left. unfold writerCode. auto.
Qed.

Lemma checkUnsetFrom_code schema indices w r w' :
  checkUnsetFrom toTimestamp binary32 binary64 Value_eq schema indices w
  = Ret (r, w') ->
  writerCode r \/ r = FIELD_UNSET.
Proof.
  revert w. induction indices as [|i rest IH]; intros w; simpl.
  - intros [= <- <-]. left. unfold writerCode. auto.
  - destruct (isSetAt w i); [apply IH|].
    destruct (fillUnset _ _ _ _ _ _ _) as [[r1 w1]|] eqn:Hfill; [|discriminate].
    destruct r1; try (intros [= <- <-]; by eapply fillUnset_code).
    apply IH.
Qed.

End Codes.

(** * Floating-point values in integer slots *)

Lemma fp_gt_finite q c : fp_gt (FFin q) c = true <-> (c < q)%Q.
Proof.
  simpl. rewrite negb_true_iff, <- not_true_iff_false, Qle_bool_iff.
  split; [apply Qnot_le_lt|apply Qlt_not_le].
Qed.

Lemma fp_lt_finite q c : fp_lt (FFin q) c = true <-> (q < c)%Q.
Proof.
  simpl. rewrite negb_true_iff, <- not_true_iff_false, Qle_bool_iff.
  split; [apply Qnot_le_lt|apply Qlt_not_le].
Qed.

(** Rounding keeps a value between two integers between them. *)
Lemma round_half_away_between q lo hi :
  (lo <= 0 <= hi)%Z ->
  (inject_Z lo <= q)%Q -> (q <= inject_Z hi)%Q ->
  (lo <= round_half_away q <= hi)%Z.
Proof.
  intros Hzero Hlo Hhi. destruct q as [n d].
  unfold Qle in Hlo, Hhi. simpl in Hlo, Hhi.
  unfold round_half_away. simpl.
  pose proof (Pos2Z.is_pos d) as Hd.
  destruct (Z.leb_spec 0 n) as [Hn|Hn].
  - split.
    + transitivity 0%Z; [lia|]. apply Z.div_pos; lia.
    + apply Z.lt_succ_r. apply Z.div_lt_upper_bound; [lia|]. nia.
  - split.
    + assert ((2 * - n + Z.pos d) / (2 * Z.pos d) < - lo + 1)%Z; [|lia].
      apply Z.div_lt_upper_bound; [lia|]. nia.
    + assert (0 <= (2 * - n + Z.pos d) / (2 * Z.pos d))%Z; [|lia].
      apply Z.div_pos; lia.
Qed.

Lemma slotBytes_store_succeed w field index src :
  slotInBuffer w field (length src) ->
  exists w', succeed (store w (fieldOffset w field) src) field index
             = Ret (SUCCEEDED, w') /\
    slotBytes w' field (length src) = src.
Proof.
  intros [Hlen Hnull].
  destruct (succeed_above (store w (fieldOffset w field) src) field index)
    as (w' & Hret & Hhl & Hnb & _ & Habove & _); [exact Hnull|].
  exists w'. split; [exact Hret|].
  unfold slotBytes, fieldOffset. rewrite Hhl, Hnb. wsimpl.
  fold (fieldOffset w field).
  erewrite slice_agree; [|exact Habove|unfold fieldOffset; wsimpl; lia].
  wsimpl. by apply slice_inserts_same.
Qed.

Lemma storeRounded_spec w field index q hi lo n :
  slotInBuffer w field n ->
  ((exists w', storeRounded w field index (FFin q) hi lo n
               = Ret (OUT_OF_RANGE, w'))
   <-> (hi < q \/ q < lo)%Q) /\
  ((inject_Z (int_min (8 * Z.of_nat n)) <= q)%Q ->
   (q <= inject_Z (int_max (8 * Z.of_nat n)))%Q ->
   (q <= hi)%Q -> (lo <= q)%Q -> 0 < n ->
   (int_min (8 * Z.of_nat n) <= round_half_away q
    <= int_max (8 * Z.of_nat n))%Z /\
   exists w', storeRounded w field index (FFin q) hi lo n
              = Ret (SUCCEEDED, w') /\
     slotBytes w' field n = le_bytes n (round_half_away q)).
Proof.
  intros Hslot. unfold storeRounded. split.
  - split.
    + intros [w' H].
      destruct (fp_gt (FFin q) hi) eqn:Hgt.
      { left. by apply fp_gt_finite. }
      destruct (fp_lt (FFin q) lo) eqn:Hlt.
      { right. by apply fp_lt_finite. }
      simpl in H. destruct (_ && _); [|discriminate].
      unfold succeed in H. discriminate.
    + intros [H|H].
      * apply fp_gt_finite in H. rewrite H. simpl. eauto.
      * apply fp_lt_finite in H. rewrite H, orb_true_r. eauto.
  - intros Hmin Hmax Hhi Hlo Hn.
    assert (Hround : (int_min (8 * Z.of_nat n) <= round_half_away q
                      <= int_max (8 * Z.of_nat n))%Z).
    { apply round_half_away_between; [|done|done].
      unfold int_min, int_max.
      assert (0 < 2 ^ (8 * Z.of_nat n - 1))%Z by (apply Z.pow_pos_nonneg; lia).
      lia. }
    split; [exact Hround|].
    assert (fp_gt (FFin q) hi = false) as ->.
    { apply not_true_iff_false. rewrite fp_gt_finite. by apply Qle_not_lt. }
    assert (fp_lt (FFin q) lo = false) as ->.
    { apply not_true_iff_false. rewrite fp_lt_finite. by apply Qle_not_lt. }
    simpl.
    destruct (Z.leb_spec (int_min (8 * Z.of_nat n)) (round_half_away q));
      [|lia].
    destruct (Z.leb_spec (round_half_away q) (int_max (8 * Z.of_nat n)));
      [|lia].
    simpl.
    rewrite <- (length_le_bytes n (round_half_away q)) in Hslot.
    destruct (slotBytes_store_succeed w field index _ Hslot) as (w' & Hret & Hs).
    exists w'. split; [exact Hret|]. by rewrite length_le_bytes in Hs.
Qed.

Section FloatingPoint.

Variable binary32 : fpnum -> Z.
Variable binary64 : fpnum -> Z.

Ltac by_storeRounded Hfield Hwidth Hslot :=
  let Hoor := fresh "Hoor" in
  let Hok := fresh "Hok" in
  let Hmin := fresh "Hmin" in
  let Hmax := fresh "Hmax" in
  let Hw := fresh "Hw" in
  rewrite Hfield;
  match goal with
  | |- context [f_type ?field] =>
      destruct (f_type field) eqn:?; try discriminate
  end;
  injection Hwidth as <-;
  match goal with
  | |- context [storeRounded ?w ?field ?index (FFin ?q) ?hi ?lo ?n] =>
      destruct (storeRounded_spec w field index q hi lo n Hslot)
        as [Hoor Hok]
  end;
  (split; [exact Hoor|]);
  intros Hmin Hmax;
  (destruct Hok as [_ Hw];
   [exact Hmin|exact Hmax| |exact Hmin|lia|exact Hw]);
  try exact Hmax;
  (eapply Qle_trans; [exact Hmax|]; vm_compute; discriminate).

Lemma write_double_guard schema w index field n q :
  fields schema !! index = Some field ->
  intWidth (f_type field) = Some n ->
  slotInBuffer w field n ->
  ((exists w', write_double binary32 binary64 schema w index (FFin q)
               = Ret (OUT_OF_RANGE, w'))
   <-> (maxAsDouble n < q \/ q < minAsFloating n)%Q) /\
  ((minAsFloating n <= q)%Q ->
   (q <= inject_Z (int_max (8 * Z.of_nat n)))%Q ->
   exists w', write_double binary32 binary64 schema w index (FFin q)
              = Ret (SUCCEEDED, w') /\
     slotBytes w' field n = le_bytes n (round_half_away q)).
Proof.
  intros Hfield Hwidth Hslot. unfold write_double.
  by_storeRounded Hfield Hwidth Hslot.
Qed.

Lemma write_float_guard schema w index field n q :
  fields schema !! index = Some field ->
  intWidth (f_type field) = Some n ->
  slotInBuffer w field n ->
  ((exists w', write_float binary32 binary64 schema w index (FFin q)
               = Ret (OUT_OF_RANGE, w'))
   <-> (maxAsFloat n < q \/ q < minAsFloating n)%Q) /\
  ((minAsFloating n <= q)%Q ->
   (q <= inject_Z (int_max (8 * Z.of_nat n)))%Q ->
   exists w', write_float binary32 binary64 schema w index (FFin q)
              = Ret (SUCCEEDED, w') /\
     slotBytes w' field n = le_bytes n (round_half_away q)).
Proof.
  intros Hfield Hwidth Hslot. unfold write_float.
  by_storeRounded Hfield Hwidth Hslot.
Qed.

Lemma storeRounded_refuses w field index q hi lo n :
  (hi < q \/ q < lo)%Q ->
  storeRounded w field index (FFin q) hi lo n = Ret (OUT_OF_RANGE, w).
Proof.
  unfold storeRounded. intros [H|H].
  - apply fp_gt_finite in H. by rewrite H.
  - apply fp_lt_finite in H. by rewrite H, orb_true_r.
Qed.

Lemma write_double_refuses schema w index field n q :
  fields schema !! index = Some field ->
  intWidth (f_type field) = Some n ->
  (maxAsDouble n < q \/ q < minAsFloating n)%Q ->
  write_double binary32 binary64 schema w index (FFin q)
  = Ret (OUT_OF_RANGE, w).
Proof.
  intros Hfield Hwidth Hout. unfold write_double. rewrite Hfield.
  destruct (f_type field); try discriminate; injection Hwidth as <-;
    apply storeRounded_refuses; exact Hout.
Qed.

Lemma write_float_refuses schema w index field n q :
  fields schema !! index = Some field ->
  intWidth (f_type field) = Some n ->
  (maxAsFloat n < q \/ q < minAsFloating n)%Q ->
  write_float binary32 binary64 schema w index (FFin q)
  = Ret (OUT_OF_RANGE, w).
Proof.
  intros Hfield Hwidth Hout. unfold write_float. rewrite Hfield.
  destruct (f_type field); try discriminate; injection Hwidth as <-;
    apply storeRounded_refuses; exact Hout.
Qed.

(** The limits after the cast are the limits themselves or, for the
    maximum of the wider types, the next integer. *)
Lemma maxAsDouble_bounds n :
  0 < n ->
  (n <= 4 -> maxAsDouble n = inject_Z (int_max (8 * Z.of_nat n))) /\
  (maxAsDouble n <= inject_Z (int_max (8 * Z.of_nat n) + 1))%Q.
Proof.
  intros Hn. unfold maxAsDouble, int_max.
  destruct (Nat.leb_spec n 4).
  - split; [done|]. rewrite <- Zle_Qle. lia.
  - split; [lia|]. rewrite <- Zle_Qle. lia.
Qed.

Lemma maxAsFloat_bounds n :
  0 < n ->
  (n <= 2 -> maxAsFloat n = inject_Z (int_max (8 * Z.of_nat n))) /\
  (maxAsFloat n <= inject_Z (int_max (8 * Z.of_nat n) + 1))%Q.
Proof.
  intros Hn. unfold maxAsFloat, int_max.
  destruct (Nat.leb_spec n 2).
  - split; [done|]. rewrite <- Zle_Qle. lia.
  - split; [lia|]. rewrite <- Zle_Qle. lia.
Qed.

(** C3, as the code has it: the value itself is compared, before it is
    rounded, with the limits of the destination.  A value below the
    minimum is refused with OUT_OF_RANGE and the writer is left as it
    was; so is a value above the maximum when the maximum is exact in the
    source type (up to four bytes from a double, up to two from a float),
    and a value above the maximum plus one in every case; a value between
    the minimum and the maximum is rounded half away from zero, the
    result is in the range of the destination, and it is stored. *)
Theorem float_guard_before_round (schema : Schema) (w : RowWriterV2)
  (index : nat) (field : SchemaField) (n : nat) (q : Q) :
  fields schema !! index = Some field ->
  intWidth (f_type field) = Some n ->
  slotInBuffer w field n ->
  let lo := inject_Z (int_min (8 * Z.of_nat n)) in
  let hi := inject_Z (int_max (8 * Z.of_nat n)) in
  let above := inject_Z (int_max (8 * Z.of_nat n) + 1) in
  ((q < lo)%Q ->
   write_double binary32 binary64 schema w index (FFin q)
   = Ret (OUT_OF_RANGE, w) /\
   write_float binary32 binary64 schema w index (FFin q)
   = Ret (OUT_OF_RANGE, w)) /\
  ((hi < q)%Q ->
   (n <= 4 \/ (above < q)%Q ->
    write_double binary32 binary64 schema w index (FFin q)
    = Ret (OUT_OF_RANGE, w)) /\
   (n <= 2 \/ (above < q)%Q ->
    write_float binary32 binary64 schema w index (FFin q)
    = Ret (OUT_OF_RANGE, w))) /\
  ((lo <= q)%Q -> (q <= hi)%Q ->
   (int_min (8 * Z.of_nat n) <= round_half_away q
    <= int_max (8 * Z.of_nat n))%Z /\
   (exists w', write_double binary32 binary64 schema w index (FFin q)
               = Ret (SUCCEEDED, w') /\
      slotBytes w' field n = le_bytes n (round_half_away q)) /\
   (exists w', write_float binary32 binary64 schema w index (FFin q)
               = Ret (SUCCEEDED, w') /\
      slotBytes w' field n = le_bytes n (round_half_away q))).
Proof.
  intros Hfield Hwidth Hslot lo hi above.
  assert (Hn : 0 < n) by (destruct (f_type field); simplify_eq/=; lia).
  destruct (maxAsDouble_bounds n Hn) as [HDexact HDabove].
  destruct (maxAsFloat_bounds n Hn) as [HFexact HFabove].
  split; [|split].
  - intros Hlow. split.
    + apply (write_double_refuses _ _ _ field n); [done|done|by right].
    + apply (write_float_refuses _ _ _ field n); [done|done|by right].
  - intros Hhigh. split.
    + intros Hcase. apply (write_double_refuses _ _ _ field n); [done|done|left].
      destruct Hcase as [Hexact|Habove].
      * by rewrite HDexact.
      * eapply Qle_lt_trans; [exact HDabove|exact Habove].
    + intros Hcase. apply (write_float_refuses _ _ _ field n); [done|done|left].
      destruct Hcase as [Hexact|Habove].
      * by rewrite HFexact.
      * eapply Qle_lt_trans; [exact HFabove|exact Habove].
  - intros Hmin Hmax.
    destruct (write_double_guard _ _ _ _ _ q Hfield Hwidth Hslot) as [_ HD].
    destruct (write_float_guard _ _ _ _ _ q Hfield Hwidth Hslot) as [_ HF].
    split; [|split; auto].
    apply round_half_away_between; [|exact Hmin|exact Hmax].
    unfold int_min, int_max.
    assert (0 < 2 ^ (8 * Z.of_nat n - 1))%Z by (apply Z.pow_pos_nonneg; lia).
    lia.
Qed.

End FloatingPoint.

(** C3, refuted as stated: 127.25 is a float and a double; rounded half
    away from zero it is 127, inside the range of an INT8 field, and both
    writers return OUT_OF_RANGE for it and leave the writer as it was. *)
Lemma round_inside_yet_out_of_range :
  round_half_away (509 # 4) = 127%Z /\
  (int_min 8 <= 127 <= int_max 8)%Z /\
  write_double noBits noBits int8Schema int8Writer 0 (FFin (509 # 4))
  = Ret (OUT_OF_RANGE, int8Writer) /\
  write_float noBits noBits int8Schema int8Writer 0 (FFin (509 # 4))
  = Ret (OUT_OF_RANGE, int8Writer).
Proof.
  split; [reflexivity|]. split; [vm_compute; split; discriminate|].
  split; reflexivity.
Qed.

(** * Null flags, bit by bit *)

Lemma land7_lt pos : Nat.land pos 7 < 8.
Proof.
  change 7 with (Nat.ones 3). rewrite Nat.land_ones.
  apply Nat.mod_upper_bound. discriminate.
Qed.

Lemma pos_of_byte_and_bit pos pos' :
  Nat.shiftr pos 3 = Nat.shiftr pos' 3 ->
  Nat.land pos 7 = Nat.land pos' 7 -> pos = pos'.
Proof.
  change 7 with (Nat.ones 3). rewrite !Nat.land_ones, !Nat.shiftr_div_pow2.
  intros Hd Hm.
  rewrite (Nat.div_mod pos (2 ^ 3)), (Nat.div_mod pos' (2 ^ 3)) by discriminate.
  by rewrite Hd, Hm.
Qed.

Lemma bit_index_cases p :
  p < 8 -> p = 0 \/ p = 1 \/ p = 2 \/ p = 3 \/ p = 4 \/ p = 5 \/ p = 6 \/ p = 7.
Proof. lia. Qed.

Ltac each_bit H :=
  apply bit_index_cases in H;
  destruct H as [-> | [-> | [-> | [-> | [-> | [-> | [-> | ->]]]]]]].

Lemma bit_clear_other b p p' :
  p < 8 -> p' < 8 -> p <> p' ->
  Z.land (Z.land b (byte_at andBits p)) (byte_at orBits p')
  = Z.land b (byte_at orBits p').
Proof.
  intros Hp Hp' Hne. rewrite <- Z.land_assoc. f_equal.
  each_bit Hp; each_bit Hp'; try reflexivity; congruence.
Qed.

Lemma bit_clear_same b p :
  p < 8 -> Z.land (Z.land b (byte_at andBits p)) (byte_at orBits p) = 0%Z.
Proof.
  intros Hp. rewrite <- Z.land_assoc.
  replace (Z.land (byte_at andBits p) (byte_at orBits p)) with 0%Z.
  - apply Z.land_0_r.
  - each_bit Hp; reflexivity.
Qed.

Lemma bit_set_other b p p' :
  p < 8 -> p' < 8 -> p <> p' ->
  Z.land (Z.lor b (byte_at orBits p)) (byte_at orBits p')
  = Z.land b (byte_at orBits p').
Proof.
  intros Hp Hp' Hne. rewrite Z.land_lor_distr_l.
  replace (Z.land (byte_at orBits p) (byte_at orBits p')) with 0%Z.
  - apply Z.lor_0_r.
  - each_bit Hp; each_bit Hp'; try reflexivity; congruence.
Qed.

Lemma bit_set_same b p :
  p < 8 -> Z.land (Z.lor b (byte_at orBits p)) (byte_at orBits p) <> 0%Z.
Proof.
  intros Hp. rewrite Z.land_lor_distr_l, Z.land_diag.
  rewrite Z.lor_eq_0_iff. intros [_ H].
  each_bit Hp; discriminate.
Qed.

Lemma byte_at_insert (b : list Z) j x i :
  byte_at (<[j := x]> b) i
  = if decide (j = i /\ j < length b) then x else byte_at b i.
Proof.
  unfold byte_at. rewrite list_lookup_insert. by case_decide.
Qed.

Lemma checkNullBit_clear_other w p pos :
  pos <> p -> checkNullBit (clearNullBit w p) pos = checkNullBit w pos.
Proof.
  intros Hne. unfold checkNullBit, clearNullBit, nullByteOffset. wsimpl.
  rewrite byte_at_insert. case_decide as Hsame; [|done].
  destruct Hsame as [Hbyte _].
  assert (Hs : Nat.shiftr p 3 = Nat.shiftr pos 3) by lia.
  rewrite <- Hs.
  rewrite bit_clear_other; [done|apply land7_lt|apply land7_lt|].
  intros Hbit. apply Hne. symmetry. by apply pos_of_byte_and_bit.
Qed.

Lemma checkNullBit_set_other w p pos :
  pos <> p -> checkNullBit (setNullBit w p) pos = checkNullBit w pos.
Proof.
  intros Hne. unfold checkNullBit, setNullBit, nullByteOffset. wsimpl.
  rewrite byte_at_insert. case_decide as Hsame; [|done].
  destruct Hsame as [Hbyte _].
  assert (Hs : Nat.shiftr p 3 = Nat.shiftr pos 3) by lia.
  rewrite <- Hs.
  rewrite bit_set_other; [done|apply land7_lt|apply land7_lt|].
  intros Hbit. apply Hne. symmetry. by apply pos_of_byte_and_bit.
Qed.

Lemma checkNullBit_clear_same w p :
  checkNullBit (clearNullBit w p) p = false.
Proof.
  unfold checkNullBit, clearNullBit, nullByteOffset. wsimpl.
  rewrite byte_at_insert. case_decide as Hsame.
  - rewrite bit_clear_same by apply land7_lt. reflexivity.
  - unfold byte_at. rewrite lookup_ge_None_2 by lia. reflexivity.
Qed.

Lemma checkNullBit_set_same w p :
  nullByteOffset w p < length (buf_ w) ->
  checkNullBit (setNullBit w p) p = true.
Proof.
  intros Hin. unfold checkNullBit, setNullBit. wsimpl.
  rewrite byte_at_insert. rewrite decide_True by done.
  apply negb_true_iff, Z.eqb_neq, bit_set_same, land7_lt.
Qed.

(** A flag read through two buffers that agree on the null bitmap. *)
Lemma checkNullBit_agree w w' pos :
  headerLen_ w' = headerLen_ w ->
  buf_ w' !! nullByteOffset w pos = buf_ w !! nullByteOffset w pos ->
  checkNullBit w' pos = checkNullBit w pos.
Proof.
  intros Hh Hb. unfold checkNullBit, nullByteOffset in *. wsimpl.
  unfold byte_at. by rewrite Hh, Hb.
Qed.

Lemma checkNullBit_in_buffer w p :
  checkNullBit w p = true -> nullByteOffset w p < length (buf_ w).
Proof.
  unfold checkNullBit. intros H.
  destruct (decide (nullByteOffset w p < length (buf_ w))) as [|Hout]; [done|].
  unfold byte_at in H at 1. rewrite lookup_ge_None_2 in H by lia.
  discriminate.
Qed.

(** Setting a null flag takes no flag back. *)
Lemma checkNullBit_set_mono w p q :
  checkNullBit w q = true -> checkNullBit (setNullBit w p) q = true.
Proof.
  intros Hq. destruct (decide (q = p)) as [->|Hne].
  - apply checkNullBit_set_same. by apply checkNullBit_in_buffer.
  - by rewrite checkNullBit_set_other.
Qed.

(** * What a call leaves alone *)

Lemma frame_refl index f w : frame index f w w.
Proof. by constructor. Qed.

Lemma frame_with_buf index f w w1 b :
  headerLen_ w + numNullBytes_ w <= length (buf_ w) ->
  frame index f w w1 ->
  length (buf_ w1) <= length b ->
  (forall i, i < length (buf_ w1) ->
     ~ (fieldOffset w f <= i < fieldOffset w f + f_size f) ->
     b !! i = buf_ w1 !! i) ->
  frame index f w (with_buf w1 b).
Proof.
  intros Hbase [Hh Hn Hf Hl Hb Hnull Hsl Hs Hstr Hlatch] Hlen Hagree.
  constructor; wsimpl; try done.
  - lia.
  - intros i Hi1 Hi2 Hslot. rewrite Hagree by (done || lia). by apply Hb.
  - intros pos Hpos Hne. rewrite <- (Hnull pos Hpos Hne).
    apply checkNullBit_agree; [done|]. wsimpl.
    apply Hagree; unfold nullByteOffset, fieldOffset; lia.
Qed.

Lemma frame_store index f w w1 off src :
  headerLen_ w + numNullBytes_ w <= length (buf_ w) ->
  frame index f w w1 ->
  fieldOffset w f <= off ->
  off + length src <= fieldOffset w f + f_size f ->
  frame index f w (store w1 off src).
Proof.
  intros Hbase Hfr Hlo Hhi. apply frame_with_buf; [done|done| |].
  - by rewrite length_inserts.
  - intros i Hi Hslot. destruct (decide (i < off)).
    + by apply list_lookup_inserts_lt.
    + apply list_lookup_inserts_ge. lia.
Qed.

Lemma frame_insert index f w w1 k x :
  headerLen_ w + numNullBytes_ w <= length (buf_ w) ->
  frame index f w w1 ->
  fieldOffset w f <= k < fieldOffset w f + f_size f ->
  frame index f w (with_buf w1 (<[k := x]> (buf_ w1))).
Proof.
  intros Hbase Hfr Hk. apply frame_with_buf; [done|done| |].
  - by rewrite length_insert.
  - intros i Hi Hslot. apply list_lookup_insert_ne. lia.
Qed.

Lemma frame_append index f w w1 t :
  headerLen_ w + numNullBytes_ w <= length (buf_ w) ->
  frame index f w w1 ->
  frame index f w (with_buf w1 (buf_ w1 ++ t)).
Proof.
  intros Hbase Hfr. apply frame_with_buf; [done|done| |].
  - rewrite length_app. lia.
  - intros i Hi _. by apply lookup_app_l.
Qed.

Lemma frame_with_isSet index f w w1 :
  frame index f w w1 ->
  frame index f w (with_isSet w1 (<[index := true]> (isSet_ w1))).
Proof.
  intros [Hh Hn Hf Hl Hb Hnull Hsl Hs Hstr Hlatch].
  constructor; wsimpl; try done.
  - by rewrite length_insert.
  - intros k Hk. rewrite list_lookup_insert_ne by done. by apply Hs.
Qed.

Lemma frame_latch index f w w1 (c : bool) :
  frame index f w w1 ->
  frame index f w (if c then with_outOfSpaceStr w1 true else w1).
Proof.
  intros Hfr. destruct c; [|done].
  destruct Hfr as [Hh Hn Hf Hl Hb Hnull Hsl Hs Hstr Hlatch].
  by constructor.
Qed.

Lemma frame_with_strList index f w w1 s :
  frame index f w w1 ->
  frame index f w (with_strList w1 (strList_ w1 ++ [s])).
Proof.
  intros [Hh Hn Hf Hl Hb Hnull Hsl Hs Hstr Hlatch].
  constructor; wsimpl; try done.
  by apply prefix_app_r.
Qed.

Lemma frame_with_approxStrLen index f w w1 n :
  frame index f w w1 -> frame index f w (with_approxStrLen w1 n).
Proof.
  intros [Hh Hn Hf Hl Hb Hnull Hsl Hs Hstr Hlatch]. by constructor.
Qed.

Lemma frame_clearNullBit index f w w1 :
  frame index f w w1 ->
  f_nullable f = true ->
  Nat.shiftr (f_nullFlagPos f) 3 < numNullBytes_ w ->
  frame index f w (clearNullBit w1 (f_nullFlagPos f)).
Proof.
  intros [Hh Hn Hf Hl Hb Hnull Hsl Hs Hstr Hlatch] Hnullable Hpos.
  constructor; unfold clearNullBit; wsimpl; try done.
  - rewrite length_insert. lia.
  - intros i Hi1 Hi2 Hslot.
    rewrite list_lookup_insert_ne by (unfold nullByteOffset; lia).
    by apply Hb.
  - intros pos Hp Hne. rewrite <- (Hnull pos Hp Hne).
    apply (checkNullBit_clear_other w1). by apply Hne.
Qed.

Lemma frame_setNullBit index f w w1 :
  frame index f w w1 ->
  f_nullable f = true ->
  Nat.shiftr (f_nullFlagPos f) 3 < numNullBytes_ w ->
  frame index f w (setNullBit w1 (f_nullFlagPos f)).
Proof.
  intros [Hh Hn Hf Hl Hb Hnull Hsl Hs Hstr Hlatch] Hnullable Hpos.
  constructor; unfold setNullBit; wsimpl; try done.
  - rewrite length_insert. lia.
  - intros i Hi1 Hi2 Hslot.
    rewrite list_lookup_insert_ne by (unfold nullByteOffset; lia).
    by apply Hb.
  - intros pos Hp Hne. rewrite <- (Hnull pos Hp Hne).
    apply (checkNullBit_set_other w1). by apply Hne.
Qed.

Lemma frame_succeed index f w w1 r w' :
  (f_nullable f = true -> Nat.shiftr (f_nullFlagPos f) 3 < numNullBytes_ w) ->
  frame index f w w1 ->
  succeed w1 f index = Ret (r, w') ->
  frame index f w w'.
Proof.
  intros Hpos Hfr. unfold succeed. intros [= <- <-].
  apply frame_with_isSet.
  destruct (f_nullable f) eqn:Hn; [|done].
  apply frame_clearNullBit; auto.
Qed.

(** * The typed writers, one field at a time *)

Lemma layout_frame schema index f w w' :
  layout schema w -> frame index f w w' -> layout schema w'.
Proof.
  intros [H1 H2 H3 H4] [Hh Hn Hf Hl Hb Hnull Hsl Hs Hstr Hlatch].
  constructor; lia.
Qed.

Lemma frame_trans index f w1 w2 w3 :
  frame index f w1 w2 -> frame index f w2 w3 -> frame index f w1 w3.
Proof.
  intros [Hh Hn Hf Hl Hb Hnull Hsl Hs Hstr Hlatch]
         [Hh' Hn' Hf' Hl' Hb' Hnull' Hsl' Hs' Hstr' Hlatch'].
  constructor; try lia; try congruence.
  - intros i Hi1 Hi2 Hslot. rewrite <- Hb by done.
    apply Hb'; unfold fieldOffset in *; try lia.
  - intros pos Hp Hne. rewrite <- Hnull by done.
    apply Hnull'; [lia|done].
  - intros k Hk. rewrite <- Hs by done. by apply Hs'.
  - by etrans.
  - auto.
Qed.

Lemma frame_append_eq index f w w1 b t :
  headerLen_ w + numNullBytes_ w <= length (buf_ w) ->
  frame index f w w1 ->
  b = buf_ w1 ++ t ->
  frame index f w (with_buf w1 b).
Proof. intros Hbase Hfr ->. by apply frame_append. Qed.

Lemma frame_with_buf_same index f w w1 b :
  frame index f w w1 -> b = buf_ w1 -> frame index f w (with_buf w1 b).
Proof.
  intros [Hh Hn Hf Hl Hb Hnull Hsl Hs Hstr Hlatch] ->. by constructor.
Qed.

Lemma frame_with_strList_eq index f w w1 l s :
  frame index f w w1 ->
  l = strList_ w1 ++ [s] ->
  frame index f w (with_strList w1 l).
Proof. intros Hfr ->. by apply frame_with_strList. Qed.

Lemma frame_latched index f w w1 :
  frame index f w w1 -> frame index f w (with_outOfSpaceStr w1 true).
Proof. apply (frame_latch index f w w1 true). Qed.

Lemma length_strncpy src len : length (strncpy src len) = len.
Proof.
  revert src. induction len as [|len IH]; intros src; [by destruct src|].
  destruct src as [|c src]; cbn [strncpy].
  - apply length_replicate.
  - destruct (c =? 0)%Z; [apply length_replicate|].
    cbn [length]. by rewrite IH.
Qed.

Lemma utf8CutSize_le v maxLen : utf8CutSize v maxLen <= maxLen.
Proof.
  induction maxLen as [|n IH]; simpl; [done|].
  destruct (_ =? _)%Z; lia.
Qed.

Section Frames.

Variable toTimestamp : Z -> option Z.
Variable binary32 : fpnum -> Z.
Variable binary64 : fpnum -> Z.
Variable Value_eq : Value -> Value -> bool.

Variable schema : Schema.
Hypothesis Hwf : wfLayout schema.

Variable w : RowWriterV2.
Hypothesis Hlay : layout schema w.

Variable index : nat.
Variable f : SchemaField.
Hypothesis Hfield : fields schema !! index = Some f.

Local Lemma base_le : headerLen_ w + numNullBytes_ w <= length (buf_ w).
Proof. destruct Hlay. lia. Qed.

Local Lemma nullpos_in :
  f_nullable f = true -> Nat.shiftr (f_nullFlagPos f) 3 < numNullBytes_ w.
Proof.
  intros Hn. destruct Hlay as [_ -> _ _]. by eapply wl_nullpos.
Qed.

Local Lemma width_le : minSlotSize (f_type f) <= f_size f.
Proof. by eapply wl_width. Qed.

Ltac frame_solve :=
  repeat first
    [ apply frame_refl
    | apply frame_store;
        [ exact base_le | | unfold fieldOffset; lia
        | rewrite ?length_le_bytes, ?length_replicate; unfold fieldOffset; lia ]
    | apply frame_insert; [ exact base_le | | unfold fieldOffset; lia ]
    | eapply frame_with_buf_same; [ | wsimpl; reflexivity ]
    | eapply frame_append_eq; [ exact base_le | | wsimpl; reflexivity ]
    | apply frame_latch
    | apply frame_latched
    | eapply frame_with_strList_eq; [ | wsimpl; reflexivity ]
    | apply frame_with_approxStrLen ].

Ltac frame_leaf H :=
  lazymatch type of H with
  | succeed _ _ _ = _ =>
      eapply frame_succeed; [ exact nullpos_in | | exact H ]; frame_solve
  | _ => injection H as <- <-; frame_solve
  end.

Lemma write_bool_frame v r w' :
  write_bool schema w index v = Ret (r, w') -> frame index f w w'.
Proof.
  unfold write_bool. rewrite Hfield. intros H.
  pose proof width_le as Hwidth.
  destruct (f_type f) eqn:Htype; simpl in Hwidth;
    try (injection H as <- <-; apply frame_refl);
    (eapply frame_succeed; [ exact nullpos_in | | exact H ]);
    (apply frame_with_buf; [exact base_le|apply frame_refl| |]);
    rewrite ?length_insert; try done;
    intros i Hi Hslot;
    rewrite ?list_lookup_insert_ne by (unfold fieldOffset in *; lia); done.
Qed.

Lemma write_int64_frame v r w' :
  write_int64 toTimestamp binary32 binary64 schema w index v = Ret (r, w') ->
  frame index f w w'.
Proof.
  unfold write_int64, storeNarrow. rewrite Hfield. cbv zeta. intros H.
  pose proof width_le as Hwidth.
  destruct (f_type f) eqn:Htype; simpl in Hwidth;
    repeat case_match; frame_leaf H.
Qed.

Lemma write_double_frame v r w' :
  write_double binary32 binary64 schema w index v = Ret (r, w') ->
  frame index f w w'.
Proof.
  unfold write_double, storeRounded. rewrite Hfield. cbv zeta. intros H.
  pose proof width_le as Hwidth.
  destruct (f_type f) eqn:Htype; simpl in Hwidth;
    repeat case_match; try discriminate; frame_leaf H.
Qed.

Lemma write_date_frame v r w' :
  write_date schema w index v = Ret (r, w') -> frame index f w w'.
Proof.
  unfold write_date. rewrite Hfield. cbv zeta. intros H.
  pose proof width_le as Hwidth.
  destruct (f_type f) eqn:Htype; simpl in Hwidth; frame_leaf H.
Qed.

Lemma write_time_frame v r w' :
  write_time schema w index v = Ret (r, w') -> frame index f w w'.
Proof.
  unfold write_time. rewrite Hfield. cbv zeta. intros H.
  pose proof width_le as Hwidth.
  destruct (f_type f) eqn:Htype; simpl in Hwidth; frame_leaf H.
Qed.

Lemma write_datetime_frame v r w' :
  write_datetime schema w index v = Ret (r, w') -> frame index f w w'.
Proof.
  unfold write_datetime. rewrite Hfield. cbv zeta. intros H.
  pose proof width_le as Hwidth.
  destruct (f_type f) eqn:Htype; simpl in Hwidth; frame_leaf H.
Qed.

Lemma write_duration_frame v r w' :
  write_duration schema w index v = Ret (r, w') -> frame index f w w'.
Proof.
  unfold write_duration. rewrite Hfield. cbv zeta. intros H.
  pose proof width_le as Hwidth.
  destruct (f_type f) eqn:Htype; simpl in Hwidth; frame_leaf H.
Qed.

Lemma write_string_frame v isWKB r w' :
  write_string schema w index v isWKB = Ret (r, w') -> frame index f w w'.
Proof.
  unfold write_string. rewrite Hfield. cbv zeta. intros H.
  pose proof width_le as Hwidth.
  pose proof (utf8CutSize_le v (f_size f)) as Hcut.
  destruct (f_type f) eqn:Htype; simpl in Hwidth;
    try (injection H as <- <-; apply frame_refl).
  - (* STRING *)
    repeat case_match; try discriminate; simplify_eq;
      first [ apply frame_refl | frame_leaf H ].
  - (* FIXED_STRING *)
    destruct (Nat.ltb_spec (f_size f) (length v));
      repeat case_match;
      (eapply frame_succeed; [ exact nullpos_in | | exact H ]);
      repeat (apply frame_store;
                [ exact base_le | | unfold fieldOffset; lia
                | rewrite ?length_strncpy, ?length_replicate;
                  unfold fieldOffset; lia ]);
      apply frame_refl.
  - (* GEOGRAPHY *)
    repeat case_match; try discriminate; simplify_eq;
      first [ apply frame_refl | frame_leaf H ].
Qed.

Lemma write_geography_frame v r w' :
  write_geography schema w index v = Ret (r, w') -> frame index f w w'.
Proof.
  unfold write_geography. rewrite Hfield. intros H.
  destruct (_ && _).
  - injection H as <- <-. apply frame_refl.
  - by eapply write_string_frame.
Qed.

Lemma write_list_frame v r w' :
  write_list binary32 schema w index v = Ret (r, w') -> frame index f w w'.
Proof.
  unfold write_list. rewrite Hfield. cbv zeta. intros H.
  pose proof width_le as Hwidth.
  destruct (listElemType (f_type f)) as [vt|] eqn:Hvt.
  - assert (Hsize : 4 <= f_size f)
      by (destruct (f_type f); simplify_eq/=; lia).
    destruct (writeList _ _ _ _) as [[r1 b]|] eqn:Hw; [|discriminate].
    apply writeList_result in Hw; [|by eapply listElemType_scalar].
    destruct Hw as [(-> & -> & _)|(-> & ->)].
    + injection H as <- <-. wsimpl. frame_solve.
    + frame_leaf H.
  - injection H as <- <-. frame_solve.
Qed.

Lemma write_set_frame v r w' :
  write_set binary32 Value_eq schema w index v = Ret (r, w') ->
  frame index f w w'.
Proof.
  unfold write_set. rewrite Hfield. cbv zeta. intros H.
  pose proof width_le as Hwidth.
  destruct (setElemType (f_type f)) as [vt|] eqn:Hvt.
  - assert (Hsize : 4 <= f_size f)
      by (destruct (f_type f); simplify_eq/=; lia).
    destruct (writeSet _ _ _ _ _) as [[r1 b]|] eqn:Hw; [|discriminate].
    apply writeSet_result in Hw; [|by eapply setElemType_scalar].
    destruct Hw as [(-> & -> & _)|(-> & ->)].
    + injection H as <- <-. wsimpl. frame_solve.
    + frame_leaf H.
  - injection H as <- <-. frame_solve.
Qed.

Lemma writeValue_frame v r w' :
  writeValue toTimestamp binary32 binary64 Value_eq schema w index v
  = Some (Ret (r, w')) ->
  frame index f w w'.
Proof.
  destruct v; simpl; intros [= H];
    eauto using write_bool_frame, write_int64_frame, write_double_frame,
      write_string_frame, write_date_frame, write_time_frame,
      write_datetime_frame, write_geography_frame, write_duration_frame,
      write_list_frame, write_set_frame.
Qed.

End Frames.

(** * Strings under calls on other fields *)

Lemma appended_refl w : appended w w.
Proof.
  exists false, []. destruct w. unfold with_buf. simpl. by rewrite app_nil_r.
Qed.

Lemma appended_frame index f w w' :
  headerLen_ w + numNullBytes_ w <= length (buf_ w) ->
  appended w w' -> frame index f w w'.
Proof.
  intros Hbase (c & t & ->).
  eapply frame_append_eq; [done| |by destruct c].
  apply frame_latch, frame_refl.
Qed.

Lemma appended_isSet w w' : appended w w' -> isSet_ w' = isSet_ w.
Proof. intros (c & t & ->). by destruct c. Qed.

Lemma appended_strList w w' : appended w w' -> strList_ w' = strList_ w.
Proof. intros (c & t & ->). by destruct c. Qed.

Lemma appended_buf w w' : appended w w' -> exists t, buf_ w' = buf_ w ++ t.
Proof. intros (c & t & ->). exists t. by destruct c. Qed.

Lemma appended_dims w w' :
  appended w w' ->
  headerLen_ w' = headerLen_ w /\ numNullBytes_ w' = numNullBytes_ w.
Proof. intros (c & t & ->). by destruct c. Qed.

Lemma appended_latch w w' :
  appended w w' -> outOfSpaceStr_ w = true -> outOfSpaceStr_ w' = true.
Proof. intros (c & t & ->). by destruct c. Qed.

(** A slice read through two buffers that agree on it. *)
Lemma slice_ext (b b' : list Z) off n :
  (forall i, off <= i < off + n -> b' !! i = b !! i) ->
  slice off n b' = slice off n b.
Proof.
  intros H. apply list_eq. intros i. rewrite !lookup_slice.
  case_decide; [|done]. apply H. lia.
Qed.

Section StringsKept.

Variable schema : Schema.
Hypothesis Hwf : wfLayout schema.

(** The slot of another field is untouched by a call on [f]. *)
Lemma frame_slot index f g j w w' n :
  layout schema w ->
  frame index f w w' ->
  fields schema !! index = Some f -> fields schema !! j = Some g ->
  j <> index -> n <= f_size g ->
  forall k, k + n <= f_size g ->
  slice (fieldOffset w' g + k) n (buf_ w')
  = slice (fieldOffset w g + k) n (buf_ w).
Proof.
  intros [H1 H2 H3 H4] Hfr Hf Hg Hne Hn k Hk.
  pose proof (wl_inside _ Hwf _ _ Hg) as Hin.
  pose proof (wl_disjoint _ Hwf _ _ _ _ Hne Hg Hf) as Hdis.
  destruct Hfr as [Hh Hnb Hfin Hl Hb Hnull Hsl Hs Hstr Hlatch].
  unfold fieldOffset in *. rewrite Hh, Hnb.
  apply slice_ext. intros i Hi. apply Hb; lia.
Qed.

(** The slot of [g] still refers to [s] after a call on another field. *)
Lemma liveString_frame index f g j w w' s :
  layout schema w ->
  frame index f w w' ->
  fields schema !! index = Some f -> fields schema !! j = Some g ->
  j <> index -> isStringType (f_type g) = true ->
  liveString schema w g s -> liveString schema w' g s.
Proof.
  intros Hlay Hfr Hf Hg Hne Hstr.
  pose proof (wl_width _ Hwf _ _ Hg) as Hwidth.
  assert (Hsize : 8 <= f_size g)
    by (destruct (f_type g); simplify_eq/=; lia).
  pose proof (frame_slot index f g j w w' 4 Hlay Hfr Hf Hg Hne
                ltac:(lia) 0 ltac:(lia)) as Hoff.
  pose proof (frame_slot index f g j w w' 4 Hlay Hfr Hf Hg Hne
                ltac:(lia) 4 ltac:(lia)) as Hlen.
  rewrite !Nat.add_0_r in Hoff.
  unfold liveString. rewrite !load_int32_slice.
  assert (Hfo : fieldOffset w' g = fieldOffset w g).
  { destruct Hfr. unfold fieldOffset. lia. }
  rewrite Hoff, Hlen.
  set (off := le_signed (slice (fieldOffset w g) 4 (buf_ w))).
  set (len := le_signed (slice (fieldOffset w g + 4) 4 (buf_ w))).
  intros [Hlen0 Hcases]. split; [done|].
  pose proof (wl_inside _ Hwf _ _ Hf) as Hin.
  destruct Hlay as [H1 H2 H3 H4].
  destruct Hfr as [Hh Hnb Hfin Hl Hb Hnull Hsl Hs Hpre Hlatch].
  destruct Hcases as [(Hpos & Hlo & Hhi & Hbytes)|(Hzero & Ho & Hlook)].
  - left. unfold fixedEnd in *. rewrite Hh, Hnb.
    repeat split; try lia.
    rewrite <- Hbytes. apply slice_ext. intros i Hi.
    apply Hb; unfold fieldOffset; lia.
  - right. repeat split; auto.
    by eapply prefix_lookup_Some.
Qed.

End StringsKept.

(** * Writing a string *)

Lemma liveString_appended schema g j w w' s :
  wfLayout schema -> layout schema w ->
  appended w w' ->
  fields schema !! j = Some g -> isStringType (f_type g) = true ->
  liveString schema w g s -> liveString schema w' g s.
Proof.
  intros Hwf [H1 H2 H3 H4] Happ Hg Hstr.
  pose proof (wl_width _ Hwf _ _ Hg) as Hwidth.
  pose proof (wl_inside _ Hwf _ _ Hg) as Hin.
  assert (Hsize : 8 <= f_size g)
    by (destruct (f_type g); simplify_eq/=; lia).
  destruct (appended_buf _ _ Happ) as [t Hbuf].
  destruct (appended_dims _ _ Happ) as [Hh Hnb].
  unfold liveString, fixedEnd, fieldOffset. rewrite !load_int32_slice.
  rewrite Hh, Hnb, Hbuf, (appended_strList _ _ Happ).
  rewrite !slice_app_l by lia.
  intros [Hlen0 Hcases]. split; [done|].
  destruct Hcases as [(Hpos & Hlo & Hhi & Hbytes)|(Hzero & Ho & Hlook)].
  - left. rewrite length_app. repeat split; try lia.
    rewrite slice_app_l by lia. exact Hbytes.
  - right. repeat split; auto. by eapply appended_latch.
Qed.

Lemma slice_inserts_same_n (b src : list Z) off n :
  length src = n -> off + n <= length b ->
  slice off n (list_inserts off src b) = src.
Proof. intros <- H. by apply slice_inserts_same. Qed.

Lemma succeed_null w field index r w' :
  succeed w field index = Ret (r, w') ->
  f_nullable field = true ->
  checkNullBit w' (f_nullFlagPos field) = false.
Proof.
  unfold succeed. intros [= <- <-] ->.
  apply (checkNullBit_clear_same w).
Qed.

Section WriteString.

Variable schema : Schema.
Hypothesis Hwf : wfLayout schema.
Variable w : RowWriterV2.
Hypothesis Hlay : layout schema w.
Variable index : nat.
Variable f : SchemaField.
Hypothesis Hfield : fields schema !! index = Some f.
Hypothesis Hstring : isStringType (f_type f) = true.

Local Lemma slot_facts :
  8 <= f_size f /\ f_offset f + f_size f <= size schema /\
  index < length (isSet_ w) /\
  (f_nullable f = true -> Nat.shiftr (f_nullFlagPos f) 3 < numNullBytes_ w).
Proof.
  pose proof (wl_width _ Hwf _ _ Hfield) as Hwidth.
  pose proof (wl_inside _ Hwf _ _ Hfield) as Hin.
  destruct Hlay as [H1 H2 H3 H4].
  split; [destruct (f_type f); simplify_eq/=; lia|]. split; [done|].
  split.
  - rewrite H4. by eapply lookup_lt_Some.
  - intros Hn. rewrite H2. by eapply wl_nullpos.
Qed.

(** The two stores into the slot, read back. *)
Lemma slot_after_stores (b : list Z) off x y :
  off + 8 <= length b ->
  let b' := list_inserts (off + 4) (le_bytes 4 y)
              (list_inserts off (le_bytes 4 x) b) in
  load_int32 b' off = int32 x /\ load_int32 b' (off + 4) = int32 y /\
  length b' = length b /\
  forall i, off + 8 <= i -> b' !! i = b !! i.
Proof.
  intros Hlen b'. subst b'. split; [|split; [|split]].
  - apply load_int32_stored.
    rewrite slice_inserts_outside by (rewrite length_le_bytes; lia).
    apply slice_inserts_same_n; [apply length_le_bytes|lia].
  - apply load_int32_stored.
    apply slice_inserts_same_n; [apply length_le_bytes|].
    rewrite length_inserts. lia.
  - by rewrite !length_inserts.
  - intros i Hi.
    rewrite !list_lookup_inserts_ge by (rewrite length_le_bytes; lia). done.
Qed.

Lemma write_string_live v isWKB w' :
  (Z.of_nat (length v) < 2 ^ 31)%Z ->
  write_string schema w index v isWKB = Ret (SUCCEEDED, w') ->
  fitsInt32 w' ->
  liveString schema w' f v /\ isSetAt w' index = true /\
  (f_nullable f = true -> checkNullBit w' (f_nullFlagPos f) = false).
Proof.
  intros Hshort Hwrite [Hfit1 Hfit2].
  destruct slot_facts as (Hsize & Hin & Hidx & Hnull).
  destruct Hlay as [H1 H2 H3 H4].
  unfold write_string in Hwrite. rewrite Hfield in Hwrite.
  set (w1 := if isSetAt w index then with_outOfSpaceStr w true else w)
    in Hwrite.
  assert (Hb1 : buf_ w1 = buf_ w) by (subst w1; by destruct (isSetAt w index)).
  assert (Hh1 : headerLen_ w1 = headerLen_ w)
    by (subst w1; by destruct (isSetAt w index)).
  assert (Hn1 : numNullBytes_ w1 = numNullBytes_ w)
    by (subst w1; by destruct (isSetAt w index)).
  assert (Hs1 : isSet_ w1 = isSet_ w)
    by (subst w1; by destruct (isSetAt w index)).
  assert (Hl1 : strList_ w1 = strList_ w)
    by (subst w1; by destruct (isSetAt w index)).
  assert (Hvar :
    match
      (if outOfSpaceStr_ w1
       then Ret (with_strList w1 (strList_ w1 ++ [v]), 0%Z,
                 int32 (Z.of_nat (length (strList_ (with_strList w1
                                     (strList_ w1 ++ [v])))) - 1))
       else if (int32 (Z.of_nat (length v)) <? 0)%Z then Abort Fatal
            else Ret (with_buf w1 (buf_ w1
                        ++ take (Z.to_nat (int32 (Z.of_nat (length v)))) v),
                      int32 (Z.of_nat (length (buf_ w1))),
                      int32 (Z.of_nat (length v))))
    with
    | Abort e => Abort e
    | Ret (w3, strOffset, strLen) =>
        succeed
          (with_approxStrLen
             (store (store w3 (fieldOffset w f) (le_bytes 4 strOffset))
                    (fieldOffset w f + 4) (le_bytes 4 strLen))
             (wrap64 (approxStrLen_
                        (store (store w3 (fieldOffset w f)
                                  (le_bytes 4 strOffset))
                               (fieldOffset w f + 4) (le_bytes 4 strLen))
                      + Z.of_nat (length v))))
          f index
    end = Ret (SUCCEEDED, w')).
  { destruct (f_type f); try discriminate; [exact Hwrite|].
    destruct (negb isWKB); [discriminate|exact Hwrite]. }
  clear Hwrite.
  assert (Hslot : fieldOffset w f + 8 <= length (buf_ w))
    by (unfold fieldOffset; lia).
  assert (Hslot_end : fieldOffset w f + 8 <= fixedEnd schema w)
    by (unfold fieldOffset, fixedEnd; lia).
  rewrite (int32_small (Z.of_nat (length v))) in Hvar by lia.
  destruct (Z.ltb_spec (Z.of_nat (length v)) 0); [lia|].
  rewrite Nat2Z.id, firstn_all in Hvar.
  destruct (outOfSpaceStr_ w1) eqn:Hoos.
  - (* out of space *)
    match type of Hvar with
    | succeed ?w5 _ _ = _ =>
        destruct (succeed_above w5 f index)
          as (w'' & Hret & Hh & Hnb & Hl & Habove & Hset & Hlatch & Hlist)
    end.
    { wsimpl. by rewrite Hn1. }
    pose proof (succeed_null _ _ _ _ _ Hvar) as Hcleared.
    rewrite Hret in Hvar. injection Hvar as <-. wsimpl.
    rewrite Hb1, Hh1, Hn1, Hs1, Hl1 in *.
    destruct (slot_after_stores (buf_ w) (fieldOffset w f) 0
                (int32 (Z.of_nat (length (strList_ w ++ [v])) - 1)) Hslot)
      as (Hoff & Hlen & Hlength & Hrest).
    assert (Hidxv : int32 (int32 (Z.of_nat (length (strList_ w ++ [v])) - 1))
                    = Z.of_nat (length (strList_ w))).
    { rewrite int32_idemp. rewrite Hlist, length_app in *. simpl in *.
      rewrite int32_small; lia. }
    split; [|split].
    + unfold liveString, fieldOffset. rewrite Hh, Hnb.
      fold (fieldOffset w f). rewrite !load_int32_slice.
      rewrite (slice_agree _ _ (fieldOffset w f) _ _ Habove)
        by (unfold fieldOffset; lia).
      rewrite (slice_agree _ _ (fieldOffset w f + 4) _ _ Habove)
        by (unfold fieldOffset; lia).
      rewrite <- !load_int32_slice, Hoff, Hlen, Hidxv.
      split; [lia|]. right. split; [reflexivity|].
      rewrite Hlatch, Hlist, Nat2Z.id. split; [done|].
      by rewrite lookup_app_r, Nat.sub_diag.
    + unfold isSetAt. rewrite Hset. by rewrite list_lookup_insert_eq.
    + exact Hcleared.
  - (* appended to the buffer *)
    match type of Hvar with
    | succeed ?w5 _ _ = _ =>
        destruct (succeed_above w5 f index)
          as (w'' & Hret & Hh & Hnb & Hl & Habove & Hset & Hlatch & Hlist)
    end.
    { wsimpl. by rewrite Hn1. }
    pose proof (succeed_null _ _ _ _ _ Hvar) as Hcleared.
    rewrite Hret in Hvar. injection Hvar as <-. wsimpl.
    rewrite Hb1, Hh1, Hn1, Hs1, Hl1 in *.
    assert (Hslot' : fieldOffset w f + 8 <= length (buf_ w ++ v))
      by (rewrite length_app; lia).
    destruct (slot_after_stores (buf_ w ++ v) (fieldOffset w f)
                (int32 (Z.of_nat (length (buf_ w))))
                (Z.of_nat (length v)) Hslot')
      as (Hoff & Hlen & Hlength & Hrest).
    rewrite Hlength, length_app in Hl.
    split; [|split].
    + unfold liveString, fieldOffset, fixedEnd. rewrite Hh, Hnb.
      fold (fieldOffset w f). rewrite !load_int32_slice.
      rewrite (slice_agree _ _ (fieldOffset w f) _ _ Habove)
        by (unfold fieldOffset; lia).
      rewrite (slice_agree _ _ (fieldOffset w f + 4) _ _ Habove)
        by (unfold fieldOffset; lia).
      rewrite <- !load_int32_slice, Hoff, Hlen.
      rewrite int32_idemp, !int32_small by lia.
      split; [lia|]. left. rewrite Hl, !Nat2Z.id.
      repeat split; try lia.
      rewrite (slice_agree _ _ _ _ _ Habove) by lia.
      erewrite slice_ext; [apply slice_app_r|].
      intros i Hi. apply Hrest. unfold fixedEnd in *. lia.
    + unfold isSetAt. rewrite Hset. by rewrite list_lookup_insert_eq.
    + exact Hcleared.
Qed.

End WriteString.

(** * One call and the record of last strings *)

Lemma appended_nullbit w w' pos :
  nullByteOffset w pos < length (buf_ w) ->
  appended w w' -> checkNullBit w' pos = checkNullBit w pos.
Proof.
  intros Hin Happ. destruct (appended_dims _ _ Happ) as [Hh _].
  destruct (appended_buf _ _ Happ) as [t Hb].
  apply checkNullBit_agree; [done|]. rewrite Hb. by apply lookup_app_l.
Qed.

Lemma liveString_setNullBit schema w g j pos s :
  wfLayout schema -> layout schema w ->
  fields schema !! j = Some g -> isStringType (f_type g) = true ->
  Nat.shiftr pos 3 < numNullBytes_ w ->
  liveString schema w g s -> liveString schema (setNullBit w pos) g s.
Proof.
  intros Hwf [H1 H2 H3 H4] Hg Hstr Hpos.
  unfold liveString, fixedEnd, fieldOffset. rewrite !load_int32_slice.
  cbn [buf_ headerLen_ numNullBytes_ outOfSpaceStr_ strList_ setNullBit
       with_buf].
  rewrite length_insert.
  rewrite !(slice_insert_outside (buf_ w)) by (unfold nullByteOffset; lia).
  intros [Hlen0 Hcases]. split; [done|].
  destruct Hcases as [(Hp & Hlo & Hhi & Hbytes)|Hout]; [left|by right].
  repeat split; try done.
  rewrite slice_insert_outside; [done|].
  unfold nullByteOffset. lia.
Qed.

Lemma stringsRecorded_ext schema w last last' :
  (forall i f, fields schema !! i = Some f ->
     isStringType (f_type f) = true -> last' i = last i) ->
  stringsRecorded schema w last -> stringsRecorded schema w last'.
Proof.
  intros Heq Hrec i f Hf Hs. rewrite (Heq i f Hf Hs). by apply Hrec.
Qed.

Section OnStringField.

Variable toTimestamp : Z -> option Z.
Variable binary32 : fpnum -> Z.
Variable binary64 : fpnum -> Z.
Variable Value_eq : Value -> Value -> bool.

Variable schema : Schema.
Variable w : RowWriterV2.
Variable index : nat.
Variable f : SchemaField.
Hypothesis Hfield : fields schema !! index = Some f.
Hypothesis Hstring : isStringType (f_type f) = true.

Ltac refused H :=
  rewrite Hfield in H;
  destruct (f_type f); try discriminate;
  injection H as <- <-; (split; [discriminate|apply appended_refl]).

Lemma write_string_refused v isWKB r w' :
  write_string schema w index v isWKB = Ret (r, w') ->
  r = SUCCEEDED \/ (r <> SUCCEEDED /\ appended w w').
Proof.
  unfold write_string. rewrite Hfield. cbv zeta. intros H.
  destruct (f_type f); try discriminate;
    repeat case_match; try discriminate; simplify_eq;
    first [ right; split; [discriminate|apply appended_refl]
          | left; unfold succeed in H; congruence ].
Qed.

Lemma writeValue_string_field v r w' :
  writeValue toTimestamp binary32 binary64 Value_eq schema w index v
  = Some (Ret (r, w')) ->
  (r = SUCCEEDED /\
   exists s isWKB, stringOf v = Some s /\
     write_string schema w index s isWKB = Ret (SUCCEEDED, w')) \/
  (r <> SUCCEEDED /\ appended w w').
Proof.
  destruct v; simpl; intros [= H]; try discriminate.
  - right. unfold write_bool in H. refused H.
  - right. unfold write_int64 in H. refused H.
  - right. unfold write_double in H. refused H.
  - destruct (write_string_refused _ _ _ _ H) as [-> | Hno]; [left|by right].
    split; [done|]. by exists s, false.
  - right. unfold write_date in H. refused H.
  - right. unfold write_time in H. refused H.
  - right. unfold write_datetime in H. refused H.
  - unfold write_geography in H. rewrite Hfield in H.
    destruct (_ && _).
    + right. injection H as <- <-. split; [discriminate|apply appended_refl].
    + destruct (write_string_refused _ _ _ _ H) as [-> | Hno];
        [left|by right].
      split; [done|]. by exists (asWKB g), true.
  - right. unfold write_duration in H. refused H.
  - right. unfold write_list in H. rewrite Hfield in H.
    destruct (f_type f); try discriminate; simpl in H;
      injection H as <- <-; (split; [discriminate|]);
      (destruct (isSetAt w index);
       [by exists true; eexists|by exists false; eexists]).
  - right. unfold write_set in H. rewrite Hfield in H.
    destruct (f_type f); try discriminate; simpl in H;
      injection H as <- <-; (split; [discriminate|]);
      (destruct (isSetAt w index);
       [by exists true; eexists|by exists false; eexists]).
Qed.

End OnStringField.

Lemma noteWrite_other last index v r k :
  k <> index -> noteWrite last index v r k = last k.
Proof.
  intros Hk. unfold noteWrite. destruct r, (stringOf v); try done.
  by rewrite decide_False.
Qed.

Lemma noteWrite_failed last index v r :
  r <> SUCCEEDED -> noteWrite last index v r = last.
Proof. intros Hr. unfold noteWrite. by destruct r. Qed.

Lemma noteWrite_string last index v s :
  stringOf v = Some s -> noteWrite last index v SUCCEEDED index = Some s.
Proof. intros Hs. unfold noteWrite. rewrite Hs. by rewrite decide_True. Qed.

Lemma isSetAt_frame index f w w' k :
  frame index f w w' -> k <> index -> isSetAt w' k = isSetAt w k.
Proof. intros Hfr Hk. unfold isSetAt. by rewrite (fr_isSet _ _ _ _ Hfr). Qed.

Section Steps.

Variable toTimestamp : Z -> option Z.
Variable binary32 : fpnum -> Z.
Variable binary64 : fpnum -> Z.
Variable Value_eq : Value -> Value -> bool.

Variable schema : Schema.
Hypothesis Hwf : wfLayout schema.

(** The record is kept for every field but the one a call works on. *)
Lemma recorded_elsewhere w w' last index f i g :
  layout schema w ->
  frame index f w w' ->
  fields schema !! index = Some f -> fields schema !! i = Some g ->
  i <> index -> isStringType (f_type g) = true ->
  match last i with
  | Some s => isSetAt w i = true /\ liveString schema w g s
  | None => isSetAt w i = false \/
            (f_nullable g = true /\ checkNullBit w (f_nullFlagPos g) = true)
  end ->
  match last i with
  | Some s => isSetAt w' i = true /\ liveString schema w' g s
  | None => isSetAt w' i = false \/
            (f_nullable g = true /\ checkNullBit w' (f_nullFlagPos g) = true)
  end.
Proof.
  intros Hlay Hfr Hf Hg Hne Hs.
  rewrite (isSetAt_frame _ _ _ _ _ Hfr Hne).
  destruct (last i) as [s|].
  - intros [Hset Hlive]. split; [done|].
    by eapply liveString_frame.
  - intros [Hunset|[Hn Hbit]]; [by left|right]. split; [done|].
    rewrite (fr_nullbits _ _ _ _ Hfr); [done| |].
    + destruct Hlay as [_ -> _ _]. by eapply wl_nullpos.
    + intros Hfn. by eapply (wl_nullpos_unique _ Hwf i index).
Qed.

Lemma nullByte_in_buffer w g i :
  layout schema w -> fields schema !! i = Some g -> f_nullable g = true ->
  nullByteOffset w (f_nullFlagPos g) < length (buf_ w).
Proof.
  intros [H1 H2 H3 H4] Hg Hn.
  pose proof (wl_nullpos _ Hwf _ _ Hg Hn). unfold nullByteOffset. lia.
Qed.

Lemma writeValue_recorded w last index f v r w' :
  layout schema w ->
  fields schema !! index = Some f ->
  valueFits v ->
  writeValue toTimestamp binary32 binary64 Value_eq schema w index v
  = Some (Ret (r, w')) ->
  frame index f w w' /\ layout schema w' /\
  (stringsRecorded schema w last -> fitsInt32 w' ->
   stringsRecorded schema w' (noteWrite last index v r)).
Proof.
  intros Hlay Hf Hfits Hw.
  assert (Hfr : frame index f w w') by by eapply writeValue_frame.
  split; [done|]. split; [by eapply layout_frame|].
  intros Hrec Hsmall i g Hg Hs. destruct (decide (i = index)) as [->|Hne].
  - assert (g = f) as -> by congruence.
    destruct (writeValue_string_field _ _ _ _ _ _ _ _ Hf Hs _ _ _ Hw)
      as [(-> & s & isWKB & Hstr & Hwrite)|(Hr & Happ)].
    + rewrite (noteWrite_string _ _ _ _ Hstr).
      unfold valueFits in Hfits. rewrite Hstr in Hfits.
      destruct (write_string_live schema Hwf w Hlay index f Hf Hs s isWKB w'
                  Hfits Hwrite Hsmall) as (Hlive & Hset & _).
      done.
    + rewrite (noteWrite_failed _ _ _ _ Hr).
      specialize (Hrec index f Hf Hs).
      unfold isSetAt in *. rewrite (appended_isSet _ _ Happ).
      destruct (last index) as [s|].
      * destruct Hrec as [Hset Hlive]. split; [done|].
        by eapply liveString_appended.
      * destruct Hrec as [Hunset|[Hn Hbit]]; [by left|right].
        split; [done|]. rewrite (appended_nullbit w); [done| |done].
        by eapply nullByte_in_buffer.
  - rewrite noteWrite_other by done.
    apply (recorded_elsewhere w w' last index f i g); auto.
    by apply Hrec.
Qed.

(** Setting the null flag of a nullable field, with or without marking
    the field as set. *)
Lemma setNullBit_recorded w last index f (mark : bool) :
  layout schema w ->
  fields schema !! index = Some f ->
  f_nullable f = true ->
  let w1 := setNullBit w (f_nullFlagPos f) in
  let w' := with_isSet w1 (if mark then <[index := true]> (isSet_ w1)
                           else isSet_ w1) in
  frame index f w w' /\ layout schema w' /\
  checkNullBit w' (f_nullFlagPos f) = true /\
  (stringsRecorded schema w last -> stringsRecorded schema w' last).
Proof.
  intros Hlay Hf Hn w1 w'.
  assert (Hpos : Nat.shiftr (f_nullFlagPos f) 3 < numNullBytes_ w).
  { destruct Hlay as [_ -> _ _]. by eapply wl_nullpos. }
  assert (Hfr : frame index f w w').
  { subst w' w1. destruct mark.
    - apply frame_with_isSet, frame_setNullBit; auto using frame_refl.
    - assert (Hfr1 : frame index f w (setNullBit w (f_nullFlagPos f)))
        by (apply frame_setNullBit; auto using frame_refl).
      destruct Hfr1. by constructor. }
  assert (Hbit : checkNullBit w' (f_nullFlagPos f) = true).
  { apply (checkNullBit_set_same w). by eapply nullByte_in_buffer. }
  split; [done|]. split; [by eapply layout_frame|]. split; [done|].
  intros Hrec i g Hg Hs. destruct (decide (i = index)) as [->|Hne].
  - assert (g = f) as -> by congruence.
    specialize (Hrec index f Hf Hs).
    destruct (last index) as [s|].
    + destruct Hrec as [Hset Hlive]. split.
      * subst w' w1. unfold isSetAt in *. wsimpl. destruct mark; [|done].
        apply lookup_lt_Some in Hf. destruct Hlay as [_ _ _ Hl].
        unfold setNullBit. wsimpl.
        rewrite list_lookup_insert_eq; [done|].
        unfold getNumFields in Hl. lia.
      * by apply (liveString_setNullBit schema w f index).
    + by right.
  - apply (recorded_elsewhere w w' last index f i g); auto.
    by apply Hrec.
Qed.

End Steps.

(** * Sequences of calls *)

Lemma fitsInt32_frame index f w w' :
  frame index f w w' -> fitsInt32 w' -> fitsInt32 w.
Proof.
  intros Hfr [H1 H2]. pose proof (fr_length _ _ _ _ Hfr).
  pose proof (prefix_length _ _ (fr_strList _ _ _ _ Hfr)).
  split; lia.
Qed.

Lemma noteWrite_nostring last index v r :
  stringOf v = None -> noteWrite last index v r = last.
Proof. intros Hs. unfold noteWrite. rewrite Hs. by destruct r. Qed.

Section CallSequences.

Variable toTimestamp : Z -> option Z.
Variable binary32 : fpnum -> Z.
Variable binary64 : fpnum -> Z.
Variable Value_eq : Value -> Value -> bool.

Variable schema : Schema.
Hypothesis Hwf : wfLayout schema.

Lemma setNull_recorded w last index r w' :
  layout schema w ->
  setNull schema w index = Ret (r, w') ->
  layout schema w' /\ (fitsInt32 w' -> fitsInt32 w) /\
  (stringsRecorded schema w last -> stringsRecorded schema w' last).
Proof.
  intros Hlay. unfold setNull.
  destruct (finished_ w); [discriminate|].
  destruct (_ || _); [by intros [= <- <-]|].
  destruct (fields schema !! Z.to_nat index) as [f|] eqn:Hf; [|discriminate].
  destruct (f_nullable f) eqn:Hn; simpl; [|by intros [= <- <-]].
  intros [= <- <-].
  destruct (setNullBit_recorded schema Hwf w last (Z.to_nat index) f true
              Hlay Hf Hn) as (Hfr & Hlay' & _ & Hrec').
  split; [done|]. split; [|done]. by eapply fitsInt32_frame.
Qed.

Lemma perform_recorded w last c r w' :
  layout schema w ->
  callFits c ->
  perform toTimestamp binary32 binary64 Value_eq schema w c = Ret (r, w') ->
  layout schema w' /\ (fitsInt32 w' -> fitsInt32 w) /\
  (stringsRecorded schema w last -> fitsInt32 w' ->
   stringsRecorded schema w' (noteCall last c r)).
Proof.
  intros Hlay Hfits Hp. destruct c as [index val|index]; simpl in *.
  - unfold setValue in Hp.
    destruct (finished_ w); [discriminate|].
    destruct (_ || _) eqn:Hrange.
    { injection Hp as <- <-. by rewrite noteWrite_failed. }
    apply orb_false_iff in Hrange as [Hlo Hhi].
    apply Z.ltb_ge in Hlo. apply Z.leb_gt in Hhi.
    assert (Hidx : Z.to_nat index < length (fields schema))
      by (unfold getNumFields in Hhi; lia).
    destruct (lookup_lt_is_Some_2 _ _ Hidx) as [f Hf].
    assert (Hcases :
      (w' = w /\ noteWrite last (Z.to_nat index) val r = last) \/
      (exists bad, val = Null bad /\ setNull schema w index = Ret (r, w')) \/
      writeValue toTimestamp binary32 binary64 Value_eq schema w
        (Z.to_nat index) val = Some (Ret (r, w'))).
    { destruct val; simpl in Hp |- *;
        try (right; right; by f_equal);
        try (left; injection Hp as <- <-; by rewrite noteWrite_failed).
      destruct bad.
      - left. injection Hp as <- <-. by rewrite noteWrite_failed.
      - right. left. by exists false. }
    destruct Hcases as [[-> ->]|[(bad & -> & Hnull)|Hw]].
    + done.
    + rewrite noteWrite_nostring by done.
      destruct (setNull_recorded _ last _ _ _ Hlay Hnull) as (? & ? & ?).
      auto.
    + destruct (writeValue_recorded toTimestamp binary32 binary64 Value_eq
                  schema Hwf w last _ f val r w' Hlay Hf Hfits Hw)
        as (Hfr & Hlay' & Hrec').
      split; [done|]. split; [|done]. by eapply fitsInt32_frame.
  - destruct (setNull_recorded _ last _ _ _ Hlay Hp) as (? & ? & ?). auto.
Qed.

Lemma performAll_recorded calls w last w' last' :
  layout schema w ->
  Forall callFits calls ->
  performAll toTimestamp binary32 binary64 Value_eq schema w last calls
  = Ret (w', last') ->
  layout schema w' /\ (fitsInt32 w' -> fitsInt32 w) /\
  (stringsRecorded schema w last -> fitsInt32 w' ->
   stringsRecorded schema w' last').
Proof.
  revert w last. induction calls as [|c rest IH]; intros w last Hlay Hfits.
  - simpl. by intros [= <- <-].
  - simpl.
    destruct (perform _ _ _ _ _ _ c) as [[r w1]|] eqn:Hp; [|discriminate].
    intros Hall. inversion Hfits as [|? ? Hc Hrest]; subst.
    destruct (perform_recorded _ last _ _ _ Hlay Hc Hp)
      as (Hlay1 & Hmono & Hrec1).
    destruct (IH _ _ Hlay1 Hrest Hall) as (Hlay' & Hmono' & Hrec').
    split; [done|]. split; [auto|].
    intros Hrec Hsmall. apply Hrec'; [|done]. apply Hrec1; auto.
Qed.

End CallSequences.

Section FrameKeeps.

Variable schema : Schema.
Hypothesis Hwf : wfLayout schema.

(** What a step on field [i] keeps of another field [k]. *)
Lemma frame_keeps i f w w' k g :
  layout schema w ->
  frame i f w w' ->
  fields schema !! i = Some f -> fields schema !! k = Some g -> k <> i ->
  isSetAt w' k = isSetAt w k /\
  (f_nullable g = true ->
   checkNullBit w' (f_nullFlagPos g) = checkNullBit w (f_nullFlagPos g)).
Proof.
  intros Hlay Hfr Hf Hg Hne. split; [by eapply isSetAt_frame|].
  intros Hn. apply (fr_nullbits _ _ _ _ Hfr).
  - destruct Hlay as [_ -> _ _]. by eapply wl_nullpos.
  - intros Hfn. by eapply (wl_nullpos_unique _ Hwf k i).
Qed.

End FrameKeeps.

(** * The defaults filler *)

Section Defaults.

Variable toTimestamp : Z -> option Z.
Variable binary32 : fpnum -> Z.
Variable binary64 : fpnum -> Z.
Variable Value_eq : Value -> Value -> bool.

Variable schema : Schema.
Hypothesis Hwf : wfSchema schema.
Hypothesis Hdefaults : defaultsFit schema.

Lemma fillUnset_recorded w last i f w' :
  layout schema w ->
  fields schema !! i = Some f ->
  fillUnset toTimestamp binary32 binary64 Value_eq schema w i
  = Ret (SUCCEEDED, w') ->
  frame i f w w' /\ layout schema w' /\
  (stringsRecorded schema w last -> fitsInt32 w' ->
   stringsRecorded schema w' (noteFill last i f) /\
   (isStringType (f_type f) = true -> setOrNull w' i f)).
Proof.
  intros Hlay Hf. unfold fillUnset, noteFill, hasDefault. rewrite Hf.
  assert (Hnullcase : f_nullable f = true ->
            let w1 := setNullBit w (f_nullFlagPos f) in
            frame i f w w1 /\ layout schema w1 /\
            (stringsRecorded schema w last -> fitsInt32 w1 ->
             stringsRecorded schema w1 last /\
             (isStringType (f_type f) = true -> setOrNull w1 i f))).
  { intros Hn w1.
    destruct (setNullBit_recorded schema Hwf w last i f false Hlay Hf Hn)
      as (Hfr & Hlay' & Hbit & Hrec').
    split; [exact Hfr|]. split; [exact Hlay'|].
    intros Hrec _. split; [by apply Hrec'|].
    intros _. right. split; [done|exact Hbit]. }
  destruct (f_default f) as [defVal|] eqn:Hdef.
  - rewrite andb_false_r.
    assert (Hv : valueFits defVal) by by eapply Hdefaults.
    destruct (writeValue toTimestamp binary32 binary64 Value_eq schema w i
                defVal) as [res|] eqn:Hw.
    + assert (Hnotnull : forall bad, defVal <> Null bad)
        by (intros bad ->; discriminate).
      assert (res = Ret (SUCCEEDED, w') ->
              frame i f w w' /\ layout schema w' /\
              (stringsRecorded schema w last -> fitsInt32 w' ->
               stringsRecorded schema w' (noteWrite last i defVal SUCCEEDED) /\
               (isStringType (f_type f) = true -> setOrNull w' i f))) as Hgo.
      { intros ->.
        destruct (writeValue_recorded toTimestamp binary32 binary64 Value_eq
                    schema Hwf w last i f defVal SUCCEEDED w' Hlay Hf Hv Hw)
          as (Hfr & Hlay' & Hrec').
        split; [done|]. split; [done|]. intros Hrec Hsmall.
        split; [by apply Hrec'|]. intros Hs. left.
        destruct (writeValue_string_field _ _ _ _ _ _ _ _ Hf Hs _ _ _ Hw)
          as [(_ & s & isWKB & Hstr & Hwrite)|(Hr & _)]; [|done].
        unfold valueFits in Hv. rewrite Hstr in Hv.
        by destruct (write_string_live schema Hwf w Hlay i f Hf Hs s isWKB w'
                       Hv Hwrite Hsmall) as (_ & Hset & _). }
      destruct defVal; try exact Hgo. by destruct (Hnotnull bad).
    + destruct defVal; try discriminate.
      intros [= <-]. rewrite noteWrite_nostring by done.
      apply Hnullcase.
      destruct (f_nullable f) eqn:Hn; [done|].
      by destruct (wf_default _ Hwf _ _ bad Hf Hn).
  - destruct (f_nullable f) eqn:Hn; simpl; [|discriminate].
    intros [= <-]. by apply Hnullcase.
Qed.

End Defaults.

Section DefaultsLoop.

Variable toTimestamp : Z -> option Z.
Variable binary32 : fpnum -> Z.
Variable binary64 : fpnum -> Z.
Variable Value_eq : Value -> Value -> bool.

Variable schema : Schema.
Hypothesis Hwf : wfSchema schema.
Hypothesis Hdefaults : defaultsFit schema.

Lemma checkUnsetFrom_recorded indices w last w1 :
  NoDup indices ->
  (forall i, i ∈ indices -> i < getNumFields schema) ->
  layout schema w ->
  checkUnsetFrom toTimestamp binary32 binary64 Value_eq schema indices w
  = Ret (SUCCEEDED, w1) ->
  layout schema w1 /\ (fitsInt32 w1 -> fitsInt32 w) /\
  (forall k g, k ∉ indices -> fields schema !! k = Some g ->
     isSetAt w1 k = isSetAt w k /\
     (f_nullable g = true ->
      checkNullBit w1 (f_nullFlagPos g) = checkNullBit w (f_nullFlagPos g))) /\
  (stringsRecorded schema w last -> fitsInt32 w1 ->
   stringsRecorded schema w1
     (fun k => if decide (k ∈ indices) then noteDefaults schema w last k
               else last k) /\
   (forall k g, k ∈ indices -> fields schema !! k = Some g ->
      isStringType (f_type g) = true -> setOrNull w1 k g)).
Proof.
  revert w last.
  induction indices as [|i rest IH]; intros w last Hnodup Hrange Hlay.
  - simpl. intros [= <-]. split; [done|]. split; [done|]. split; [done|].
    intros Hrec _. split; [|by intros k g Hk%elem_of_nil].
    eapply stringsRecorded_ext; [|exact Hrec]. done.
  - apply NoDup_cons in Hnodup as [Hi Hnodup].
    assert (Hrange' : forall k, k ∈ rest -> k < getNumFields schema)
      by (intros k Hk; apply Hrange; by right).
    assert (Hilt : i < length (fields schema)) by (apply Hrange; by left).
    destruct (lookup_lt_is_Some_2 _ _ Hilt) as [f Hf].
    simpl. destruct (isSetAt w i) eqn:Hset.
    + (* the field is set: nothing to do *)
      intros Hcheck.
      destruct (IH w last Hnodup Hrange' Hlay Hcheck)
        as (Hlay1 & Hmono & Hkeep & Hrec1).
      split; [done|]. split; [done|]. split.
      { intros k g Hk Hg. apply Hkeep; [|done].
        by apply not_elem_of_cons in Hk as [_ Hk]. }
      intros Hrec Hsmall. destruct (Hrec1 Hrec Hsmall) as [Hr Hcomplete].
      split.
      * eapply stringsRecorded_ext; [|exact Hr]. intros k g Hg Hs. simpl.
        destruct (decide (k = i)) as [->|Hne].
        -- rewrite decide_True by (apply elem_of_cons; by left).
           rewrite decide_False by done.
           unfold noteDefaults. by rewrite Hset.
        -- destruct (decide (k ∈ rest)).
           ++ rewrite decide_True by (apply elem_of_cons; by right). done.
           ++ rewrite decide_False by (by apply not_elem_of_cons). done.
      * intros k g Hk Hg Hs.
        apply elem_of_cons in Hk as [->|Hk]; [|by eapply Hcomplete].
        left. destruct (Hkeep i g Hi Hg) as [-> _]. done.
    + (* the field is filled *)
      destruct (fillUnset _ _ _ _ _ _ _) as [[r w']|] eqn:Hfill;
        [|discriminate].
      destruct r; try discriminate. intros Hcheck.
      destruct (fillUnset_recorded toTimestamp binary32 binary64 Value_eq
                  schema Hwf Hdefaults w last i f w' Hlay Hf Hfill)
        as (Hfr & Hlay' & Hstep).
      destruct (IH w' (noteFill last i f) Hnodup Hrange' Hlay' Hcheck)
        as (Hlay1 & Hmono & Hkeep & Hrec1).
      split; [done|]. split.
      { intros Hsmall. eapply fitsInt32_frame; [exact Hfr|auto]. }
      split.
      { intros k g Hk Hg.
        apply not_elem_of_cons in Hk as [? ?].
        destruct (Hkeep k g ltac:(done) Hg) as [-> Hbits].
        destruct (frame_keeps schema Hwf i f w w' k g Hlay Hfr Hf Hg
                    ltac:(done)) as [-> Hbits'].
        split; [done|]. intros Hn. rewrite Hbits, Hbits'; done. }
      intros Hrec Hsmall.
      destruct (Hstep Hrec (Hmono Hsmall)) as [Hrec' Hdone].
      destruct (Hrec1 Hrec' Hsmall) as [Hr Hcomplete].
      split.
      * eapply stringsRecorded_ext; [|exact Hr]. intros k g Hg Hs. simpl.
        destruct (decide (k = i)) as [->|Hne].
        -- rewrite decide_True by (apply elem_of_cons; by left).
           rewrite decide_False by done.
           assert (g = f) as -> by congruence.
           unfold noteDefaults, noteFill. rewrite Hset, Hf.
           destruct (f_default f) as [v|].
           ++ unfold noteWrite. destruct (stringOf v); [by rewrite decide_True|].
              specialize (Hrec i f Hf Hs). destruct (last i); [|done].
              destruct Hrec. congruence.
           ++ specialize (Hrec i f Hf Hs). destruct (last i); [|done].
              destruct Hrec. congruence.
        -- assert (Hlast : noteFill last i f k = last k).
           { unfold noteFill. destruct (f_default f); [|done].
             by apply noteWrite_other. }
           destruct (decide (k ∈ rest)).
           ++ rewrite decide_True by (apply elem_of_cons; by right).
              unfold noteDefaults.
              rewrite (isSetAt_frame _ _ _ _ _ Hfr Hne), Hlast. done.
           ++ rewrite decide_False by (by apply not_elem_of_cons).
              by rewrite Hlast.
      * intros k g Hk Hg Hs.
        apply elem_of_cons in Hk as [->|Hk]; [|by eapply Hcomplete].
        assert (g = f) as -> by congruence.
        destruct (Hkeep i f Hi Hf) as [Hs1 Hb1].
        destruct (Hdone Hs) as [Hset'|[Hn Hbit]].
        -- left. by rewrite Hs1.
        -- right. split; [done|]. by rewrite Hb1.
Qed.

End DefaultsLoop.

(** * Canonicalization *)

Lemma processStrings_length w fs temp final :
  processStrings w fs temp = Ret final -> length temp <= length final.
Proof.
  revert temp. induction fs as [|g rest IH]; intros temp; cbn [processStrings].
  - by intros [= <-].
  - destruct (negb _); [apply IH|].
    match goal with
    | |- match ?m with _ => _ end = _ -> _ => destruct m as [[[t1 o1] l1]|] eqn:Hm
    end; [|discriminate].
    intros H. apply IH in H. rewrite !length_inserts in H.
    assert (length temp <= length t1); [|lia].
    repeat case_match; simplify_eq; rewrite ?length_app; lia.
Qed.

Section Canonical.

Variable schema : Schema.
Hypothesis Hwf : wfSchema schema.
Variable w : RowWriterV2.
Hypothesis Hlay : layout schema w.
Variable last : nat -> option (list Z).

(** Rewriting the slot of field [j] in a buffer extended by [t]. *)
Lemma canonical_kept (temp t : list Z) g j gk k s x y :
  fields schema !! j = Some g -> fields schema !! k = Some gk -> k <> j ->
  isStringType (f_type g) = true -> isStringType (f_type gk) = true ->
  fixedEnd schema w <= length temp ->
  canonicalString schema w temp gk s ->
  canonicalString schema w
    (list_inserts (fieldOffset w g + 4) (le_bytes 4 y)
       (list_inserts (fieldOffset w g) (le_bytes 4 x) (temp ++ t))) gk s.
Proof.
  intros Hg Hgk Hne Hs Hsk Hlen.
  pose proof (wf_width _ Hwf _ _ Hg) as Hwidth.
  pose proof (wf_width _ Hwf _ _ Hgk) as Hwidthk.
  pose proof (wf_inside _ Hwf _ _ Hg) as Hin.
  pose proof (wf_inside _ Hwf _ _ Hgk) as Hink.
  pose proof (wf_disjoint _ Hwf _ _ _ _ Hne Hgk Hg) as Hdis.
  assert (8 <= f_size g) by (destruct (f_type g); simplify_eq/=; lia).
  assert (8 <= f_size gk) by (destruct (f_type gk); simplify_eq/=; lia).
  set (b' := list_inserts _ _ _).
  assert (Hagree : forall i, i < length temp ->
            ~ (fieldOffset w g <= i < fieldOffset w g + 8) ->
            b' !! i = temp !! i).
  { intros i Hi Hout. subst b'.
    destruct (decide (i < fieldOffset w g)).
    - rewrite !list_lookup_inserts_lt by lia. by apply lookup_app_l.
    - rewrite !list_lookup_inserts_ge by (rewrite length_le_bytes; lia).
      by apply lookup_app_l. }
  assert (Hlen' : length b' = length temp + length t).
  { subst b'. by rewrite !length_inserts, length_app. }
  unfold canonicalString, fixedEnd, fieldOffset in *.
  rewrite !load_int32_slice.
  rewrite (slice_ext temp b' (headerLen_ w + numNullBytes_ w + f_offset gk))
    by (intros i Hi; apply Hagree; lia).
  rewrite (slice_ext temp b'
             (headerLen_ w + numNullBytes_ w + f_offset gk + 4))
    by (intros i Hi; apply Hagree; lia).
  intros (Hlo & Hlen0 & Hhi & Hbytes).
  repeat split; try lia.
  rewrite <- Hbytes. apply slice_ext. intros i Hi. apply Hagree; lia.
Qed.

(** The slot of field [j] itself, once it is rewritten. *)
Lemma canonical_new (temp str : list Z) g j :
  fields schema !! j = Some g ->
  isStringType (f_type g) = true ->
  fixedEnd schema w <= length temp ->
  (Z.of_nat (length (temp ++ str)) < 2 ^ 31)%Z ->
  canonicalString schema w
    (list_inserts (fieldOffset w g + 4)
       (le_bytes 4 (Z.of_nat (length str)))
       (list_inserts (fieldOffset w g)
          (le_bytes 4 (int32 (Z.of_nat (length temp)))) (temp ++ str)))
    g str.
Proof.
  intros Hg Hs Hlen Hsmall.
  pose proof (wf_width _ Hwf _ _ Hg) as Hwidth.
  pose proof (wf_inside _ Hwf _ _ Hg) as Hin.
  assert (8 <= f_size g) by (destruct (f_type g); simplify_eq/=; lia).
  rewrite length_app in Hsmall.
  assert (Hslot : fieldOffset w g + 8 <= length (temp ++ str))
    by (rewrite length_app; unfold fieldOffset, fixedEnd in *; lia).
  destruct (slot_after_stores (temp ++ str) (fieldOffset w g)
              (int32 (Z.of_nat (length temp))) (Z.of_nat (length str)) Hslot)
    as (Hoff & Hlen' & Hlength & Hrest).
  unfold canonicalString.
  set (b' := list_inserts _ _ _) in *.
  rewrite Hoff, Hlen', Hlength.
  rewrite int32_idemp, !int32_small by lia.
  rewrite length_app, !Nat2Z.id.
  repeat split; try lia.
  erewrite slice_ext; [apply slice_app_r|].
  intros i Hi. apply Hrest. unfold fieldOffset, fixedEnd in *. lia.
Qed.

Lemma processStrings_canonical todo done temp final :
  fields schema = done ++ todo ->
  (forall k g, fields schema !! k = Some g ->
     isStringType (f_type g) = true ->
     isNullIn w g \/ exists s, last k = Some s /\ liveString schema w g s) ->
  fixedEnd schema w <= length temp ->
  (forall i, i < headerLen_ w + numNullBytes_ w -> temp !! i = buf_ w !! i) ->
  (forall k g, k < length done -> fields schema !! k = Some g ->
     isStringType (f_type g) = true -> ~ isNullIn w g ->
     exists s, last k = Some s /\ canonicalString schema w temp g s) ->
  processStrings w todo temp = Ret final ->
  (Z.of_nat (length final) < 2 ^ 31)%Z ->
  fixedEnd schema w <= length final /\
  (forall i, i < headerLen_ w + numNullBytes_ w -> final !! i = buf_ w !! i) /\
  (forall k g, fields schema !! k = Some g ->
     isStringType (f_type g) = true -> ~ isNullIn w g ->
     exists s, last k = Some s /\ canonicalString schema w final g s).
Proof.
  revert done temp.
  induction todo as [|g rest IH]; intros done temp Hfields Hpre Hlen Hbitmap
    Hdone Hrun Hsmall.
  - injection Hrun as <-. rewrite app_nil_r in Hfields.
    split; [done|]. split; [done|].
    intros k g Hg. apply Hdone; [|done].
    rewrite <- Hfields. by eapply lookup_lt_Some.
  - assert (Hg : fields schema !! length done = Some g)
      by (rewrite Hfields; apply list_lookup_middle; done).
    assert (Hfields' : fields schema = (done ++ [g]) ++ rest)
      by (by rewrite <- app_assoc).
    cbn [processStrings] in Hrun.
    change (match f_type g with STRING | GEOGRAPHY => true | _ => false end)
      with (isStringType (f_type g)) in Hrun.
    destruct (isStringType (f_type g)) eqn:Hs; simpl negb in Hrun; cbv iota in Hrun.
    2:{ (* not a string field *)
      apply (IH (done ++ [g]) temp); auto.
      intros k gk Hk Hgk Hsk Hnn. rewrite length_app in Hk. simpl in Hk.
      destruct (decide (k = length done)) as [->|Hne].
      - congruence.
      - apply Hdone; auto. lia. }
    pose proof (wf_width _ Hwf _ _ Hg) as Hwidth.
    pose proof (wf_inside _ Hwf _ _ Hg) as Hin.
    assert (Hsize : 8 <= f_size g) by (destruct (f_type g); simplify_eq/=; lia).
    match type of Hrun with
    | match ?m with _ => _ end = _ =>
        destruct m as [[[t1 o1] l1]|] eqn:Hmoved
    end; [|discriminate].
    pose proof (processStrings_length _ _ _ _ Hrun) as Hgrow.
    rewrite !length_inserts in Hgrow.
    assert (Hcases :
      (isNullIn w g /\ t1 = temp ++ []) \/
      (~ isNullIn w g /\ exists s, last (length done) = Some s /\
         t1 = temp ++ s /\ o1 = int32 (Z.of_nat (length temp)) /\
         l1 = Z.of_nat (length s))).
    { destruct (f_nullable g && checkNullBit w (f_nullFlagPos g)) eqn:Hnull.
      - left. apply andb_true_iff in Hnull. injection Hmoved as <- _ _.
        by rewrite app_nil_r.
      - right.
        assert (Hnn : ~ isNullIn w g).
        { intros [Hn Hb]. by rewrite Hn, Hb in Hnull. }
        split; [done|].
        destruct (Hpre _ _ Hg Hs) as [Hnl|(s & Hlast & Hlive)]; [done|].
        exists s. split; [done|].
        destruct Hlive as [Hlen0 [(Hpos & Hlo & Hhi & Hbytes)|(Hz & Ho & Hl)]].
        + destruct (Z.ltb_spec 0 (load_int32 (buf_ w) (fieldOffset w g)));
            [|lia].
          destruct (Z.ltb_spec (load_int32 (buf_ w) (fieldOffset w g + 4)) 0);
            [lia|].
          destruct (Z.ltb_spec (Z.of_nat (length (buf_ w)))
                      (load_int32 (buf_ w) (fieldOffset w g)
                       + load_int32 (buf_ w) (fieldOffset w g + 4))); [lia|].
          simpl in Hmoved. injection Hmoved as <- <- <-.
          fold (slice (Z.to_nat (load_int32 (buf_ w) (fieldOffset w g)))
                  (Z.to_nat (load_int32 (buf_ w) (fieldOffset w g + 4)))
                  (buf_ w)).
          rewrite Hbytes. repeat split.
          rewrite <- Hbytes, length_slice by lia. lia.
        + rewrite Hz in Hmoved. simpl in Hmoved.
          destruct (Z.ltb_spec (load_int32 (buf_ w) (fieldOffset w g + 4)) 0);
            [lia|].
          rewrite Hl in Hmoved. injection Hmoved as <- <- <-.
          repeat split. apply int32_small.
          rewrite length_app in Hgrow. lia. }
    destruct Hcases as [[Hnl ->]|(Hnn & s & Hlast & -> & -> & ->)].
    + (* null: the slot becomes (0, 0) *)
      apply (IH (done ++ [g]) _ Hfields' Hpre) in Hrun; auto.
      * rewrite !length_inserts, length_app. lia.
      * intros i Hi.
        rewrite !list_lookup_inserts_lt by (unfold fieldOffset; lia).
        rewrite lookup_app_l by (unfold fixedEnd in *; lia). by apply Hbitmap.
      * intros k gk Hk Hgk Hsk Hnk. rewrite length_app in Hk. simpl in Hk.
        destruct (decide (k = length done)) as [->|Hne].
        -- assert (gk = g) as -> by congruence. done.
        -- destruct (Hdone k gk ltac:(lia) Hgk Hsk Hnk) as (s & Hl & Hc).
           exists s. split; [done|].
           by apply (canonical_kept temp [] g (length done) gk k).
    + (* the string is appended and the slot rewritten *)
      apply (IH (done ++ [g]) _ Hfields' Hpre) in Hrun; auto.
      * rewrite !length_inserts, length_app. lia.
      * intros i Hi.
        rewrite !list_lookup_inserts_lt by (unfold fieldOffset; lia).
        rewrite lookup_app_l by (unfold fixedEnd in *; lia). by apply Hbitmap.
      * intros k gk Hk Hgk Hsk Hnk. rewrite length_app in Hk. simpl in Hk.
        destruct (decide (k = length done)) as [->|Hne].
        -- assert (gk = g) as -> by congruence.
           exists s. split; [done|].
           apply (canonical_new temp s g (length done)); auto. lia.
        -- destruct (Hdone k gk ltac:(lia) Hgk Hsk Hnk) as (s' & Hl & Hc).
           exists s'. split; [done|].
           by apply (canonical_kept temp s g (length done) gk k).
Qed.

End Canonical.

(** * A fresh writer *)

Lemma headerFor_len ver h n : headerFor ver = Some (h, n) -> 2 <= n <= 8.
Proof.
  unfold headerFor. repeat case_match; intros [= <- <-]; lia.
Qed.

Lemma new_writer schema w0 :
  RowWriterV2_new schema = Ret w0 ->
  layout schema w0 /\ stringsRecorded schema w0 (fun _ => None) /\
  finished_ w0 = false /\ outOfSpaceStr_ w0 = false /\
  isSet_ w0 = replicate (getNumFields schema) false.
Proof.
  unfold RowWriterV2_new.
  destruct (if (0 <? getVersion schema)%Z then _ else _)
    as [[b headerLen]|] eqn:Hstart; [|discriminate].
  intros [= <-].
  assert (Hh : 1 <= headerLen).
  { destruct (0 <? getVersion schema)%Z.
    - destruct (headerFor (getVersion schema)) as [[h n]|] eqn:Hhdr;
        [|discriminate].
      apply headerFor_len in Hhdr. injection Hstart as _ <-. lia.
    - injection Hstart as _ <-. lia. }
  split; [|split; [|done]].
  - constructor; wsimpl; try done.
    + by rewrite length_resize.
    + by rewrite length_replicate.
  - intros i f Hf Hs. left. unfold isSetAt. wsimpl.
    rewrite lookup_replicate_2; [done|]. by eapply lookup_lt_Some.
Qed.

(** * Strings in the emitted row *)

Section EmittedStrings.

Variable toTimestamp : Z -> option Z.
Variable binary32 : fpnum -> Z.
Variable binary64 : fpnum -> Z.
Variable Value_eq : Value -> Value -> bool.

Variable schema : Schema.
Hypothesis Hwf : wfSchema schema.
Hypothesis Hdefaults : defaultsFit schema.

(** A string in the tail of the buffer is found again once the timestamp
    is appended. *)
Lemma canonical_with_trailer w b g s trailer :
  fieldOffset w g + 8 <= length b ->
  canonicalString schema w b g s ->
  canonicalString schema w (b ++ trailer) g s /\
  (load_int32 (b ++ trailer) (fieldOffset w g)
   <= Z.of_nat (length b) - load_int32 (b ++ trailer) (fieldOffset w g + 4))%Z.
Proof.
  intros Hslot. unfold canonicalString. rewrite !load_int32_slice.
  rewrite !slice_app_l by lia.
  intros (Hlo & Hlen0 & Hhi & Hbytes).
  rewrite length_app. repeat split; try lia.
  rewrite slice_app_l by lia. exact Hbytes.
Qed.

(** After the defaults filler, before canonicalization: every STRING and
    GEOGRAPHY field is null or refers to its last string. *)
Lemma filled_strings w last w1 :
  layout schema w ->
  stringsRecorded schema w last ->
  checkUnsetFields toTimestamp binary32 binary64 Value_eq schema w
  = Ret (SUCCEEDED, w1) ->
  fitsInt32 w1 ->
  layout schema w1 /\
  forall k g, fields schema !! k = Some g ->
    isStringType (f_type g) = true ->
    isNullIn w1 g \/
    exists s, noteDefaults schema w last k = Some s /\
              liveString schema w1 g s.
Proof.
  intros Hlay Hrec Hcheck Hsmall. unfold checkUnsetFields in Hcheck.
  destruct (checkUnsetFrom_recorded toTimestamp binary32 binary64 Value_eq
              schema Hwf Hdefaults _ w last w1
              (NoDup_seq 0 (getNumFields schema))
              ltac:(intros i Hi%elem_of_seq; lia) Hlay Hcheck)
    as (Hlay1 & Hmono & _ & Hrec1).
  destruct (Hrec1 Hrec Hsmall) as [Hr Hcomplete].
  split; [done|]. intros k g Hg Hs.
  assert (Hk : k ∈ seq 0 (getNumFields schema)).
  { apply elem_of_seq. apply lookup_lt_Some in Hg.
    unfold getNumFields. lia. }
  specialize (Hr k g Hg Hs). simpl in Hr. rewrite decide_True in Hr by done.
  destruct (noteDefaults schema w last k) as [s|].
  - right. exists s. by destruct Hr.
  - left. destruct Hr as [Hunset|Hnull]; [|done].
    destruct (Hcomplete k g Hk Hg Hs) as [Hset|Hnull]; [congruence|done].
Qed.

(** X28: on a schema whose slots are wide enough, apart and inside the
    fixed part, whose nullable fields have flag positions of their own
    inside the bitmap, and where no field that is not nullable has a
    NULLVALUE default: in a row emitted by [finish] after any sequence of
    calls on a fresh writer, with strings, buffer and row shorter than
    2^31 bytes, the slot of every STRING or GEOGRAPHY field that is not
    null holds an offset and a length with
    headerLen + numNullBytes + fixedSize <= offset <= |row| - 8 - length,
    and the bytes there are the last value successfully written to the
    field (its default, if no call set it). *)
Theorem emitted_string_is_last_written (calls : list call)
  (w0 w w1 w' : RowWriterV2) (last : nat -> option (list Z)) (ts : Z)
  (i : nat) (f : SchemaField) :
  Forall callFits calls ->
  RowWriterV2_new schema = Ret w0 ->
  performAll toTimestamp binary32 binary64 Value_eq schema w0
    (fun _ => None) calls = Ret (w, last) ->
  checkUnsetFields toTimestamp binary32 binary64 Value_eq schema w
  = Ret (SUCCEEDED, w1) ->
  fitsInt32 w1 ->
  finish toTimestamp binary32 binary64 Value_eq schema w ts
  = Ret (SUCCEEDED, w') ->
  (Z.of_nat (length (buf_ w')) < 2 ^ 31)%Z ->
  fields schema !! i = Some f ->
  isStringType (f_type f) = true ->
  (f_nullable f = true -> checkNullBit w' (f_nullFlagPos f) = false) ->
  let off := load_int32 (buf_ w') (fieldOffset w' f) in
  let len := load_int32 (buf_ w') (fieldOffset w' f + 4) in
  (Z.of_nat (headerLen_ w' + numNullBytes_ w' + size schema) <= off)%Z /\
  (off <= Z.of_nat (length (buf_ w')) - 8 - len)%Z /\
  (0 <= len)%Z /\
  exists s, noteDefaults schema w last i = Some s /\
            slice (Z.to_nat off) (Z.to_nat len) (buf_ w') = s.
Proof.
  intros Hcalls Hnew Hrun Hcheck Hfit1 Hfinish Hfit' Hf Hs Hnotnull.
  destruct (new_writer _ _ Hnew) as (Hlay0 & Hrec0 & _).
  destruct (performAll_recorded toTimestamp binary32 binary64 Value_eq schema
              Hwf calls w0 (fun _ => None) w last Hlay0 Hcalls Hrun)
    as (Hlay & Hmono & Hrec).
  assert (Hfitw : fitsInt32 w).
  { unfold checkUnsetFields in Hcheck.
    destruct (checkUnsetFrom_recorded toTimestamp binary32 binary64 Value_eq
                schema Hwf Hdefaults _ w last w1
                (NoDup_seq 0 (getNumFields schema))
                ltac:(intros k Hk%elem_of_seq; lia) Hlay Hcheck)
      as (_ & Hm & _). auto. }
  destruct (filled_strings w last w1 Hlay (Hrec Hrec0 Hfitw) Hcheck Hfit1)
    as (Hlay1 & Hfilled).
  pose proof (wf_width _ Hwf _ _ Hf) as Hwidth.
  pose proof (wf_inside _ Hwf _ _ Hf) as Hin.
  assert (Hsize : 8 <= f_size f) by (destruct (f_type f); simplify_eq/=; lia).
  unfold finish in Hfinish. rewrite Hcheck in Hfinish.
  pose proof (length_le_bytes 8 ts) as Htrailer.
  set (trailer := le_bytes 8 ts) in *.
  destruct (finished_ w); [discriminate|].
  destruct (if outOfSpaceStr_ w1 then _ else _) as [b|] eqn:Hcanon;
    [|discriminate].
  injection Hfinish as <-. wsimpl.
  unfold fieldOffset. wsimpl. fold (fieldOffset w1 f).
  rewrite length_app, Htrailer in Hfit'.
  rewrite ?length_app, ?Htrailer.
  destruct Hlay1 as [Hl1 Hl2 Hl3 Hl4].
  assert (Hcanonical :
    fixedEnd schema w1 <= length b /\
    (forall j, j < headerLen_ w1 + numNullBytes_ w1 ->
               b !! j = buf_ w1 !! j) /\
    (~ isNullIn w1 f ->
     exists s, noteDefaults schema w last i = Some s /\
               canonicalString schema w1 b f s)).
  { destruct (outOfSpaceStr_ w1) eqn:Hoos.
    - unfold processOutOfSpace in Hcanon.
      destruct (Nat.ltb_spec (length (buf_ w1))
                  (headerLen_ w1 + numNullBytes_ w1 + size schema));
        [discriminate|].
      destruct (processStrings_canonical schema Hwf w1
                  (noteDefaults schema w last) (fields schema) []
                  (take (headerLen_ w1 + numNullBytes_ w1 + size schema)
                        (buf_ w1)) b
                  eq_refl Hfilled) as (Hend & Hbitmap & Hall);
        [ rewrite length_take; unfold fixedEnd; lia
        | intros j Hj; apply lookup_take_lt; lia
        | intros k g Hk; simpl in Hk; lia
        | exact Hcanon
        | lia
        | ].
      split; [done|]. split; [done|]. intros Hnn. by apply (Hall i f).
    - injection Hcanon as <-. split; [unfold fixedEnd; lia|]. split; [done|].
      intros Hnn. destruct (Hfilled i f Hf Hs) as [Hnl|(s & Hlast & Hlive)];
        [done|].
      exists s. split; [done|].
      destruct Hlive as [Hlen0 [(Hpos & Hlo & Hhi & Hbytes)|(_ & Ho & _)]];
        [|congruence].
      unfold canonicalString. done. }
  destruct Hcanonical as (Hend & Hbitmap & Hstring).
  assert (Hnn : ~ isNullIn w1 f).
  { intros [Hn Hbit]. specialize (Hnotnull Hn).
    assert (Hpos : Nat.shiftr (f_nullFlagPos f) 3 < numNullBytes_ w1)
      by (rewrite Hl2; by eapply wf_nullpos).
    rewrite (checkNullBit_agree w1) in Hnotnull; [congruence|done|].
    wsimpl. rewrite lookup_app_l by (unfold nullByteOffset, fixedEnd in *; lia).
    apply Hbitmap. unfold nullByteOffset. lia. }
  destruct (Hstring Hnn) as (s & Hlast & Hcan).
  destruct (canonical_with_trailer w1 b f s trailer)
    as [(Hlo & Hlen0 & Hhi & Hbytes) Hupper]; [|done|].
  { unfold fieldOffset, fixedEnd in *. lia. }
  unfold fixedEnd in Hlo.
  split; [done|]. split; [lia|]. split; [done|].
  by exists s.
Qed.

End EmittedStrings.

(** * Fields that are not set when the row is finished *)

Lemma processStrings_bitmap w fs temp final :
  processStrings w fs temp = Ret final ->
  headerLen_ w + numNullBytes_ w <= length temp ->
  forall j, j < headerLen_ w + numNullBytes_ w -> final !! j = temp !! j.
Proof.
  revert temp. induction fs as [|g rest IH]; intros temp;
    cbn [processStrings].
  - by intros [= <-].
  - destruct (negb _); [apply IH|].
    match goal with
    | |- match ?m with _ => _ end = _ -> _ =>
        destruct m as [[[t1 o1] l1]|] eqn:Hm
    end; [|discriminate].
    intros Hrun Hlen j Hj.
    assert (Ht1 : exists t, t1 = temp ++ t).
    { repeat case_match; simplify_eq; try by eexists.
      exists []. by rewrite app_nil_r. }
    destruct Ht1 as [t ->].
    rewrite (IH _ Hrun) by (rewrite ?length_inserts, ?length_app; lia).
    rewrite !list_lookup_inserts_lt by (unfold fieldOffset; lia).
    apply lookup_app_l. lia.
Qed.

Section UnsetFields.

Variable toTimestamp : Z -> option Z.
Variable binary32 : fpnum -> Z.
Variable binary64 : fpnum -> Z.
Variable Value_eq : Value -> Value -> bool.

Variable schema : Schema.




Hypothesis Hwf : wfLayout schema.

(** A typed writer that fills field [i] with success. *)
Lemma fill_typed w i f v w' :
  layout schema w ->
  fields schema !! i = Some f ->
  writeValue toTimestamp binary32 binary64 Value_eq schema w i v
  = Some (Ret (SUCCEEDED, w')) ->
  layout schema w' /\
  (forall k, k <> i -> isSetAt w' k = isSetAt w k) /\
  (forall k g, k <> i -> fields schema !! k = Some g ->
     f_nullable g = true ->
     checkNullBit w' (f_nullFlagPos g) = checkNullBit w (f_nullFlagPos g)) /\
  frame i f w w'.
Proof.
  intros Hlay Hf Hw.
  assert (Hfr : frame i f w w').
  { by eapply (writeValue_frame toTimestamp binary32 binary64 Value_eq schema
                 Hwf w Hlay i f Hf). }
  split; [by eapply layout_frame|]. split; [|split; [|done]].
  - intros k Hk. by eapply isSetAt_frame.
  - intros k g Hk Hg Hn.
    by apply (frame_keeps schema Hwf i f w w' k g Hlay Hfr Hf Hg Hk).
Qed.

(** Setting the null flag of field [i], nullable or not. *)
Lemma fill_null w i f :
  layout schema w ->
  fields schema !! i = Some f ->
  let w' := setNullBit w (f_nullFlagPos f) in
  layout schema w' /\
  (forall k, isSetAt w' k = isSetAt w k) /\
  (forall p, checkNullBit w p = true -> checkNullBit w' p = true) /\
  (f_nullable f = true ->
   frame i f w w' /\ checkNullBit w' (f_nullFlagPos f) = true).
Proof.
  intros Hlay Hf w'. split; [|split; [|split]].
  - destruct Hlay as [H1 H2 H3 H4]. constructor; try done.
    unfold w'. by rewrite length_setNullBit.
  - done.
  - intros p. apply checkNullBit_set_mono.
  - intros Hn.
    destruct (setNullBit_recorded schema Hwf w (fun _ => None) i f false
                Hlay Hf Hn) as (Hfr & _ & Hbit & _).
    done.
Qed.

(** A successful step of the filler on field [i]: what it does to the
    field, and what it keeps of the other fields. *)
Lemma fillUnset_step w i f w' :
  layout schema w ->
  fields schema !! i = Some f ->
  fillUnset toTimestamp binary32 binary64 Value_eq schema w i
  = Ret (SUCCEEDED, w') ->
  layout schema w' /\
  (forall k, k <> i -> isSetAt w' k = isSetAt w k) /\
  (forall k g, k <> i -> fields schema !! k = Some g ->
     f_nullable g = true ->
     checkNullBit w (f_nullFlagPos g) = true ->
     checkNullBit w' (f_nullFlagPos g) = true) /\
  ((forall bad, f_default f = Some (Null bad) -> f_nullable f = true) ->
   frame i f w w') /\
  match f_default f with
  | None => f_nullable f = true /\
            checkNullBit w' (f_nullFlagPos f) = true
  | Some (Null _) =>
      w' = setNullBit w (f_nullFlagPos f) /\
      (f_nullable f = true -> checkNullBit w' (f_nullFlagPos f) = true)
  | Some v =>
      writeValue toTimestamp binary32 binary64 Value_eq schema w i v
      = Some (Ret (SUCCEEDED, w'))
  end.
Proof.
  intros Hlay Hf. unfold fillUnset, hasDefault. rewrite Hf.
  destruct (fill_null w i f Hlay Hf) as (Hlay2 & Hset2 & Hmono2 & Hnullable).
  assert (Htyped : forall v,
            writeValue toTimestamp binary32 binary64 Value_eq schema w i v
            = Some (Ret (SUCCEEDED, w')) ->
            layout schema w' /\
            (forall k, k <> i -> isSetAt w' k = isSetAt w k) /\
            (forall k g, k <> i -> fields schema !! k = Some g ->
               f_nullable g = true ->
               checkNullBit w (f_nullFlagPos g) = true ->
               checkNullBit w' (f_nullFlagPos g) = true) /\
            frame i f w w').
  { intros v Hw.
    destruct (fill_typed w i f v w' Hlay Hf Hw) as (Hl & Hs & Hb & Hfr).
    split; [done|]. split; [done|]. split; [|done].
    intros k g Hk Hg Hn Hbit. by rewrite (Hb k g). }
  destruct (f_default f) as [v|] eqn:Hd.
  - rewrite andb_false_r.
    destruct (writeValue toTimestamp binary32 binary64 Value_eq schema w i v)
      as [res|] eqn:Hw.
    { destruct v; try discriminate Hw;
        (intros ->; destruct (Htyped _ Hw) as (Hl & Hs & Hb & Hfr); done). }
    destruct v; try discriminate Hw; try (intros H; discriminate H).
    intros [= <-]. split; [done|]. split; [done|]. split.
    { intros k g _ _ _. apply Hmono2. }
    split; [|split; [done|intros Hn; by destruct (Hnullable Hn)]].
    intros Hn. destruct (Hnullable (Hn _ eq_refl)). done.
  - destruct (f_nullable f) eqn:Hn; [|discriminate]. intros [= <-].
    destruct (Hnullable eq_refl) as [Hfr Hbit].
    split; [done|]. split; [done|]. split.
    { intros k g _ _ _. apply Hmono2. }
    split; done.
Qed.




End UnsetFields.

(** * Defaults that evaluate to NULLVALUE *)

Section NullDefaults.

Variable toTimestamp : Z -> option Z.
Variable binary32 : fpnum -> Z.
Variable binary64 : fpnum -> Z.
Variable Value_eq : Value -> Value -> bool.

Variable schema : Schema.

Lemma fillUnset_null_path w i f :
  fields schema !! i = Some f -> takesNullPath f ->
  fillUnset toTimestamp binary32 binary64 Value_eq schema w i
  = Ret (SUCCEEDED, setNullBit w (f_nullFlagPos f)).
Proof.
  intros Hf Hpath. unfold fillUnset, hasDefault. rewrite Hf.
  destruct Hpath as [[bad ->]|[-> ->]]; [|done].
  by rewrite andb_false_r.
Qed.

(** When every field that is not set takes the null path, the loop of
    [checkUnsetFields] only sets null flags, and it succeeds. *)
Lemma checkUnsetFrom_null_path indices w :
  (forall i f, i ∈ indices -> fields schema !! i = Some f ->
     isSetAt w i = false -> takesNullPath f) ->
  (forall i, i ∈ indices -> i < getNumFields schema) ->
  exists b,
    checkUnsetFrom toTimestamp binary32 binary64 Value_eq schema indices w
    = Ret (SUCCEEDED, with_buf w b) /\
    length b = length (buf_ w) /\
    (forall p, checkNullBit w p = true -> checkNullBit (with_buf w b) p = true) /\
    (forall i f, i ∈ indices -> fields schema !! i = Some f ->
       isSetAt w i = false ->
       nullByteOffset w (f_nullFlagPos f) < length (buf_ w) ->
       checkNullBit (with_buf w b) (f_nullFlagPos f) = true).
Proof.
  revert w. induction indices as [|i rest IH]; intros w Hpath Hrange.
  - exists (buf_ w). simpl. split; [by destruct w|]. split; [done|].
    split; [by destruct w|]. by intros i f Hi%elem_of_nil.
  - assert (Hilt : i < length (fields schema))
      by (apply Hrange; apply elem_of_cons; by left).
    destruct (lookup_lt_is_Some_2 _ _ Hilt) as [f Hf].
    assert (Hrange' : forall k, k ∈ rest -> k < getNumFields schema)
      by (intros k Hk; apply Hrange; apply elem_of_cons; by right).
    cbn [checkUnsetFrom]. destruct (isSetAt w i) eqn:Hset.
    + destruct (IH w) as (b & Hrun & Hlen & Hmono & Hbits); [|done|].
      { intros k g Hk. apply (Hpath k g). apply elem_of_cons. by right. }
      exists b. split; [done|]. split; [done|]. split; [done|].
      intros k g Hk Hg Hunset. apply elem_of_cons in Hk as [->|Hk];
        [congruence|by apply (Hbits k g)].
    + rewrite (fillUnset_null_path w i f Hf)
        by (apply (Hpath i f); [apply elem_of_cons; by left|done|done]).
      set (w2 := setNullBit w (f_nullFlagPos f)).
      assert (Hlen2 : length (buf_ w2) = length (buf_ w))
        by apply length_setNullBit.
      destruct (IH w2) as (b & Hrun & Hlen & Hmono & Hbits); [|done|].
      { intros k g Hk Hg Hunset. apply (Hpath k g); [|done|done].
        apply elem_of_cons. by right. }
      assert (Hsame : with_buf w2 b = with_buf w b) by done.
      rewrite Hsame in *.
      exists b. split; [done|]. split; [lia|]. split.
      * intros p Hp. apply Hmono. by apply checkNullBit_set_mono.
      * intros k g Hk Hg Hunset Hin.
        apply elem_of_cons in Hk as [->|Hk].
        -- assert (g = f) as -> by congruence.
           apply Hmono. by apply checkNullBit_set_same.
        -- apply (Hbits k g); try done. by rewrite Hlen2.
Qed.

(** C9: [finish] never returns NOT_NULLABLE.  At a field that is not set
    and whose default evaluates to NULLVALUE the loop of
    [checkUnsetFields] sets the bit at the field's [nullFlagPos] and goes
    on with the next field, whether or not the field is nullable.  When
    every field that is not set has such a default (or is nullable and has
    none) and no string was written twice, [finish] succeeds: the emitted
    row is the buffer, with null flags set, followed by the timestamp, no
    flag that was set is taken back, and for every field that was not set
    the bit at its [nullFlagPos] is 1, nullable or not. *)
Theorem null_default_skips_nullable_check (w : RowWriterV2) (ts : Z) :
  (forall r w',
     finish toTimestamp binary32 binary64 Value_eq schema w ts = Ret (r, w') ->
     r <> NOT_NULLABLE) /\
  (forall i field bad rest,
     fields schema !! i = Some field ->
     f_default field = Some (Null bad) ->
     isSetAt w i = false ->
     checkUnsetFrom toTimestamp binary32 binary64 Value_eq schema (i :: rest) w
     = checkUnsetFrom toTimestamp binary32 binary64 Value_eq schema rest
         (setNullBit w (f_nullFlagPos field))) /\
  (finished_ w = false -> outOfSpaceStr_ w = false ->
   (forall i field, fields schema !! i = Some field ->
      isSetAt w i = false -> takesNullPath field) ->
   exists w',
     finish toTimestamp binary32 binary64 Value_eq schema w ts
     = Ret (SUCCEEDED, w') /\
     length (buf_ w') = length (buf_ w) + 8 /\
     drop (length (buf_ w)) (buf_ w') = le_bytes 8 ts /\
     isSet_ w' = isSet_ w /\
     (forall p, checkNullBit w p = true -> checkNullBit w' p = true) /\
     (forall i field, fields schema !! i = Some field ->
        isSetAt w i = false ->
        nullByteOffset w (f_nullFlagPos field) < length (buf_ w) ->
        checkNullBit w' (f_nullFlagPos field) = true)).
Proof.
  split; [|split].
  - intros r w'. unfold finish, checkUnsetFields.
    destruct (finished_ w); [discriminate|].
    destruct (checkUnsetFrom _ _ _ _ _ _ _) as [[r1 w1]|] eqn:Hcheck;
      [|discriminate].
    apply checkUnsetFrom_code in Hcheck.
    intros H Hr. subst r.
    destruct r1; try (injection H as <- _);
      try (destruct Hcheck as [[?|[?|?]]|?]; discriminate).
    destruct (if outOfSpaceStr_ w1 then _ else _); discriminate.
  - intros i field bad rest Hfield Hdefault Hunset.
    cbn [checkUnsetFrom]. rewrite Hunset.
    rewrite (fillUnset_null_path w i field Hfield); [done|].
    left. by exists bad.
  - intros Hfin Hlatch Hpath. unfold finish, checkUnsetFields.
    rewrite Hfin.
    destruct (checkUnsetFrom_null_path (seq 0 (getNumFields schema)) w)
      as (b & Hrun & Hlen & Hmono & Hbits).
    { intros i f _. apply Hpath. }
    { intros i Hi%elem_of_seq. lia. }
    rewrite Hrun. wsimpl. rewrite Hlatch.
    eexists. split; [reflexivity|]. wsimpl.
    assert (Hagree : forall p,
              nullByteOffset w p < length b ->
              checkNullBit
                (with_finished (with_buf (with_buf w b) (b ++ le_bytes 8 ts))
                   true) p
              = checkNullBit (with_buf w b) p).
    { intros p Hp. apply checkNullBit_agree; [done|]. wsimpl.
      by apply lookup_app_l. }
    split; [rewrite length_app, length_le_bytes; lia|].
    split; [by rewrite <- Hlen, drop_app_length|].
    split; [done|]. split.
    + intros p Hp. rewrite Hagree; [by apply Hmono|].
      rewrite Hlen. by apply checkNullBit_in_buffer.
    + intros i field Hfield Hunset Hin. rewrite Hagree by lia.
      apply (Hbits i field); try done.
      apply elem_of_seq. apply lookup_lt_Some in Hfield.
      unfold getNumFields. lia.
Qed.

End NullDefaults.

(** * The theorems on concrete rows *)

Lemma write_bool_zero_pads_witness :
  exists w', write_bool int32Schema staleInt32Writer 0 true
             = Ret (SUCCEEDED, w') /\
    slotBytes w' int32Field 4 = [1; 0; 0; 0]%Z.
Proof.
  apply (write_bool_zero_pads int32Schema staleInt32Writer 0 int32Field 4 true);
    [reflexivity|reflexivity|discriminate|].
  split; [simpl; lia|discriminate].
Defined.

Lemma float_guard_before_round_witness :
  (exists w', write_double noBits noBits int8Schema int8Writer 0 (FFin (5 # 2))
              = Ret (SUCCEEDED, w') /\
     slotBytes w' int8Field 1 = [3]%Z) /\
  write_float noBits noBits int8Schema int8Writer 0 (FFin (- 257 # 2))
  = Ret (OUT_OF_RANGE, int8Writer).
Proof.
  split.
  - destruct (float_guard_before_round noBits noBits int8Schema int8Writer 0
                int8Field 1 (5 # 2)) as (_ & _ & Hok);
      [reflexivity|reflexivity|split; [simpl; lia|discriminate]|].
    destruct Hok as (_ & Hdouble & _); [vm_compute; discriminate..|].
    exact Hdouble.
  - destruct (float_guard_before_round noBits noBits int8Schema int8Writer 0
                int8Field 1 (- 257 # 2)) as (Hlow & _);
      [reflexivity|reflexivity|split; [simpl; lia|discriminate]|].
    apply Hlow. vm_compute. reflexivity.
Defined.

Lemma write_set_count_witness :
  (exists w', write_set noBits sameScalar setSchema freshWriter4 0
                [IntV 1; IntV 2] = Ret (SUCCEEDED, w') /\
     drop 5 (buf_ w') = [2; 0; 0; 0; 1; 0; 0; 0; 2; 0; 0; 0]%Z /\
     load_int32 (buf_ w') 1 = 5%Z /\
     uniqueFrom sameScalar [] [IntV 1; IntV 2] = [IntV 1; IntV 2]) /\
  (exists w', write_set noBits sameScalar setSchema freshWriter4 0
                [IntV 1; IntV 1; IntV 2] = Ret (SUCCEEDED, w') /\
     drop 9 (buf_ w') = [1; 0; 0; 0; 2; 0; 0; 0]%Z).
Proof.
  split.
  - eexists. split; [reflexivity|].
    edestruct (write_set_count noBits sameScalar setSchema freshWriter4 0
                 setField [IntV 1; IntV 2])
      as (Hpayload & Hslot & _ & _ & _ & Hcount);
      [reflexivity|split; [simpl; lia|discriminate]|reflexivity|].
    split; [exact Hpayload|]. split; [exact Hslot|].
    exact (proj1 (Hcount eq_refl)).
  - eexists. split; [reflexivity|].
    edestruct (write_set_count noBits sameScalar setSchema freshWriter4 0
                 setField [IntV 1; IntV 1; IntV 2])
      as (Hpayload & _);
      [reflexivity|split; [simpl; lia|discriminate]|reflexivity|].
    exact (f_equal (drop 4) Hpayload).
Defined.

Lemma list_set_mismatch_leaves_count_witness :
  exists w', write_list noBits listSchema freshWriter4 0
               [IntV 1; StringV []] = Ret (TYPE_MISMATCH, w') /\
    buf_ w' = [0x08; 0; 0; 0; 0; 2; 0; 0; 0]%Z /\
    isSet_ w' = [false] /\ w' <> freshWriter4.
Proof.
  eexists. split; [reflexivity|].
  edestruct (list_set_mismatch_leaves_count noBits sameScalar listSchema
               freshWriter4 0 listField [IntV 1; StringV []])
    as (Hbuf & _ & _ & Hset & Hne);
    [reflexivity|simpl; lia|left; reflexivity|].
  split; [exact Hbuf|]. split; [exact Hset|exact Hne].
Defined.

Lemma reseed_from_encoded_witness :
  exists w, RowWriterV2_fromEncoded stringSchema digitsRow = Ret w /\
    buf_ w = take 19 digitsRow /\
    isSet_ w = [true] /\
    approxStrLen_ w = 2%Z /\
    (Z.of_nat (length digitsRow) - Z.of_nat (headerLen_ w)
     - Z.of_nat (numNullBytes_ w) - Z.of_nat (size stringSchema) - 8 = 10)%Z /\
    exists w', setValue anyTimestamp noBits noBits sameScalar stringSchema w 0
                 (StringV hello) = Ret (SUCCEEDED, w') /\
      outOfSpaceStr_ w' = true /\ strList_ w' = [hello].
Proof.
  eexists. split; [reflexivity|].
  destruct (reseed_from_encoded anyTimestamp noBits noBits sameScalar
              stringSchema digitsRow) as [_ Hok]; [simpl; lia|].
  destruct (Hok _ eq_refl)
    as (Hbuf & _ & _ & _ & Hset & (_ & _ & Happrox) & Hstring & _).
  split; [exact Hbuf|]. split; [exact Hset|]. split; [|split].
  - apply Happrox; vm_compute; [discriminate|reflexivity].
  - reflexivity.
  - exact (Hstring 0 stringField hello eq_refl eq_refl).
Defined.

Lemma null_default_skips_nullable_check_witness :
  f_nullable nullDefaultField = false /\
  exists w', finish anyTimestamp noBits noBits sameScalar nullDefaultSchema
               int8Writer 7 = Ret (SUCCEEDED, w') /\
    buf_ w' = [0x08; 0x80; 7; 0; 0; 0; 0; 0; 0; 0]%Z /\
    checkNullBit w' (f_nullFlagPos nullDefaultField) = true.
Proof.
  split; [reflexivity|].
  destruct (null_default_skips_nullable_check anyTimestamp noBits noBits
              sameScalar nullDefaultSchema int8Writer 7)
    as (_ & _ & Hfinish).
  destruct Hfinish as (w' & Hrun & _ & _ & _ & _ & Hbit);
    [reflexivity|reflexivity| |].
  - intros [|i] field; [|done]. intros [= <-] _. left. by exists false.
  - exists w'. split; [exact Hrun|]. split.
    + vm_compute in Hrun. by injection Hrun as <-.
    + apply (Hbit 0); [reflexivity|reflexivity|vm_compute; lia].
Defined.

Lemma nullableSchema_wf : wfSchema nullableSchema.
Proof.
  constructor.
  - intros [|i] f; [|done]. intros [= <-]. simpl. lia.
  - intros [|i] f; [|done]. intros [= <-]. simpl. lia.
  - intros [|i] [|j] f g Hne; try done.
  - intros [|i] f; [|done]. intros [= <-] _. vm_compute. lia.
  - intros [|i] [|j] f g Hne; try done.
  - intros [|i] f bad; [|done]. by intros [= <-].
Defined.

Lemma nullableWriter_layout : layout nullableSchema nullableWriter.
Proof. constructor; vm_compute; lia. Defined.

Lemma stringSchema_wf : wfSchema stringSchema.
Proof.
  constructor.
  - intros [|i] f; [|done]. intros [= <-]. simpl. lia.
  - intros [|i] f; [|done]. intros [= <-]. simpl. lia.
  - intros [|i] [|j] f g Hne; try done.
  - intros [|i] f; [|done]. by intros [= <-].
  - intros [|i] [|j] f g Hne; try done.
  - intros [|i] f bad; [|done]. by intros [= <-].
Defined.

Lemma stringSchema_defaults : defaultsFit stringSchema.
Proof. intros [|i] f v; [|done]. by intros [= <-]. Defined.

Lemma helloWorldCalls_fit : Forall callFits helloWorldCalls.
Proof. repeat constructor; vm_compute; reflexivity. Defined.

Lemma emitted_string_is_last_written_witness :
  exists w0 w last w1 w',
    RowWriterV2_new stringSchema = Ret w0 /\
    performAll anyTimestamp noBits noBits sameScalar stringSchema w0
      (fun _ => None) helloWorldCalls = Ret (w, last) /\
    checkUnsetFields anyTimestamp noBits noBits sameScalar stringSchema w
    = Ret (SUCCEEDED, w1) /\
    finish anyTimestamp noBits noBits sameScalar stringSchema w 7
    = Ret (SUCCEEDED, w') /\
    buf_ w' = ([0x08; 9; 0; 0; 0; 5; 0; 0; 0] ++ world
               ++ [7; 0; 0; 0; 0; 0; 0; 0])%Z /\
    let off := load_int32 (buf_ w') (fieldOffset w' stringField) in
    let len := load_int32 (buf_ w') (fieldOffset w' stringField + 4) in
    (Z.of_nat (headerLen_ w' + numNullBytes_ w' + size stringSchema) <= off)%Z /\
    (off <= Z.of_nat (length (buf_ w')) - 8 - len)%Z /\
    (0 <= len)%Z /\
    exists s, noteDefaults stringSchema w last 0 = Some s /\
              slice (Z.to_nat off) (Z.to_nat len) (buf_ w') = s.
Proof.
  do 5 eexists.
  split; [vm_compute; reflexivity|].
  split; [vm_compute; reflexivity|].
  split; [vm_compute; reflexivity|].
  split; [vm_compute; reflexivity|].
  split; [vm_compute; reflexivity|].
  eapply (emitted_string_is_last_written anyTimestamp noBits noBits sameScalar
            stringSchema stringSchema_wf stringSchema_defaults
            helloWorldCalls _ _ _ _ _ 7%Z 0 stringField);
    [ exact helloWorldCalls_fit
    | vm_compute; reflexivity
    | vm_compute; reflexivity
    | vm_compute; reflexivity
    | split; vm_compute; reflexivity
    | vm_compute; reflexivity
    | vm_compute; reflexivity
    | reflexivity
    | reflexivity
    | vm_compute; discriminate ].
Defined.

(** C1, evaluated: the string "hi" is written to the first field of a
    fresh writer and the second field, which is not nullable and whose
    default evaluates to NULLVALUE, is left to [finish].  Before [finish]
    the slot of the string holds offset 10 and length 2, and the two bytes
    at offset 10 are the string.  [finish] succeeds; the defaults filler
    has set the bit at flag position 0, which, the schema having no null
    bitmap, is the top bit of the first byte of the slot: the emitted row
    has 20 bytes and the slot holds offset 138, past the end of the
    row. *)
Theorem null_default_corrupts_string_slot :
  exists w0 w w',
    RowWriterV2_new stringNullDefaultSchema = Ret w0 /\
    numNullBytes_ w0 = 0 /\
    setValue anyTimestamp noBits noBits sameScalar stringNullDefaultSchema
      w0 0 (StringV hi) = Ret (SUCCEEDED, w) /\
    load_int32 (buf_ w) (fieldOffset w stringField) = 10%Z /\
    load_int32 (buf_ w) (fieldOffset w stringField + 4) = 2%Z /\
    slice 10 2 (buf_ w) = hi /\
    finish anyTimestamp noBits noBits sameScalar stringNullDefaultSchema w 7
    = Ret (SUCCEEDED, w') /\
    buf_ w' = [0x08; 138; 0; 0; 0; 2; 0; 0; 0; 0; 0x68; 0x69;
               7; 0; 0; 0; 0; 0; 0; 0]%Z /\
    load_int32 (buf_ w') (fieldOffset w' stringField) = 138%Z /\
    load_int32 (buf_ w') (fieldOffset w' stringField + 4) = 2%Z /\
    ~ (138 <= Z.of_nat (length (buf_ w')) - 8 - 2)%Z /\
    slice 138 2 (buf_ w') <> hi.
Proof.
  do 3 eexists.
  split; [vm_compute; reflexivity|].
  split; [vm_compute; reflexivity|].
  split; [vm_compute; reflexivity|].
  split; [vm_compute; reflexivity|].
  split; [vm_compute; reflexivity|].
  split; [vm_compute; reflexivity|].
  split; [vm_compute; reflexivity|].
  split; [vm_compute; reflexivity|].
  split; [vm_compute; reflexivity|].
  split; [vm_compute; reflexivity|].
  split; [intros H; vm_compute in H; by apply H|].
  vm_compute. discriminate.
Qed.

(** C5, evaluated: a list is written to the second field and the string
    of the first field is written twice, which sets the out-of-space
    latch.  Before [finish] the slot of the list holds 13, the offset of
    its payload (count 1, element 7).  In the emitted row the slot still
    holds 13, but the row was rebuilt from the fixed part and the strings
    alone: the payload is gone and offset 13 is where the string and the
    timestamp now are. *)
Theorem list_payload_dropped_by_canonicalization :
  exists w last w',
    performAll anyTimestamp noBits noBits sameScalar stringListSchema
      {| buf_ := [0x08; 0; 0; 0; 0; 0; 0; 0; 0; 0; 0; 0; 0]%Z;
         headerLen_ := 1; numNullBytes_ := 0; isSet_ := [false; false];
         outOfSpaceStr_ := false; strList_ := []; approxStrLen_ := 0;
         finished_ := false |}
      (fun _ => None) listThenOverwrite = Ret (w, last) /\
    RowWriterV2_new stringListSchema
    = Ret {| buf_ := [0x08; 0; 0; 0; 0; 0; 0; 0; 0; 0; 0; 0; 0]%Z;
             headerLen_ := 1; numNullBytes_ := 0; isSet_ := [false; false];
             outOfSpaceStr_ := false; strList_ := []; approxStrLen_ := 0;
             finished_ := false |} /\
    outOfSpaceStr_ w = true /\
    load_int32 (buf_ w) 9 = 13%Z /\
    slice 13 8 (buf_ w) = [1; 0; 0; 0; 7; 0; 0; 0]%Z /\
    finish anyTimestamp noBits noBits sameScalar stringListSchema w 7
    = Ret (SUCCEEDED, w') /\
    buf_ w' = [0x08; 13; 0; 0; 0; 1; 0; 0; 0; 13; 0; 0; 0; 0x62;
               7; 0; 0; 0; 0; 0; 0; 0]%Z /\
    load_int32 (buf_ w') 9 = 13%Z /\
    slice 13 8 (buf_ w') <> [1; 0; 0; 0; 7; 0; 0; 0]%Z.
Proof.
  do 3 eexists.
  split; [vm_compute; reflexivity|].
  split; [vm_compute; reflexivity|].
  split; [vm_compute; reflexivity|].
  split; [vm_compute; reflexivity|].
  split; [vm_compute; reflexivity|].
  split; [vm_compute; reflexivity|].
  split; [vm_compute; reflexivity|].
  split; [vm_compute; reflexivity|].
  vm_compute. discriminate.
Qed.

(** * What no call takes back *)

Lemma grows_refl w : grows w w.
Proof. by constructor. Qed.

Lemma grows_trans w1 w2 w3 : grows w1 w2 -> grows w2 w3 -> grows w1 w3.
Proof.
  intros [Hh Hn Hhd Hl Hsl Hs Hstr Hlatch Hf]
         [Hh' Hn' Hhd' Hl' Hsl' Hs' Hstr' Hlatch' Hf'].
  constructor.
  - congruence.
  - congruence.
  - intros Hin. rewrite Hh in Hhd'. rewrite Hhd' by lia. by apply Hhd.
  - lia.
  - congruence.
  - auto.
  - by etrans.
  - auto.
  - congruence.
Qed.

Lemma grows_with_buf w w1 b :
  grows w w1 ->
  length (buf_ w1) <= length b ->
  (headerLen_ w <= length (buf_ w1) ->
   take (headerLen_ w) b = take (headerLen_ w) (buf_ w1)) ->
  grows w (with_buf w1 b).
Proof.
  intros [Hh Hn Hhd Hl Hsl Hs Hstr Hlatch Hf] Hlen Hb.
  constructor; wsimpl; try done; try lia.
  intros Hin. rewrite Hb by lia. by apply Hhd.
Qed.

Lemma take_inserts_above (b src : list Z) n off :
  n <= off -> take n (list_inserts off src b) = take n b.
Proof.
  intros H. apply list_eq. intros i. rewrite !lookup_take.
  case_decide; [|done]. apply list_lookup_inserts_lt. lia.
Qed.

Lemma take_insert_above (b : list Z) n k x :
  n <= k -> take n (<[k := x]> b) = take n b.
Proof.
  intros H. apply list_eq. intros i. rewrite !lookup_take.
  case_decide; [|done]. apply list_lookup_insert_ne. lia.
Qed.

Lemma grows_store w w1 off src :
  grows w w1 -> headerLen_ w <= off -> grows w (store w1 off src).
Proof.
  intros Hg Hoff. apply grows_with_buf; [done| |].
  - by rewrite length_inserts.
  - intros _. by apply take_inserts_above.
Qed.

Lemma grows_insert w w1 k x :
  grows w w1 -> headerLen_ w <= k ->
  grows w (with_buf w1 (<[k := x]> (buf_ w1))).
Proof.
  intros Hg Hk. apply grows_with_buf; [done| |].
  - by rewrite length_insert.
  - intros _. by apply take_insert_above.
Qed.

Lemma grows_append w w1 b t :
  grows w w1 -> b = buf_ w1 ++ t -> grows w (with_buf w1 b).
Proof.
  intros Hg ->. apply grows_with_buf; [done| |].
  - rewrite length_app. lia.
  - intros Hin. by rewrite take_app_le.
Qed.

Lemma grows_with_buf_same w w1 b :
  grows w w1 -> b = buf_ w1 -> grows w (with_buf w1 b).
Proof. intros [] ->. by constructor. Qed.

Lemma grows_with_isSet w w1 index :
  grows w w1 -> grows w (with_isSet w1 (<[index := true]> (isSet_ w1))).
Proof.
  intros [Hh Hn Hhd Hl Hsl Hs Hstr Hlatch Hf].
  constructor; wsimpl; try done.
  - by rewrite length_insert.
  - intros k Hk. specialize (Hs k Hk). unfold isSetAt in *. wsimpl.
    destruct (decide (k = index)) as [->|Hne].
    + rewrite list_lookup_insert_eq; [done|].
      destruct (isSet_ w1 !! index) eqn:E; [|discriminate].
      by eapply lookup_lt_Some.
    + by rewrite list_lookup_insert_ne.
Qed.

Lemma grows_latch w w1 (c : bool) :
  grows w w1 -> grows w (if c then with_outOfSpaceStr w1 true else w1).
Proof. intros Hg. destruct c; [|done]. destruct Hg. by constructor. Qed.

Lemma grows_latched w w1 : grows w w1 -> grows w (with_outOfSpaceStr w1 true).
Proof. apply (grows_latch w w1 true). Qed.

Lemma grows_with_strList w w1 l s :
  grows w w1 -> l = strList_ w1 ++ [s] -> grows w (with_strList w1 l).
Proof.
  intros [Hh Hn Hhd Hl Hsl Hs Hstr Hlatch Hf] ->.
  constructor; wsimpl; try done. by apply prefix_app_r.
Qed.

Lemma grows_with_approxStrLen w w1 n :
  grows w w1 -> grows w (with_approxStrLen w1 n).
Proof. intros []. by constructor. Qed.

Lemma grows_clearNullBit w w1 pos : grows w w1 -> grows w (clearNullBit w1 pos).
Proof.
  intros Hg. unfold clearNullBit. apply grows_insert; [done|].
  unfold nullByteOffset. destruct Hg. lia.
Qed.

Lemma grows_setNullBit w w1 pos : grows w w1 -> grows w (setNullBit w1 pos).
Proof.
  intros Hg. unfold setNullBit. apply grows_insert; [done|].
  unfold nullByteOffset. destruct Hg. lia.
Qed.

Lemma grows_succeed w w1 f index r w' :
  grows w w1 -> succeed w1 f index = Ret (r, w') -> grows w w'.
Proof.
  intros Hg. unfold succeed. intros [= <- <-].
  apply grows_with_isSet. destruct (f_nullable f); [|done].
  by apply grows_clearNullBit.
Qed.

Ltac grows_solve :=
  repeat first
    [ apply grows_refl
    | apply grows_store; [ | unfold fieldOffset; lia ]
    | apply grows_insert; [ | unfold fieldOffset; lia ]
    | eapply grows_with_buf_same; [ | wsimpl; reflexivity ]
    | eapply grows_append; [ | wsimpl; reflexivity ]
    | apply grows_latch
    | apply grows_latched
    | eapply grows_with_strList; [ | wsimpl; reflexivity ]
    | apply grows_with_approxStrLen ].

Ltac grows_leaf H :=
  lazymatch type of H with
  | succeed _ _ _ = _ => eapply grows_succeed; [ | exact H ]; grows_solve
  | _ => injection H as <- <-; grows_solve
  end.

Section Grows.

Variable toTimestamp : Z -> option Z.
Variable binary32 : fpnum -> Z.
Variable binary64 : fpnum -> Z.
Variable Value_eq : Value -> Value -> bool.
Variable schema : Schema.

Lemma write_bool_grows w index v r w' :
  write_bool schema w index v = Ret (r, w') -> grows w w'.
Proof.
  unfold write_bool. intros H.
  destruct (fields schema !! index) as [f|]; [|discriminate].
  cbv zeta in H.
  destruct (f_type f); try (injection H as <- <-; apply grows_refl);
    (eapply grows_succeed; [|exact H]);
    (apply grows_with_buf; [apply grows_refl| |]);
    rewrite ?length_insert; try done;
    intros _; rewrite ?take_insert_above by (unfold fieldOffset; lia); done.
Qed.

Lemma write_int64_grows w index v r w' :
  write_int64 toTimestamp binary32 binary64 schema w index v = Ret (r, w') ->
  grows w w'.
Proof.
  unfold write_int64, storeNarrow. intros H.
  destruct (fields schema !! index) as [f|]; [|discriminate].
  cbv zeta in H. destruct (f_type f); repeat case_match; grows_leaf H.
Qed.

Lemma write_double_grows w index v r w' :
  write_double binary32 binary64 schema w index v = Ret (r, w') -> grows w w'.
Proof.
  unfold write_double, storeRounded. intros H.
  destruct (fields schema !! index) as [f|]; [|discriminate].
  cbv zeta in H.
  destruct (f_type f); repeat case_match; try discriminate; grows_leaf H.
Qed.

Lemma write_float_grows w index v r w' :
  write_float binary32 binary64 schema w index v = Ret (r, w') -> grows w w'.
Proof.
  unfold write_float, storeRounded. intros H.
  destruct (fields schema !! index) as [f|]; [|discriminate].
  cbv zeta in H.
  destruct (f_type f); repeat case_match; try discriminate; grows_leaf H.
Qed.

Lemma write_date_grows w index v r w' :
  write_date schema w index v = Ret (r, w') -> grows w w'.
Proof.
  unfold write_date. intros H.
  destruct (fields schema !! index) as [f|]; [|discriminate].
  cbv zeta in H. destruct (f_type f); grows_leaf H.
Qed.

Lemma write_time_grows w index v r w' :
  write_time schema w index v = Ret (r, w') -> grows w w'.
Proof.
  unfold write_time. intros H.
  destruct (fields schema !! index) as [f|]; [|discriminate].
  cbv zeta in H. destruct (f_type f); grows_leaf H.
Qed.

Lemma write_datetime_grows w index v r w' :
  write_datetime schema w index v = Ret (r, w') -> grows w w'.
Proof.
  unfold write_datetime. intros H.
  destruct (fields schema !! index) as [f|]; [|discriminate].
  cbv zeta in H. destruct (f_type f); grows_leaf H.
Qed.

Lemma write_duration_grows w index v r w' :
  write_duration schema w index v = Ret (r, w') -> grows w w'.
Proof.
  unfold write_duration. intros H.
  destruct (fields schema !! index) as [f|]; [|discriminate].
  cbv zeta in H. destruct (f_type f); grows_leaf H.
Qed.

Lemma write_string_grows w index v isWKB r w' :
  write_string schema w index v isWKB = Ret (r, w') -> grows w w'.
Proof.
  unfold write_string. intros H.
  destruct (fields schema !! index) as [f|]; [|discriminate].
  cbv zeta in H.
  destruct (f_type f);
    try (injection H as <- <-; apply grows_refl);
    repeat case_match; try discriminate; simplify_eq;
    first [ apply grows_refl | grows_leaf H ].
Qed.

Lemma write_geography_grows w index v r w' :
  write_geography schema w index v = Ret (r, w') -> grows w w'.
Proof.
  unfold write_geography. intros H.
  destruct (fields schema !! index) as [f|]; [|discriminate].
  destruct (_ && _).
  - injection H as <- <-. apply grows_refl.
  - by eapply write_string_grows.
Qed.

Lemma write_list_grows w index v r w' :
  write_list binary32 schema w index v = Ret (r, w') -> grows w w'.
Proof.
  unfold write_list. intros H.
  destruct (fields schema !! index) as [f|]; [|discriminate].
  cbv zeta in H.
  destruct (listElemType (f_type f)) as [vt|] eqn:Hvt.
  - destruct (writeList _ _ _ _) as [[r1 b]|] eqn:Hw; [|discriminate].
    apply writeList_result in Hw; [|by eapply listElemType_scalar].
    destruct Hw as [(-> & -> & _)|(-> & ->)].
    + injection H as <- <-. wsimpl. grows_solve.
    + grows_leaf H.
  - injection H as <- <-. grows_solve.
Qed.

Lemma write_set_grows w index v r w' :
  write_set binary32 Value_eq schema w index v = Ret (r, w') -> grows w w'.
Proof.
  unfold write_set. intros H.
  destruct (fields schema !! index) as [f|]; [|discriminate].
  cbv zeta in H.
  destruct (setElemType (f_type f)) as [vt|] eqn:Hvt.
  - destruct (writeSet _ _ _ _ _) as [[r1 b]|] eqn:Hw; [|discriminate].
    apply writeSet_result in Hw; [|by eapply setElemType_scalar].
    destruct Hw as [(-> & -> & _)|(-> & ->)].
    + injection H as <- <-. wsimpl. grows_solve.
    + grows_leaf H.
  - injection H as <- <-. grows_solve.
Qed.

Lemma writeValue_grows w index v r w' :
  writeValue toTimestamp binary32 binary64 Value_eq schema w index v
  = Some (Ret (r, w')) ->
  grows w w'.
Proof.
  destruct v; simpl; intros [= H];
    eauto using write_bool_grows, write_int64_grows, write_double_grows,
      write_string_grows, write_date_grows, write_time_grows,
      write_datetime_grows, write_geography_grows, write_duration_grows,
      write_list_grows, write_set_grows.
Qed.

Lemma setNull_grows w index r w' :
  setNull schema w index = Ret (r, w') -> grows w w'.
Proof.
  unfold setNull. intros H.
  repeat case_match; try discriminate; injection H as <- <-;
    try apply grows_refl.
  match goal with
  | |- grows ?w (with_isSet ?w1 _) => apply (grows_with_isSet w w1)
  end.
  apply grows_setNullBit, grows_refl.
Qed.

Lemma setValue_grows w index v r w' :
  setValue toTimestamp binary32 binary64 Value_eq schema w index v
  = Ret (r, w') ->
  grows w w'.
Proof.
  unfold setValue. intros H.
  destruct (finished_ w); [discriminate|].
  destruct (_ || _); [injection H as <- <-; apply grows_refl|].
  destruct (writeValue toTimestamp binary32 binary64 Value_eq schema w
              (Z.to_nat index) v) as [res|] eqn:Hw.
  - destruct v; try discriminate; subst res; by eapply writeValue_grows.
  - destruct v; try discriminate.
    + injection H as <- <-. apply grows_refl.
    + destruct bad; [injection H as <- <-; apply grows_refl|].
      by eapply setNull_grows.
    + injection H as <- <-. apply grows_refl.
Qed.

Lemma perform_grows w c r w' :
  perform toTimestamp binary32 binary64 Value_eq schema w c = Ret (r, w') ->
  grows w w'.
Proof.
  destruct c; simpl; [apply setValue_grows|apply setNull_grows].
Qed.

Lemma performAll_grows calls w last w' last' :
  performAll toTimestamp binary32 binary64 Value_eq schema w last calls
  = Ret (w', last') ->
  grows w w'.
Proof.
  revert w last. induction calls as [|c rest IH]; intros w last; simpl.
  - intros [= <- <-]. apply grows_refl.
  - destruct (perform _ _ _ _ _ _ c) as [[r w1]|] eqn:Hp; [|discriminate].
    intros Hrest. eapply grows_trans; [by eapply perform_grows|by eapply IH].
Qed.

Lemma fillUnset_grows w i r w' :
  fillUnset toTimestamp binary32 binary64 Value_eq schema w i = Ret (r, w') ->
  grows w w'.
Proof.
  unfold fillUnset. intros H.
  destruct (fields schema !! i) as [f|]; [|discriminate].
  destruct (_ && _); [injection H as <- <-; apply grows_refl|].
  destruct (f_default f) as [v|].
  - destruct (writeValue toTimestamp binary32 binary64 Value_eq schema w i v)
      as [res|] eqn:Hw.
    + destruct v; try discriminate; subst res; by eapply writeValue_grows.
    + destruct v; try discriminate.
      injection H as <- <-. apply grows_setNullBit, grows_refl.
  - injection H as <- <-. apply grows_setNullBit, grows_refl.
Qed.

Lemma checkUnsetFrom_grows indices w r w' :
  checkUnsetFrom toTimestamp binary32 binary64 Value_eq schema indices w
  = Ret (r, w') ->
  grows w w'.
Proof.
  revert w. induction indices as [|i rest IH]; intros w; simpl.
  - intros [= <- <-]. apply grows_refl.
  - destruct (isSetAt w i); [apply IH|].
    destruct (fillUnset _ _ _ _ _ _ _) as [[r1 w1]|] eqn:Hfill; [|discriminate].
    apply fillUnset_grows in Hfill.
    destruct r1; try (intros [= <- <-]; exact Hfill).
    intros Hrest. eapply grows_trans; [exact Hfill|by eapply IH].
Qed.

End Grows.

(** * The header, written and read back *)

Lemma resize_exact (l : list Z) n x : length l = n -> resize n x l = l.
Proof. intros <-. apply resize_all. Qed.

(** The header of a fresh writer: the byte that announces the number of
    version bytes, then the version in that many bytes. *)
Lemma new_header schema w :
  (0 <= getVersion schema)%Z ->
  RowWriterV2_new schema = Ret w ->
  exists k, headerLen_ w = S k /\ k <= 7 /\
    (getVersion schema < 2 ^ (8 * Z.of_nat k))%Z /\
    take (S k) (buf_ w) = headerByte k :: le_bytes k (getVersion schema) /\
    length (buf_ w) = S k + numNullBytes_ w + size schema.
Proof.
  intros Hver. unfold RowWriterV2_new.
  destruct (Z.ltb_spec 0 (getVersion schema)) as [Hpos|Hzero].
  - destruct (headerFor (getVersion schema)) as [[h n]|] eqn:Hh; [|discriminate].
    intros [= <-]. wsimpl.
    unfold headerFor in Hh.
    repeat match type of Hh with
    | (if ?c then _ else _) = _ => destruct c eqn:?
    end; try discriminate; injection Hh as <- <-;
    repeat match goal with
    | H : (_ <=? _)%Z = true |- _ => apply Z.leb_le in H
    | H : (_ <? _)%Z = true |- _ => apply Z.ltb_lt in H
    | H : (_ <=? _)%Z = false |- _ => clear H
    | H : (_ <? _)%Z = false |- _ => clear H
    end;
    match goal with
    | |- exists k, ?n = S k /\ _ => exists (pred n)
    end; cbn [pred];
    (split; [reflexivity|]); (split; [lia|]); (split; [lia|]);
    rewrite length_resize; (split; [|reflexivity]);
    rewrite take_resize_le by lia;
    apply resize_exact; cbn [app length byte_at]; simpl Z.to_nat;
    rewrite length_le_bytes; reflexivity.
  - intros [= <-]. wsimpl. exists 0.
    split; [reflexivity|]. split; [lia|]. split; [simpl; lia|].
    split; [reflexivity|]. cbn [length]. by rewrite length_resize.
Qed.

Lemma headerByte_bits k :
  k <= 7 ->
  Z.land (headerByte k) 0x18 = 0x08%Z /\
  Z.to_nat (Z.land (headerByte k) 0x07) = k.
Proof.
  intros Hk. do 8 (destruct k as [|k]; [split; reflexivity|]). lia.
Qed.

(** A buffer that begins with such a header is accepted for the schema
    whose version the header holds. *)
Lemma decode_header schema b k :
  k <= 7 ->
  (0 <= getVersion schema < 2 ^ (8 * Z.of_nat k))%Z ->
  take (S k) b = headerByte k :: le_bytes k (getVersion schema) ->
  exists w, processV2EncodedStr schema b = Ret w /\
    buf_ w = b /\ headerLen_ w = S k /\
    numNullBytes_ w = nullBytesFor (getNumNullableFields schema) /\
    isSet_ w = replicate (getNumFields schema) true /\
    outOfSpaceStr_ w = false /\ strList_ w = [] /\ finished_ w = false.
Proof.
  intros Hk Hver Htake.
  destruct b as [|h b']; [discriminate|].
  cbn [take] in Htake. injection Htake as -> Hrest.
  destruct (headerByte_bits k Hk) as [Hsig Hcnt].
  assert (Hlen : k <= length b').
  { pose proof (f_equal length Hrest) as Hl.
    rewrite length_take, length_le_bytes in Hl. lia. }
  unfold processV2EncodedStr.
  change (byte_at (headerByte k :: b') 0) with (headerByte k).
  rewrite Hsig, Hcnt. cbn [Z.eqb Pos.eqb negb].
  destruct (Nat.leb_spec (k + 1) (length (headerByte k :: b'))) as [_|Hshort];
    [|simpl in Hshort; lia].
  cbn [negb andb].
  assert (Hdec : (if 0 <? k
                  then le_unsigned (take k (drop 1 (headerByte k :: b')))
                  else 0%Z) = getVersion schema).
  { destruct (Nat.ltb_spec 0 k) as [Hpos|Hzero].
    - change (drop 1 (headerByte k :: b')) with b'.
      rewrite Hrest, le_unsigned_le_bytes.
      apply Z.mod_small. lia.
    - assert (k = 0) as -> by lia. simpl in Hver. lia. }
  rewrite Hdec, Z.eqb_refl. cbn [negb].
  eexists. split; [reflexivity|]. wsimpl.
  repeat split; try reflexivity. lia.
Qed.

Lemma stripTrailer_app (b t : list Z) :
  length t = 8 -> stripTrailer (b ++ t) = b.
Proof.
  intros Ht. unfold stripTrailer. rewrite length_app, Ht.
  destruct (Nat.ltb_spec (length b + 8) 8); [lia|].
  replace (length b + 8 - 8) with (length b) by lia.
  by rewrite take_app_length.
Qed.

Lemma processOutOfSpace_header schema w b :
  processOutOfSpace schema w = Ret b ->
  headerLen_ w + numNullBytes_ w + size schema <= length b /\
  forall j, j < headerLen_ w + numNullBytes_ w -> b !! j = buf_ w !! j.
Proof.
  unfold processOutOfSpace.
  destruct (Nat.ltb_spec (length (buf_ w))
              (headerLen_ w + numNullBytes_ w + size schema)) as [|Hlen];
    [discriminate|].
  intros Hrun. split.
  - apply processStrings_length in Hrun. rewrite length_take in Hrun. lia.
  - intros j Hj.
    rewrite (processStrings_bitmap _ _ _ _ Hrun)
      by (rewrite ?length_take; lia).
    apply lookup_take_lt. lia.
Qed.

Section Reopen.

Variable toTimestamp : Z -> option Z.
Variable binary32 : fpnum -> Z.
Variable binary64 : fpnum -> Z.
Variable Value_eq : Value -> Value -> bool.
Variable schema : Schema.

(** The steps of a [finish] that succeeds. *)
Lemma finish_succeeded w ts w' :
  finish toTimestamp binary32 binary64 Value_eq schema w ts
  = Ret (SUCCEEDED, w') ->
  finished_ w = false /\
  exists w1 b,
    checkUnsetFields toTimestamp binary32 binary64 Value_eq schema w
    = Ret (SUCCEEDED, w1) /\
    (if outOfSpaceStr_ w1 then processOutOfSpace schema w1 = Ret b
     else b = buf_ w1) /\
    w' = with_finished (with_buf w1 (b ++ le_bytes 8 ts)) true.
Proof.
  unfold finish. destruct (finished_ w); [discriminate|].
  destruct (checkUnsetFields _ _ _ _ _ _) as [[r w1]|] eqn:Hcheck;
    [|discriminate].
  destruct r; try discriminate.
  destruct (outOfSpaceStr_ w1) eqn:Hoos.
  - destruct (processOutOfSpace schema w1) as [b|] eqn:Hp; [|discriminate].
    intros [= <-]. split; [done|]. exists w1, b. rewrite Hoos. auto.
  - intros [= <-]. split; [done|]. exists w1, (buf_ w1). rewrite Hoos. auto.
Qed.

(** The header of the row [finish] emits is the header the writer began
    with. *)
Lemma finish_header w ts w' :
  headerLen_ w <= length (buf_ w) ->
  finish toTimestamp binary32 binary64 Value_eq schema w ts
  = Ret (SUCCEEDED, w') ->
  exists b, buf_ w' = b ++ le_bytes 8 ts /\
    headerLen_ w' = headerLen_ w /\ numNullBytes_ w' = numNullBytes_ w /\
    take (headerLen_ w) b = take (headerLen_ w) (buf_ w).
Proof.
  intros Hin Hfin.
  destruct (finish_succeeded _ _ _ Hfin) as (_ & w1 & b & Hcheck & Hb & ->).
  apply checkUnsetFrom_grows in Hcheck.
  destruct Hcheck as [Hh Hn Hhd Hl _ _ _ _ _].
  exists b. wsimpl. split; [done|]. split; [done|]. split; [done|].
  rewrite <- Hhd by done.
  destruct (outOfSpaceStr_ w1).
  - destruct (processOutOfSpace_header _ _ _ Hb) as [Hlen Hsame].
    apply list_eq. intros i. rewrite !lookup_take.
    case_decide; [|done]. apply Hsame. lia.
  - by subst b.
Qed.

End Reopen.

Section ReopenEmitted.

Variable toTimestamp : Z -> option Z.
Variable binary32 : fpnum -> Z.
Variable binary64 : fpnum -> Z.
Variable Value_eq : Value -> Value -> bool.
Variable schema : Schema.

(** X1: no call of the public interface takes back what is there: after any
    sequence of [setValue] and [setNull] calls, whatever each returned,
    the header length, the number of null bytes and the header bytes are
    as before, the buffer is at least as long, every field that was set is
    still set, the out-of-space list has only been extended and its latch
    is still set if it was; the same holds after a [finish] that fails. *)
Theorem calls_never_take_back (calls : list call) (w w' : RowWriterV2)
  (last last' : nat -> option (list Z)) :
  performAll toTimestamp binary32 binary64 Value_eq schema w last calls
  = Ret (w', last') ->
  grows w w' /\
  forall ts r w'',
    finish toTimestamp binary32 binary64 Value_eq schema w' ts = Ret (r, w'') ->
    r <> SUCCEEDED -> grows w w''.
Proof.
  intros Hcalls. apply performAll_grows in Hcalls. split; [exact Hcalls|].
  intros ts r w''. unfold finish, checkUnsetFields.
  destruct (finished_ w'); [discriminate|].
  destruct (checkUnsetFrom _ _ _ _ _ _ _) as [[r1 w1]|] eqn:Hcheck;
    [|discriminate].
  apply checkUnsetFrom_grows in Hcheck.
  destruct r1;
    try (intros [= <- <-] _; eapply grows_trans; [exact Hcalls|exact Hcheck]).
  destruct (if outOfSpaceStr_ w1 then _ else _); [|discriminate].
  intros [= <- _] Hr. by destruct Hr.
Qed.

(** X2: a row that was built for a schema of version zero or more and
    finished can be opened again: the writer made from the emitted row and
    the same schema is not refused, works on the row without the eight
    bytes of the timestamp, and has the header length and the number of
    null bytes of the writer that emitted the row. *)
Theorem emitted_row_reopens (calls : list call) (w0 w w' : RowWriterV2)
  (last0 last : nat -> option (list Z)) (ts : Z) :
  (0 <= getVersion schema)%Z ->
  RowWriterV2_new schema = Ret w0 ->
  performAll toTimestamp binary32 binary64 Value_eq schema w0 last0 calls
  = Ret (w, last) ->
  finish toTimestamp binary32 binary64 Value_eq schema w ts
  = Ret (SUCCEEDED, w') ->
  exists w2, RowWriterV2_fromEncoded schema (buf_ w') = Ret w2 /\
    buf_ w2 ++ le_bytes 8 ts = buf_ w' /\
    headerLen_ w2 = headerLen_ w' /\
    numNullBytes_ w2 = numNullBytes_ w' /\
    isSet_ w2 = replicate (getNumFields schema) true /\
    outOfSpaceStr_ w2 = false /\ strList_ w2 = [] /\ finished_ w2 = false.
Proof.
  intros Hver Hnew Hcalls Hfin.
  destruct (new_header _ _ Hver Hnew) as (k & Hh0 & Hk & Hlt & Htake & Hlen0).
  destruct (new_writer _ _ Hnew) as ([_ Hnb0 _ _] & _).
  apply performAll_grows in Hcalls.
  destruct Hcalls as [Hh Hn Hhd Hl _ _ _ _ _].
  assert (Hin : headerLen_ w <= length (buf_ w)) by lia.
  destruct (finish_header _ _ _ _ _ _ _ _ Hin Hfin)
    as (b & Hbuf & Hh' & Hn' & Hhead).
  unfold RowWriterV2_fromEncoded. rewrite Hbuf.
  rewrite stripTrailer_app by apply length_le_bytes.
  destruct (decode_header schema b k Hk) as (w2 & Hdec & Hb2 & Hh2 & Hn2 & Hrest).
  - lia.
  - rewrite <- Htake. rewrite <- Hh0, <- Hh, Hhead, Hh. apply Hhd. lia.
  - exists w2. split; [exact Hdec|]. split; [by rewrite Hb2|].
    split; [lia|]. split; [congruence|]. exact Hrest.
Qed.

End ReopenEmitted.

(** X3: a schema version below zero takes the branch of version zero: the
    header is the single byte 0x08 with no version bytes, and a writer made
    from such a buffer with the same schema fails the check of the
    version. *)
Theorem negative_version_written_as_zero (schema : Schema) :
  (getVersion schema < 0)%Z ->
  exists w, RowWriterV2_new schema = Ret w /\
    headerLen_ w = 1 /\ take 1 (buf_ w) = [0x08%Z] /\
    processV2EncodedStr schema (buf_ w) = Abort Fatal.
Proof.
  intros Hneg. unfold RowWriterV2_new.
  destruct (Z.ltb_spec 0 (getVersion schema)); [lia|].
  eexists. split; [reflexivity|]. wsimpl.
  split; [reflexivity|]. split; [reflexivity|].
  unfold processV2EncodedStr.
  change (byte_at (resize _ _ _) 0) with 8%Z.
  change (Z.land 8 24 =? 8)%Z with true.
  change (Z.to_nat (Z.land 8 7)) with 0.
  cbv beta iota. cbn [negb]. rewrite andb_false_r.
  change (0 <? 0) with false. cbv iota.
  destruct (Z.eqb_spec 0 (getVersion schema)); [lia|]. reflexivity.
Qed.

Lemma calls_never_take_back_witness :
  exists w' last',
    performAll anyTimestamp noBits noBits sameScalar stringSchema stringWriter
      (fun _ => None) helloWorldCalls = Ret (w', last') /\
    grows stringWriter w'.
Proof.
  do 2 eexists. split; [vm_compute; reflexivity|].
  refine (proj1 (calls_never_take_back anyTimestamp noBits noBits sameScalar
                   stringSchema helloWorldCalls stringWriter _
                   (fun _ => None) _ _)).
  vm_compute. reflexivity.
Defined.

Lemma emitted_row_reopens_witness :
  exists w2,
    RowWriterV2_fromEncoded stringSchema (buf_ helloWorldFinished) = Ret w2 /\
    buf_ w2 ++ le_bytes 8 7 = buf_ helloWorldFinished.
Proof.
  destruct (emitted_row_reopens anyTimestamp noBits noBits sameScalar
              stringSchema helloWorldCalls stringWriter helloWorldWriter
              helloWorldFinished (fun _ => None) helloWorldLast 7)
    as (w2 & Hopen & Hbuf & _).
  - vm_compute. discriminate.
  - vm_compute. reflexivity.
  - vm_compute. reflexivity.
  - vm_compute. reflexivity.
  - exists w2. split; [exact Hopen|exact Hbuf].
Defined.

Lemma negative_version_written_as_zero_witness :
  exists w, RowWriterV2_new (schemaOfVersion (-1) [] 0) = Ret w /\
    processV2EncodedStr (schemaOfVersion (-1) [] 0) (buf_ w) = Abort Fatal.
Proof.
  destruct (negative_version_written_as_zero (schemaOfVersion (-1) [] 0))
    as (w & Hnew & _ & _ & Hopen).
  - simpl. lia.
  - exists w. split; [exact Hnew|exact Hopen].
Defined.

(** * Calls that are refused *)

Section Refused.

Variable toTimestamp : Z -> option Z.
Variable binary32 : fpnum -> Z.
Variable binary64 : fpnum -> Z.
Variable Value_eq : Value -> Value -> bool.
Variable schema : Schema.

Ltac refused_leaf := unfold succeed in *; congruence.

Ltac refused H :=
  let fld := fresh "fld" in
  destruct (fields schema !! _) as [fld|]; [|discriminate];
  cbv zeta in H; destruct (f_type fld);
  repeat case_match; try discriminate; simplify_eq; refused_leaf.

(** A typed writer for a value that is neither a list nor a set returns
    the writer it was given unless it succeeds. *)
Lemma writeValue_refused w index v r w' :
  isCollection v = false ->
  writeValue toTimestamp binary32 binary64 Value_eq schema w index v
  = Some (Ret (r, w')) ->
  r <> SUCCEEDED -> w' = w.
Proof.
  intros Hv Hw Hr. destruct v; try discriminate; simpl in Hw;
    injection Hw as H.
  - unfold write_bool in H. refused H.
  - unfold write_int64, storeNarrow in H. refused H.
  - unfold write_double, storeRounded in H. refused H.
  - unfold write_string in H. refused H.
  - unfold write_date in H. refused H.
  - unfold write_time in H. refused H.
  - unfold write_datetime in H. refused H.
  - unfold write_geography in H.
    destruct (fields schema !! index) as [fld|] eqn:Hf; [|discriminate].
    destruct (_ && _); [congruence|].
    unfold write_string in H. rewrite Hf in H.
    cbv zeta in H. destruct (f_type fld);
      repeat case_match; try discriminate; simplify_eq; refused_leaf.
  - unfold write_duration in H. refused H.
Qed.

(** X4: a call that does not succeed leaves the writer exactly as it was,
    unless the value is a list or a set. *)
Theorem refused_call_changes_nothing (w : RowWriterV2) (c : call)
  (r : WriteResult) (w' : RowWriterV2) :
  perform toTimestamp binary32 binary64 Value_eq schema w c = Ret (r, w') ->
  r <> SUCCEEDED ->
  match c with
  | SetValue _ v => isCollection v = false
  | SetNull _ => True
  end ->
  w' = w.
Proof.
  intros Hp Hr Hc. destruct c as [index v|index]; simpl in Hp.
  - unfold setValue in Hp.
    destruct (finished_ w); [discriminate|].
    destruct (_ || _); [congruence|].
    destruct (writeValue toTimestamp binary32 binary64 Value_eq schema w
                (Z.to_nat index) v) as [res|] eqn:Hw.
    + assert (res = Ret (r, w')) as -> by (destruct v; done).
      by eapply writeValue_refused.
    + destruct v; try discriminate; try congruence.
      destruct bad; [congruence|].
      unfold setNull in Hp. repeat case_match; congruence.
  - unfold setNull in Hp. repeat case_match; congruence.
Qed.

Ltac oor H :=
  let fld := fresh "fld" in
  destruct (fields schema !! _) as [fld|]; [|discriminate];
  cbv zeta in H; destruct (f_type fld);
  repeat case_match; try discriminate; simplify_eq;
  unfold succeed in *; congruence.

(** Only the writers of integers and of floating-point values return
    OUT_OF_RANGE. *)
Lemma writeValue_out_of_range w index v w' :
  writeValue toTimestamp binary32 binary64 Value_eq schema w index v
  = Some (Ret (OUT_OF_RANGE, w')) ->
  Value_type v = T_INT \/ Value_type v = T_FLOAT.
Proof.
  intros Hw. destruct v; try discriminate; simpl in Hw; simpl; auto;
    exfalso; injection Hw as H.
  - unfold write_bool in H. oor H.
  - unfold write_string in H. oor H.
  - unfold write_date in H. oor H.
  - unfold write_time in H. oor H.
  - unfold write_datetime in H. oor H.
  - unfold write_geography in H.
    destruct (fields schema !! index) as [fld|] eqn:Hf; [|discriminate].
    destruct (_ && _); [congruence|].
    unfold write_string in H. rewrite Hf in H.
    cbv zeta in H. destruct (f_type fld);
      repeat case_match; try discriminate; simplify_eq;
      unfold succeed in *; congruence.
  - unfold write_duration in H. oor H.
  - unfold write_list in H.
    destruct (fields schema !! index) as [fld|]; [|discriminate].
    cbv zeta in H.
    destruct (listElemType (f_type fld)) as [vt|] eqn:Hvt; [|discriminate].
    destruct (writeList _ _ _ _) as [[r1 b]|] eqn:Hl; [|discriminate].
    apply writeList_result in Hl; [|by eapply listElemType_scalar].
    destruct Hl as [(-> & _)|(-> & _)]; [discriminate|].
    unfold succeed in H. discriminate.
  - unfold write_set in H.
    destruct (fields schema !! index) as [fld|]; [|discriminate].
    cbv zeta in H.
    destruct (setElemType (f_type fld)) as [vt|] eqn:Hvt; [|discriminate].
    destruct (writeSet _ _ _ _ _) as [[r1 b]|] eqn:Hl; [|discriminate].
    apply writeSet_result in Hl; [|by eapply setElemType_scalar].
    destruct Hl as [(-> & _)|(-> & _)]; [discriminate|].
    unfold succeed in H. discriminate.
Qed.

(** X5: what the result of [setValue] tells: UNKNOWN_FIELD is returned
    exactly for an index outside the fields; FIELD_UNSET is never
    returned; NOT_NULLABLE only for a null value that is not a bad null, on
    a field that is not nullable; OUT_OF_RANGE only for an integer or a
    floating-point value. *)
Theorem setValue_result_codes (w : RowWriterV2) (index : Z) (v : Value)
  (r : WriteResult) (w' : RowWriterV2) :
  setValue toTimestamp binary32 binary64 Value_eq schema w index v
  = Ret (r, w') ->
  (r = UNKNOWN_FIELD <->
   (index < 0 \/ Z.of_nat (getNumFields schema) <= index)%Z) /\
  r <> FIELD_UNSET /\
  (r = NOT_NULLABLE ->
   v = Null false /\
   exists f, fields schema !! Z.to_nat index = Some f /\ f_nullable f = false) /\
  (r = OUT_OF_RANGE -> Value_type v = T_INT \/ Value_type v = T_FLOAT).
Proof.
  unfold setValue. destruct (finished_ w); [discriminate|].
  destruct (Z.ltb_spec index 0) as [Hneg|Hlo]; simpl.
  { intros [= <- <-]. repeat split; try discriminate; auto. }
  destruct (Z.leb_spec (Z.of_nat (getNumFields schema)) index) as [Hbig|Hhi].
  { intros [= <- <-]. repeat split; try discriminate; auto. }
  intros Hp.
  destruct (writeValue toTimestamp binary32 binary64 Value_eq schema w
              (Z.to_nat index) v) as [res|] eqn:Hw.
  - assert (res = Ret (r, w')) as -> by (destruct v; done).
    pose proof (writeValue_code _ _ _ _ _ _ _ _ _ _ Hw) as Hcode.
    split; [|split; [|split]].
    + split; [|lia]. intros ->. destruct Hcode as [?|[?|?]]; discriminate.
    + intros ->. destruct Hcode as [?|[?|?]]; discriminate.
    + intros ->. destruct Hcode as [?|[?|?]]; discriminate.
    + intros ->. by eapply writeValue_out_of_range.
  - destruct v; try discriminate;
      try (injection Hp as <- <-; repeat split; try discriminate; lia).
    destruct bad.
    { injection Hp as <- <-. repeat split; try discriminate; lia. }
    unfold setNull in Hp. destruct (finished_ w); [discriminate|].
    destruct (Z.ltb_spec index 0); [lia|].
    destruct (Z.leb_spec (Z.of_nat (getNumFields schema)) index); [lia|].
    simpl in Hp.
    destruct (fields schema !! Z.to_nat index) as [f|] eqn:Hf; [|discriminate].
    destruct (f_nullable f) eqn:Hn; simpl in Hp; injection Hp as <- <-.
    + repeat split; try discriminate; lia.
    + split; [split; [discriminate|lia]|]. split; [discriminate|].
      split; [|discriminate]. intros _. split; [done|]. by exists f.
Qed.

End Refused.

Lemma refused_call_changes_nothing_witness :
  exists r w',
    perform anyTimestamp noBits noBits sameScalar int8Schema int8Writer
      (SetValue 0 (FloatV (FFin (509 # 4)))) = Ret (r, w') /\
    r = OUT_OF_RANGE /\ w' = int8Writer.
Proof.
  exists OUT_OF_RANGE, int8Writer. split; [reflexivity|]. split; [reflexivity|].
  apply (refused_call_changes_nothing anyTimestamp noBits noBits sameScalar
           int8Schema int8Writer (SetValue 0 (FloatV (FFin (509 # 4))))
           OUT_OF_RANGE int8Writer);
    [reflexivity|discriminate|reflexivity].
Defined.

Lemma setValue_result_codes_witness :
  UNKNOWN_FIELD = UNKNOWN_FIELD <->
  (5 < 0 \/ Z.of_nat (getNumFields int8Schema) <= 5)%Z.
Proof.
  refine (proj1 (setValue_result_codes anyTimestamp noBits noBits sameScalar
                   int8Schema int8Writer 5 (IntV 1) UNKNOWN_FIELD int8Writer
                   _)).
  reflexivity.
Defined.

(** * One field at a time *)

Section PerformFrame.

Variable toTimestamp : Z -> option Z.
Variable binary32 : fpnum -> Z.
Variable binary64 : fpnum -> Z.
Variable Value_eq : Value -> Value -> bool.
Variable schema : Schema.
Hypothesis Hwf : wfLayout schema.

(** A call either changes nothing or works on the one field it names. *)
Lemma perform_frame w c r w' :
  layout schema w ->
  perform toTimestamp binary32 binary64 Value_eq schema w c = Ret (r, w') ->
  w' = w \/
  exists f, fields schema !! Z.to_nat (callIndex c) = Some f /\
            frame (Z.to_nat (callIndex c)) f w w' /\
            (0 <= callIndex c)%Z.
Proof.
  intros Hlay Hp.
  destruct c as [index v|index]; simpl in Hp |- *.
  - unfold setValue in Hp.
    destruct (finished_ w) eqn:Hfin; [discriminate|].
    destruct (Z.ltb_spec index 0); [left; simpl in Hp; congruence|].
    destruct (Z.leb_spec (Z.of_nat (getNumFields schema)) index);
      [left; simpl in Hp; congruence|].
    simpl in Hp.
    assert (Hidx : Z.to_nat index < length (fields schema))
      by (unfold getNumFields in *; lia).
    destruct (lookup_lt_is_Some_2 _ _ Hidx) as [f Hf].
    destruct (writeValue toTimestamp binary32 binary64 Value_eq schema w
                (Z.to_nat index) v) as [res|] eqn:Hw.
    + assert (res = Ret (r, w')) as -> by (destruct v; done).
      right. exists f. split; [done|]. split; [|done].
      by eapply (writeValue_frame toTimestamp binary32 binary64 Value_eq schema
                   Hwf).
    + destruct v; try discriminate; try (left; congruence).
      destruct bad; [left; congruence|].
      unfold setNull in Hp. rewrite Hfin, Hf in Hp.
      destruct (_ || _); [left; congruence|].
      destruct (f_nullable f) eqn:Hn; simpl in Hp; [|left; congruence].
      injection Hp as <- <-. right. exists f. split; [done|]. split; [|done].
      by destruct (setNullBit_recorded schema Hwf w (fun _ => None)
                     (Z.to_nat index) f true Hlay Hf Hn) as (Hfr & _).
  - unfold setNull in Hp.
    destruct (finished_ w) eqn:Hfin; [discriminate|].
    destruct (Z.ltb_spec index 0); [left; simpl in Hp; congruence|].
    destruct (Z.leb_spec (Z.of_nat (getNumFields schema)) index);
      [left; simpl in Hp; congruence|].
    simpl in Hp.
    destruct (fields schema !! Z.to_nat index) as [f|] eqn:Hf;
      [|discriminate].
    destruct (f_nullable f) eqn:Hn; simpl in Hp; [|left; congruence].
    injection Hp as <- <-. right. exists f. split; [done|]. split; [|done].
    by destruct (setNullBit_recorded schema Hwf w (fun _ => None)
                   (Z.to_nat index) f true Hlay Hf Hn) as (Hfr & _).
Qed.

End PerformFrame.

Section OneField.

Variable toTimestamp : Z -> option Z.
Variable binary32 : fpnum -> Z.
Variable binary64 : fpnum -> Z.
Variable Value_eq : Value -> Value -> bool.
Variable schema : Schema.

Ltac via_succeed H :=
  cbv zeta in H;
  match type of H with
  | context [f_type ?fld] => destruct (f_type fld)
  end;
  repeat case_match; try discriminate; simplify_eq;
  match goal with
  | Hs : succeed ?w1 _ _ = _ |- _ =>
      exists w1; split; [exact Hs|]; wsimpl;
      repeat match goal with
      | |- context [if ?c then _ else _] => destruct c
      end; reflexivity
  end.

(** A typed writer that succeeds ends in the common tail of the
    writers, on a writer with the flags it was given. *)
Lemma writeValue_via_succeed w index f v w' :
  fields schema !! index = Some f ->
  writeValue toTimestamp binary32 binary64 Value_eq schema w index v
  = Some (Ret (SUCCEEDED, w')) ->
  exists w1, succeed w1 f index = Ret (SUCCEEDED, w') /\
    isSet_ w1 = isSet_ w.
Proof.
  intros Hf Hw. destruct v; try discriminate; simpl in Hw; injection Hw as H.
  - unfold write_bool in H. rewrite Hf in H. via_succeed H.
  - unfold write_int64, storeNarrow in H. rewrite Hf in H. via_succeed H.
  - unfold write_double, storeRounded in H. rewrite Hf in H. via_succeed H.
  - unfold write_string in H. rewrite Hf in H. via_succeed H.
  - unfold write_date in H. rewrite Hf in H. via_succeed H.
  - unfold write_time in H. rewrite Hf in H. via_succeed H.
  - unfold write_datetime in H. rewrite Hf in H. via_succeed H.
  - unfold write_geography in H. rewrite Hf in H.
    destruct (_ && _); [discriminate|].
    unfold write_string in H. rewrite Hf in H. via_succeed H.
  - unfold write_duration in H. rewrite Hf in H. via_succeed H.
  - unfold write_list in H. rewrite Hf in H. cbv zeta in H.
    destruct (listElemType (f_type f)) as [vt|] eqn:Hvt; [|discriminate].
    destruct (writeList _ _ _ _) as [[r1 b]|] eqn:Hl; [|discriminate].
    apply writeList_result in Hl; [|by eapply listElemType_scalar].
    destruct Hl as [(-> & _)|(-> & _)]; [discriminate|].
    eexists. split; [exact H|]. wsimpl. apply isSet_latched.
  - unfold write_set in H. rewrite Hf in H. cbv zeta in H.
    destruct (setElemType (f_type f)) as [vt|] eqn:Hvt; [|discriminate].
    destruct (writeSet _ _ _ _ _) as [[r1 b]|] eqn:Hl; [|discriminate].
    apply writeSet_result in Hl; [|by eapply setElemType_scalar].
    destruct Hl as [(-> & _)|(-> & _)]; [discriminate|].
    eexists. split; [exact H|]. wsimpl. apply isSet_latched.
Qed.

Hypothesis Hwf : wfSchema schema.

(** X6: a successful [setValue] marks the field as set, and leaves the null
    flag of a nullable field set for NULLVALUE and clear for any other
    value. *)
Theorem successful_set_marks_field (w : RowWriterV2) (i : nat)
  (f : SchemaField) (v : Value) (w' : RowWriterV2) :
  layout schema w ->
  fields schema !! i = Some f ->
  setValue toTimestamp binary32 binary64 Value_eq schema w (Z.of_nat i) v
  = Ret (SUCCEEDED, w') ->
  isSetAt w' i = true /\
  (f_nullable f = true ->
   checkNullBit w' (f_nullFlagPos f) = nullFlagFor v).
Proof.
  intros Hlay Hf. unfold setValue.
  destruct (finished_ w) eqn:Hfin; [discriminate|].
  destruct (_ || _); [discriminate|].
  rewrite Nat2Z.id.
  assert (Hidx : i < length (isSet_ w)).
  { destruct Hlay as [_ _ _ ->]. by eapply lookup_lt_Some. }
  intros Hp.
  destruct (writeValue toTimestamp binary32 binary64 Value_eq schema w i v)
    as [res|] eqn:Hw.
  - assert (res = Ret (SUCCEEDED, w')) as -> by (destruct v; done).
    destruct (writeValue_via_succeed _ _ _ _ _ Hf Hw) as (w1 & Hs & Hset).
    split.
    + unfold succeed in Hs. injection Hs as <-. unfold isSetAt. wsimpl.
      rewrite list_lookup_insert_eq; [done|].
      destruct (f_nullable f); unfold clearNullBit; wsimpl; by rewrite Hset.
    + intros Hn. rewrite (succeed_null _ _ _ _ _ Hs Hn).
      by destruct v.
  - destruct v; try discriminate. destruct bad; [discriminate|].
    unfold setNull in Hp. rewrite Hfin, Nat2Z.id, Hf in Hp.
    destruct (_ || _); [discriminate|].
    destruct (f_nullable f) eqn:Hn; [|discriminate]. simpl in Hp.
    injection Hp as <-.
    destruct (setNullBit_recorded schema Hwf w (fun _ => None) i f true
                Hlay Hf Hn) as (_ & _ & Hbit & _).
    split; [|by intros _].
    unfold isSetAt, setNullBit. wsimpl.
    by rewrite list_lookup_insert_eq.
Qed.

(** X7: a call on one field, whatever it returns, leaves every other field
    as it was: its [isSet_] flag, the bytes of its slot and its null
    flag. *)
Theorem call_leaves_other_fields (w : RowWriterV2) (c : call)
  (r : WriteResult) (w' : RowWriterV2) (j : nat) (g : SchemaField) :
  layout schema w ->
  perform toTimestamp binary32 binary64 Value_eq schema w c = Ret (r, w') ->
  fields schema !! j = Some g ->
  Z.of_nat j <> callIndex c ->
  isSetAt w' j = isSetAt w j /\
  slotBytes w' g (f_size g) = slotBytes w g (f_size g) /\
  (f_nullable g = true ->
   checkNullBit w' (f_nullFlagPos g) = checkNullBit w (f_nullFlagPos g)).
Proof.
  intros Hlay Hp Hg Hne.
  pose proof (perform_frame toTimestamp binary32 binary64 Value_eq schema Hwf
                _ _ _ _ Hlay Hp) as Hcases.
  destruct Hcases as [->|(f & Hf & Hfr & Hpos)]; [done|].
  assert (Hji : j <> Z.to_nat (callIndex c)) by lia.
  split; [by eapply isSetAt_frame|]. split.
  - pose proof (frame_slot schema Hwf _ f g j w w' (f_size g) Hlay Hfr Hf Hg
                  Hji ltac:(lia) 0 ltac:(lia)) as Hslot.
    rewrite !Nat.add_0_r in Hslot. exact Hslot.
  - intros Hn. apply (fr_nullbits _ _ _ _ Hfr).
    + destruct Hlay as [_ -> _ _]. by eapply wf_nullpos.
    + intros Hfn. by eapply (wf_nullpos_unique _ Hwf j (Z.to_nat (callIndex c))).
Qed.

End OneField.

Lemma stringListSchema_wf : wfSchema stringListSchema.
Proof.
  constructor.
  - intros [|[|i]] f; [| |done]; intros [= <-]; simpl; lia.
  - intros [|[|i]] f; [| |done]; intros [= <-]; simpl; lia.
  - intros [|[|i]] [|[|j]] f g Hne; try done;
      intros [= <-] [= <-]; simpl; lia.
  - intros [|[|i]] f; [| |done]; by intros [= <-].
  - intros [|[|i]] [|[|j]] f g Hne; try done;
      by intros [= <-] [= <-].
  - intros [|[|i]] f bad; [| |done]; by intros [= <-].
Defined.

Lemma stringListWriter_layout : layout stringListSchema stringListWriter.
Proof. constructor; vm_compute; lia. Defined.

Lemma successful_set_marks_field_witness :
  exists w',
    setValue anyTimestamp noBits noBits sameScalar nullableSchema
      nullableWriter 0 (IntV 5) = Ret (SUCCEEDED, w') /\
    isSetAt w' 0 = true /\ checkNullBit w' 0 = false.
Proof.
  eexists. split; [vm_compute; reflexivity|].
  destruct (successful_set_marks_field anyTimestamp noBits noBits sameScalar
              nullableSchema nullableSchema_wf nullableWriter 0 nullableField
              (IntV 5) _ nullableWriter_layout eq_refl eq_refl)
    as [Hset Hbit].
  split; [exact Hset|]. exact (Hbit eq_refl).
Defined.

Lemma call_leaves_other_fields_witness :
  exists r w',
    perform anyTimestamp noBits noBits sameScalar stringListSchema
      stringListWriter (SetValue 1 (ListV [IntV 7])) = Ret (r, w') /\
    slotBytes w' (plainField STRING 0 8 false 0) 8
    = slotBytes stringListWriter (plainField STRING 0 8 false 0) 8.
Proof.
  do 2 eexists. split; [vm_compute; reflexivity|].
  refine (proj1 (proj2 (call_leaves_other_fields anyTimestamp noBits noBits
                          sameScalar stringListSchema stringListSchema_wf
                          stringListWriter (SetValue 1 (ListV [IntV 7]))
                          _ _ 0 (plainField STRING 0 8 false 0)
                          stringListWriter_layout _ eq_refl _))).
  - vm_compute. reflexivity.
  - simpl. lia.
Defined.

(** * Integers, written and read back *)

Lemma wrap_signed_small bits z :
  (0 < bits)%Z -> (int_min bits <= z <= int_max bits)%Z ->
  wrap_signed bits z = z.
Proof.
  unfold int_min, int_max, wrap_signed. intros Hbits Hz.
  assert (Hm : (2 ^ bits = 2 * 2 ^ (bits - 1))%Z).
  { rewrite <- Z.pow_succ_r by lia. f_equal. lia. }
  assert (Hh : (0 < 2 ^ (bits - 1))%Z) by (apply Z.pow_pos_nonneg; lia).
  destruct (Z.le_gt_cases 0 z) as [Hpos|Hneg].
  - rewrite Z.mod_small by lia.
    destruct (Z.ltb_spec (2 * z) (2 ^ bits)); lia.
  - assert (Hu : (z mod 2 ^ bits = z + 2 ^ bits)%Z).
    { symmetry. apply (Z.mod_unique_pos _ _ (-1)); lia. }
    rewrite Hu. destruct (Z.ltb_spec (2 * (z + 2 ^ bits)) (2 ^ bits)); lia.
Qed.

Lemma wrap_signed_high bits z :
  (0 < bits)%Z -> (2 ^ (bits - 1) <= z < 2 ^ bits)%Z ->
  wrap_signed bits z = (z - 2 ^ bits)%Z.
Proof.
  unfold wrap_signed. intros Hbits Hz.
  assert (Hm : (2 ^ bits = 2 * 2 ^ (bits - 1))%Z).
  { rewrite <- Z.pow_succ_r by lia. f_equal. lia. }
  assert (Hh : (0 < 2 ^ (bits - 1))%Z) by (apply Z.pow_pos_nonneg; lia).
  rewrite Z.mod_small by lia.
  destruct (Z.ltb_spec (2 * z) (2 ^ bits)); lia.
Qed.

Lemma storeNarrow_in_range w field index v n :
  (int_min (8 * Z.of_nat n) <= v <= int_max (8 * Z.of_nat n))%Z ->
  storeNarrow w field index v n
  = succeed (store w (fieldOffset w field) (le_bytes n v)) field index.
Proof.
  intros Hv. unfold storeNarrow. cbv zeta.
  destruct (Z.ltb_spec (int_max (8 * Z.of_nat n)) v); [lia|].
  destruct (Z.ltb_spec v (int_min (8 * Z.of_nat n))); [lia|]. reflexivity.
Qed.

Lemma storeNarrow_out_of_range w field index v n :
  (int_max (8 * Z.of_nat n) < v \/ v < int_min (8 * Z.of_nat n))%Z ->
  storeNarrow w field index v n = Ret (OUT_OF_RANGE, w).
Proof.
  intros Hv. unfold storeNarrow. cbv zeta.
  destruct (Z.ltb_spec (int_max (8 * Z.of_nat n)) v); [done|].
  destruct (Z.ltb_spec v (int_min (8 * Z.of_nat n))); [done|lia].
Qed.

(** The slot after a stored integer, read back as a signed integer. *)
Lemma slot_reads_back w field index n v :
  0 < n ->
  slotInBuffer w field n ->
  (int_min (8 * Z.of_nat n) <= v <= int_max (8 * Z.of_nat n))%Z ->
  exists w', succeed (store w (fieldOffset w field) (le_bytes n v)) field index
             = Ret (SUCCEEDED, w') /\
    le_signed (slotBytes w' field n) = v.
Proof.
  intros Hn Hslot Hv.
  rewrite <- (length_le_bytes n v) in Hslot.
  destruct (slotBytes_store_succeed w field index _ Hslot) as (w' & Hret & Hs).
  rewrite length_le_bytes in Hs.
  exists w'. split; [exact Hret|].
  rewrite Hs, le_signed_le_bytes. apply wrap_signed_small; lia.
Qed.

Section Integers.

Variable toTimestamp : Z -> option Z.
Variable binary32 : fpnum -> Z.
Variable binary64 : fpnum -> Z.
Variable schema : Schema.

(** X8: an integer written to an INT8, INT16, INT32 or INT64 field: the
    result is OUT_OF_RANGE exactly when the value lies outside the range
    of the field's type, and otherwise the slot, read back as a signed
    little-endian integer, is the value. *)
Theorem integer_round_trip (w : RowWriterV2) (index : nat)
  (field : SchemaField) (n : nat) (v : Z) :
  fields schema !! index = Some field ->
  intWidth (f_type field) = Some n ->
  slotInBuffer w field n ->
  (int_min 64 <= v <= int_max 64)%Z ->
  (write_int64 toTimestamp binary32 binary64 schema w index v
   = Ret (OUT_OF_RANGE, w)
   <-> (int_max (8 * Z.of_nat n) < v \/ v < int_min (8 * Z.of_nat n))%Z) /\
  ((int_min (8 * Z.of_nat n) <= v <= int_max (8 * Z.of_nat n))%Z ->
   exists w', write_int64 toTimestamp binary32 binary64 schema w index v
              = Ret (SUCCEEDED, w') /\
     le_signed (slotBytes w' field n) = v).
Proof.
  intros Hfield Hwidth Hslot H64. unfold write_int64. rewrite Hfield.
  cbv zeta.
  destruct (f_type field) eqn:Htype; try discriminate;
    injection Hwidth as <-.
  - (* INT64 *)
    split.
    + split; [unfold succeed; discriminate|].
      change (8 * Z.of_nat 8)%Z with 64%Z. lia.
    + intros Hv. apply slot_reads_back; [lia|done|done].
  - (* INT8 *)
    split.
    + split.
      * intros H.
        destruct (Z.le_gt_cases v (int_max (8 * Z.of_nat 1))); [|by left].
        destruct (Z.le_gt_cases (int_min (8 * Z.of_nat 1)) v); [|by right].
        rewrite storeNarrow_in_range in H by lia.
        unfold succeed in H. discriminate.
      * apply storeNarrow_out_of_range.
    + intros Hv. rewrite storeNarrow_in_range by done.
      apply slot_reads_back; [lia|done|done].
  - (* INT16 *)
    split.
    + split.
      * intros H.
        destruct (Z.le_gt_cases v (int_max (8 * Z.of_nat 2))); [|by left].
        destruct (Z.le_gt_cases (int_min (8 * Z.of_nat 2)) v); [|by right].
        rewrite storeNarrow_in_range in H by lia.
        unfold succeed in H. discriminate.
      * apply storeNarrow_out_of_range.
    + intros Hv. rewrite storeNarrow_in_range by done.
      apply slot_reads_back; [lia|done|done].
  - (* INT32 *)
    split.
    + split.
      * intros H.
        destruct (Z.le_gt_cases v (int_max (8 * Z.of_nat 4))); [|by left].
        destruct (Z.le_gt_cases (int_min (8 * Z.of_nat 4)) v); [|by right].
        rewrite storeNarrow_in_range in H by lia.
        unfold succeed in H. discriminate.
      * apply storeNarrow_out_of_range.
    + intros Hv. rewrite storeNarrow_in_range by done.
      apply slot_reads_back; [lia|done|done].
Qed.

Ltac in_range :=
  unfold int_min, int_max in *; simpl Z.of_nat in *; simpl Z.mul in *;
  simpl Z.sub in *; simpl Z.pow in *; lia.

(** X9: the overloads for the narrower integer types do what the [int64_t]
    overload does for the same value, on every field type but one: a
    TIMESTAMP field is refused for an [int8_t] and an [int16_t]. *)
Theorem narrow_integer_writers_agree (w : RowWriterV2) (index : nat)
  (field : SchemaField) (v : Z) :
  fields schema !! index = Some field ->
  ((int_min 32 <= v <= int_max 32)%Z ->
   write_int32 toTimestamp binary32 binary64 schema w index v
   = write_int64 toTimestamp binary32 binary64 schema w index v) /\
  ((int_min 16 <= v <= int_max 16)%Z ->
   write_int16 binary32 binary64 schema w index v
   = match f_type field with
     | TIMESTAMP => Ret (TYPE_MISMATCH, w)
     | _ => write_int64 toTimestamp binary32 binary64 schema w index v
     end) /\
  ((int_min 8 <= v <= int_max 8)%Z ->
   write_int8 binary32 binary64 schema w index v
   = match f_type field with
     | TIMESTAMP => Ret (TYPE_MISMATCH, w)
     | _ => write_int64 toTimestamp binary32 binary64 schema w index v
     end).
Proof.
  intros Hfield.
  unfold write_int32, write_int16, write_int8, write_int64.
  rewrite Hfield. cbv zeta.
  split; [|split]; intros Hv; destruct (f_type field);
    try reflexivity;
    rewrite ?storeNarrow_in_range by in_range; reflexivity.
Qed.

(** X10: the overloads for unsigned integers reinterpret the value as signed:
    a value above the signed maximum of its type reaches an INT64 field as
    the negative number with the same bits. *)
Theorem unsigned_stored_as_signed (w : RowWriterV2) (index : nat)
  (field : SchemaField) (v : Z) :
  fields schema !! index = Some field ->
  f_type field = INT64 ->
  slotInBuffer w field 8 ->
  ((2 ^ 7 <= v < 2 ^ 8)%Z ->
   exists w', write_uint8 binary32 binary64 schema w index v
              = Ret (SUCCEEDED, w') /\
     le_signed (slotBytes w' field 8) = (v - 2 ^ 8)%Z) /\
  ((2 ^ 15 <= v < 2 ^ 16)%Z ->
   exists w', write_uint16 binary32 binary64 schema w index v
              = Ret (SUCCEEDED, w') /\
     le_signed (slotBytes w' field 8) = (v - 2 ^ 16)%Z) /\
  ((2 ^ 31 <= v < 2 ^ 32)%Z ->
   exists w', write_uint32 toTimestamp binary32 binary64 schema w index v
              = Ret (SUCCEEDED, w') /\
     le_signed (slotBytes w' field 8) = (v - 2 ^ 32)%Z) /\
  ((2 ^ 63 <= v < 2 ^ 64)%Z ->
   exists w', write_uint64 toTimestamp binary32 binary64 schema w index v
              = Ret (SUCCEEDED, w') /\
     le_signed (slotBytes w' field 8) = (v - 2 ^ 64)%Z).
Proof.
  intros Hfield Htype Hslot.
  unfold write_uint8, write_uint16, write_uint32, write_uint64,
    write_int8, write_int16, write_int32, write_int64.
  rewrite Hfield, Htype. cbv zeta.
  split; [|split; [|split]]; intros Hv.
  - rewrite (wrap_signed_high 8) by (simpl; lia).
    apply slot_reads_back; [lia|done|in_range].
  - rewrite (wrap_signed_high 16) by (simpl; lia).
    apply slot_reads_back; [lia|done|in_range].
  - rewrite (wrap_signed_high 32) by (simpl; lia).
    apply slot_reads_back; [lia|done|in_range].
  - rewrite (wrap_signed_high 64) by (simpl; lia).
    apply slot_reads_back; [lia|done|in_range].
Qed.

End Integers.

Lemma integer_round_trip_witness :
  exists w',
    write_int64 anyTimestamp noBits noBits int32Schema staleInt32Writer 0 (-2)
    = Ret (SUCCEEDED, w') /\
    le_signed (slotBytes w' int32Field 4) = (-2)%Z.
Proof.
  refine (proj2 (integer_round_trip anyTimestamp noBits noBits int32Schema
                   staleInt32Writer 0 int32Field 4 (-2) eq_refl eq_refl _ _)
            _).
  - split; [simpl; lia|discriminate].
  - vm_compute. split; discriminate.
  - vm_compute. split; discriminate.
Defined.

Lemma narrow_integer_writers_agree_witness :
  write_int32 anyTimestamp noBits noBits int8Schema int8Writer 0 100
  = write_int64 anyTimestamp noBits noBits int8Schema int8Writer 0 100.
Proof.
  refine (proj1 (narrow_integer_writers_agree anyTimestamp noBits noBits
                   int8Schema int8Writer 0 int8Field 100 eq_refl) _).
  vm_compute. split; discriminate.
Defined.

Lemma unsigned_stored_as_signed_witness :
  exists w',
    write_uint8 noBits noBits int64Schema int64Writer 0 200
    = Ret (SUCCEEDED, w') /\
    le_signed (slotBytes w' int64Field 8) = (-56)%Z.
Proof.
  refine (proj1 (unsigned_stored_as_signed anyTimestamp noBits noBits
                   int64Schema int64Writer 0 int64Field 200 eq_refl eq_refl _)
            _).
  - split; [simpl; lia|discriminate].
  - vm_compute. split; [discriminate|reflexivity].
Defined.

(** * Dates, times and durations *)

Lemma inserts_then (l a b : list Z) off k :
  k = off + length a -> k + length b <= length l ->
  list_inserts k b (list_inserts off a l) = list_inserts off (a ++ b) l.
Proof.
  intros -> Hlen. apply list_eq. intros i.
  destruct (decide (i < off)) as [Hlo|Hlo].
  - by rewrite !list_lookup_inserts_lt by lia.
  - destruct (decide (i < off + length a)) as [Ha|Ha].
    + rewrite list_lookup_inserts_lt by lia.
      rewrite !list_lookup_inserts by (rewrite ?length_app; lia).
      symmetry. apply lookup_app_l. lia.
    + destruct (decide (i < off + length a + length b)) as [Hb|Hb].
      * rewrite !list_lookup_inserts
          by (rewrite ?length_app, ?length_inserts; lia).
        rewrite lookup_app_r by lia. f_equal. lia.
      * by rewrite !list_lookup_inserts_ge by (rewrite ?length_app; lia).
Qed.

(** Two stores, one behind the other, are one store of both. *)
Lemma store_store w off a k b :
  k = off + length a -> k + length b <= length (buf_ w) ->
  store (store w off a) k b = store w off (a ++ b).
Proof.
  intros Hk Hlen. unfold store, with_buf. cbn [buf_ headerLen_ numNullBytes_
    isSet_ outOfSpaceStr_ strList_ approxStrLen_ finished_].
  f_equal. by apply inserts_then.
Qed.

Section Temporal.

Variable schema : Schema.

Ltac one_store Hslot :=
  rewrite ?store_store
    by (cbn [store with_buf buf_];
        rewrite ?length_inserts, ?length_app, ?length_le_bytes;
        destruct Hslot; simpl; lia);
  rewrite <- ?app_assoc;
  match goal with
  | |- exists w', succeed (store ?w ?off ?src) ?field ?index = _ /\ _ =>
      let Hs := fresh "Hs" in
      assert (Hs : slotInBuffer w field (length src))
        by (rewrite ?length_app, ?length_le_bytes; exact Hslot);
      destruct (slotBytes_store_succeed w field index src Hs)
        as (w' & Hret & Hbytes);
      exists w'; split; [exact Hret|];
      rewrite ?length_app, ?length_le_bytes in Hbytes; exact Hbytes
  end.

(** X11: the bytes of a slot after a date, a time, a date with time or a
    duration was written: the members in the order of the source, each
    in little-endian bytes of its width, one behind the other. *)
Theorem temporal_slot_layout (w : RowWriterV2) (index : nat)
  (field : SchemaField) :
  fields schema !! index = Some field ->
  (forall v, f_type field = DATE -> slotInBuffer w field 4 ->
     exists w', write_date schema w index v = Ret (SUCCEEDED, w') /\
       slotBytes w' field 4
       = le_bytes 2 (year v) ++ le_bytes 1 (month v) ++ le_bytes 1 (day v)) /\
  (forall v, f_type field = TIME -> slotInBuffer w field 7 ->
     exists w', write_time schema w index v = Ret (SUCCEEDED, w') /\
       slotBytes w' field 7
       = le_bytes 1 (t_hour v) ++ le_bytes 1 (t_minute v)
         ++ le_bytes 1 (t_sec v) ++ le_bytes 4 (t_microsec v)) /\
  (forall v, f_type field = DATETIME -> slotInBuffer w field 11 ->
     exists w', write_datetime schema w index v = Ret (SUCCEEDED, w') /\
       slotBytes w' field 11
       = le_bytes 2 (dt_year v) ++ le_bytes 1 (dt_month v)
         ++ le_bytes 1 (dt_day v) ++ le_bytes 1 (dt_hour v)
         ++ le_bytes 1 (dt_minute v) ++ le_bytes 1 (dt_sec v)
         ++ le_bytes 4 (dt_microsec v)) /\
  (forall v, f_type field = DURATION -> slotInBuffer w field 16 ->
     exists w', write_duration schema w index v = Ret (SUCCEEDED, w') /\
       slotBytes w' field 16
       = le_bytes 8 (seconds v) ++ le_bytes 4 (microseconds v)
         ++ le_bytes 4 (months v)).
Proof.
  intros Hfield. split; [|split; [|split]]; intros v Htype Hslot.
  - unfold write_date. rewrite Hfield, Htype. cbv zeta. one_store Hslot.
  - unfold write_time. rewrite Hfield, Htype. cbv zeta. one_store Hslot.
  - unfold write_datetime. rewrite Hfield, Htype. cbv zeta. one_store Hslot.
  - unfold write_duration. rewrite Hfield, Htype. cbv zeta. one_store Hslot.
Qed.

End Temporal.

Lemma temporal_slot_layout_witness :
  exists w',
    write_date dateSchema staleInt32Writer 0
      {| year := 2024; month := 2; day := 29 |} = Ret (SUCCEEDED, w') /\
    slotBytes w' dateField 4 = [0xE8; 0x07; 2; 29]%Z.
Proof.
  refine (proj1 (temporal_slot_layout dateSchema staleInt32Writer 0 dateField
                   eq_refl) {| year := 2024; month := 2; day := 29 |}
            eq_refl _).
  split; [simpl; lia|discriminate].
Defined.

(** * Strings of fixed length *)

Lemma length_upToNul s : length (upToNul s) <= length s.
Proof.
  induction s as [|c r IH]; simpl; [done|].
  destruct (c =? 0)%Z; simpl; lia.
Qed.

Lemma strncpy_spec src len :
  strncpy src len = resize len 0%Z (upToNul (take len src)).
Proof.
  revert src. induction len as [|len IH]; intros src; [by destruct src|].
  destruct src as [|c src]; cbn [strncpy take upToNul].
  - by rewrite resize_nil.
  - destruct (c =? 0)%Z; [by rewrite resize_nil|].
    cbn [resize]. by rewrite IH.
Qed.

Lemma resize_then_zeros (x : list Z) len n :
  length x <= len -> len <= n ->
  resize len 0%Z x ++ replicate (n - len) 0%Z = resize n 0%Z x.
Proof.
  intros Hx Hn. replace n with (len + (n - len)) at 2 by lia.
  rewrite resize_add. f_equal.
  rewrite drop_ge by done. by rewrite resize_nil.
Qed.

Section FixedString.

Variable schema : Schema.

(** X12: a string written to a FIXED_STRING field: the slot holds the bytes of
    the string up to its first zero byte, cut to the length the truncation
    keeps, and zeros behind them up to the size of the field; nothing is
    appended to the buffer and the out-of-space list is not used.  A
    string no longer than the field is not cut. *)
Theorem fixed_string_slot (w : RowWriterV2) (index : nat)
  (field : SchemaField) (v : list Z) (isWKB : bool) :
  fields schema !! index = Some field ->
  f_type field = FIXED_STRING ->
  slotInBuffer w field (f_size field) ->
  exists w', write_string schema w index v isWKB = Ret (SUCCEEDED, w') /\
    slotBytes w' field (f_size field)
    = resize (f_size field) 0%Z (upToNul (take (fixedLen field v) v)) /\
    (length v <= f_size field -> take (fixedLen field v) v = v) /\
    length (buf_ w') = length (buf_ w) /\
    outOfSpaceStr_ w' = outOfSpaceStr_ w /\
    strList_ w' = strList_ w /\
    approxStrLen_ w' = approxStrLen_ w.
Proof.
  intros Hfield Htype Hslot.
  unfold write_string. rewrite Hfield, Htype. cbv zeta.
  fold (fixedLen field v). set (len := fixedLen field v).
  assert (Hlen : len <= f_size field).
  { subst len. unfold fixedLen.
    destruct (Nat.ltb_spec (f_size field) (length v)); [|lia].
    apply utf8CutSize_le. }
  set (src := strncpy v len ++ replicate (f_size field - len) 0%Z).
  assert (Hsrc : length src = f_size field).
  { subst src. rewrite length_app, length_strncpy, length_replicate. lia. }
  assert (Hone : (if len <? f_size field
                  then store (store w (fieldOffset w field) (strncpy v len))
                         (fieldOffset w field + len)
                         (replicate (f_size field - len) 0%Z)
                  else store w (fieldOffset w field) (strncpy v len))
                 = store w (fieldOffset w field) src).
  { subst src. destruct (Nat.ltb_spec len (f_size field)) as [Hlt|Hge].
    - apply store_store.
      + by rewrite length_strncpy.
      + rewrite length_replicate. destruct Hslot. lia.
    - replace (f_size field - len) with 0 by lia.
      by rewrite app_nil_r. }
  rewrite Hone.
  rewrite <- Hsrc in Hslot.
  destruct (slotBytes_store_succeed w field index src Hslot)
    as (w' & Hret & Hbytes).
  rewrite Hsrc in Hbytes.
  exists w'. split; [exact Hret|]. split; [|split].
  - rewrite Hbytes. subst src. rewrite strncpy_spec.
    apply resize_then_zeros; [|done].
    etrans; [apply length_upToNul|]. rewrite length_take. lia.
  - intros Hshort. subst len. unfold fixedLen.
    destruct (Nat.ltb_spec (f_size field) (length v)); [lia|].
    apply firstn_all.
  - unfold succeed in Hret. injection Hret as <-.
    destruct (f_nullable field); unfold clearNullBit; wsimpl;
      rewrite ?length_insert, ?length_inserts; done.
Qed.

End FixedString.

Lemma fixed_string_slot_witness :
  exists w',
    write_string fixedSchema staleInt32Writer 0 [0x61; 0; 0x62]%Z false
    = Ret (SUCCEEDED, w') /\
    slotBytes w' fixedField 4 = [0x61; 0; 0; 0]%Z.
Proof.
  destruct (fixed_string_slot fixedSchema staleInt32Writer 0 fixedField
              [0x61; 0; 0x62]%Z false eq_refl eq_refl)
    as (w' & Hret & Hbytes & _).
  - split; [simpl; lia|discriminate].
  - exists w'. split; [exact Hret|exact Hbytes].
Defined.

(** * The payload of a list *)

Section ListPayload.

Variable binary32 : fpnum -> Z.
Variable schema : Schema.

(** X13: a successful write of a list: the field is a list field and every
    element is of its element kind; the bytes appended to the buffer are
    the count and then every element in order, repeated elements included;
    the slot holds the offset of the count. *)
Theorem list_payload_layout (w : RowWriterV2) (index : nat)
  (field : SchemaField) (values : list Value) (w' : RowWriterV2) :
  fields schema !! index = Some field ->
  slotInBuffer w field 4 ->
  write_list binary32 schema w index values = Ret (SUCCEEDED, w') ->
  (exists vt, listElemType (f_type field) = Some vt /\
              allOfType values vt = true) /\
  drop (length (buf_ w)) (buf_ w')
  = le_bytes 4 (int32 (Z.of_nat (length values)))
    ++ flat_map (encodeItem binary32) values /\
  load_int32 (buf_ w') (fieldOffset w' field)
  = int32 (Z.of_nat (length (buf_ w))).
Proof.
  intros Hfield [Hlen Hnull] Hwrite.
  unfold write_list in Hwrite. rewrite Hfield in Hwrite.
  rewrite buf_latched in Hwrite.
  destruct (listElemType (f_type field)) as [vt|] eqn:Hvt; [|discriminate].
  destruct (writeList _ _ _ _) as [[r b]|] eqn:Hw; [|discriminate].
  assert (Hall : allOfType values vt = true).
  { unfold writeList in Hw. destruct (allOfType values vt); [done|].
    simpl in Hw. injection Hw as <- <-. discriminate. }
  apply writeList_result in Hw; [|by eapply listElemType_scalar].
  destruct Hw as [(-> & -> & _)|(-> & ->)]; [discriminate|].
  split; [by exists vt|].
  match type of Hwrite with
  | succeed ?w1 _ _ = _ =>
      destruct (succeed_above w1 field index) as
        (w'' & Hret & Hhl & Hnb & Hl & Habove & _)
  end.
  { destruct (isSetAt w index); exact Hnull. }
  rewrite Hret in Hwrite. injection Hwrite as <-.
  assert (Hbase : headerLen_ w + numNullBytes_ w <= fieldOffset w field)
    by (unfold fieldOffset; lia).
  assert (Hhl' : headerLen_ w'' = headerLen_ w)
    by (rewrite Hhl; by destruct (isSetAt w index)).
  assert (Hnb' : numNullBytes_ w'' = numNullBytes_ w)
    by (rewrite Hnb; by destruct (isSetAt w index)).
  assert (Habove' : forall i, headerLen_ w + numNullBytes_ w <= i ->
            buf_ w'' !! i
            = list_inserts (fieldOffset w field)
                (le_bytes 4 (int32 (Z.of_nat (length (buf_ w)))))
                ((buf_ w ++ le_bytes 4 (int32 (Z.of_nat (length values))))
                 ++ flat_map (encodeItem binary32) values) !! i).
  { intros i Hi. rewrite Habove.
    - wsimpl. unfold fieldOffset. by destruct (isSetAt w index).
    - wsimpl. by destruct (isSetAt w index). }
  split.
  - erewrite drop_agree; [|intros i Hi; apply Habove'; lia].
    rewrite drop_inserts_below by (rewrite length_le_bytes; lia).
    by rewrite <- app_assoc, drop_app_length.
  - rewrite <- int32_idemp. apply load_int32_stored.
    unfold fieldOffset. rewrite Hhl', Hnb'. fold (fieldOffset w field).
    rewrite (slice_agree _ _ _ _ _ Habove' Hbase).
    rewrite <- (length_le_bytes 4 (int32 (Z.of_nat (length (buf_ w))))) at 1.
    rewrite slice_inserts_same.
    + reflexivity.
    + rewrite !length_app, length_le_bytes. lia.
Qed.

End ListPayload.

Lemma list_payload_layout_witness :
  exists w',
    write_list noBits listSchema freshWriter4 0 [IntV 7; IntV 7]
    = Ret (SUCCEEDED, w') /\
    drop 5 (buf_ w') = [2; 0; 0; 0; 7; 0; 0; 0; 7; 0; 0; 0]%Z /\
    load_int32 (buf_ w') 1 = 5%Z.
Proof.
  eexists. split; [vm_compute; reflexivity|].
  refine (proj2 (list_payload_layout noBits listSchema freshWriter4 0
                   listField [IntV 7; IntV 7] _ eq_refl _ _)).
  - split; [simpl; lia|discriminate].
  - vm_compute. reflexivity.
Defined.

(** * A fresh writer *)

Lemma nullBytesFor_ceil n : nullBytesFor n = (n + 7) / 8.
Proof.
  unfold nullBytesFor. destruct (Nat.ltb_spec 0 n) as [Hpos|Hzero].
  - rewrite Nat.shiftr_div_pow2. change (2 ^ 3) with 8.
    replace (n + 7) with (n - 1 + 1 * 8) by lia.
    by rewrite Nat.div_add.
  - by replace n with 0 by lia.
Qed.

(** The buffer of a fresh writer: the header bytes, then zeros. *)
Lemma new_buffer schema w :
  RowWriterV2_new schema = Ret w ->
  exists b0, length b0 = headerLen_ w /\ 1 <= headerLen_ w <= 8 /\
    buf_ w = resize (headerLen_ w + numNullBytes_ w + size schema) 0%Z b0 /\
    numNullBytes_ w = nullBytesFor (getNumNullableFields schema) /\
    isSet_ w = replicate (getNumFields schema) false /\
    outOfSpaceStr_ w = false /\ strList_ w = [] /\ approxStrLen_ w = 0%Z /\
    finished_ w = false.
Proof.
  unfold RowWriterV2_new.
  destruct (0 <? getVersion schema)%Z.
  - destruct (headerFor (getVersion schema)) as [[h n]|] eqn:Hh; [|discriminate].
    intros [= <-]. wsimpl.
    pose proof (headerFor_len _ _ _ Hh) as Hn.
    eexists. split; [|split; [lia|split; [reflexivity|done]]].
    unfold headerFor in Hh.
    repeat match type of Hh with
    | (if ?c then _ else _) = _ => destruct c
    end; try discriminate; injection Hh as <- <-;
    cbn [app length byte_at]; simpl Z.to_nat;
    rewrite length_le_bytes; reflexivity.
  - intros [= <-]. wsimpl.
    exists [8%Z]. split; [reflexivity|]. split; [lia|]. done.
Qed.

(** X14: a writer as the constructor leaves it: the header takes one to
    eight bytes, the null bitmap one byte for every eight nullable fields,
    rounded up; the buffer holds header, bitmap and fixed part and nothing
    else; every byte behind the header is zero, so that no field is null;
    no field is set, and the out-of-space list is empty and not in use. *)
Theorem fresh_writer_is_blank (schema : Schema) (w : RowWriterV2) :
  RowWriterV2_new schema = Ret w ->
  1 <= headerLen_ w <= 8 /\
  numNullBytes_ w = (getNumNullableFields schema + 7) / 8 /\
  length (buf_ w) = headerLen_ w + numNullBytes_ w + size schema /\
  (forall i, headerLen_ w <= i < length (buf_ w) -> buf_ w !! i = Some 0%Z) /\
  (forall pos, checkNullBit w pos = false) /\
  (forall i, isSetAt w i = false) /\
  length (isSet_ w) = getNumFields schema /\
  outOfSpaceStr_ w = false /\ strList_ w = [] /\ finished_ w = false.
Proof.
  intros Hnew.
  destruct (new_buffer _ _ Hnew)
    as (b0 & Hb0 & Hh & Hbuf & Hnb & Hset & Hoos & Hlist & _ & Hfin).
  assert (Hlen : length (buf_ w) = headerLen_ w + numNullBytes_ w + size schema)
    by (by rewrite Hbuf, length_resize).
  assert (Hzero : forall i, headerLen_ w <= i < length (buf_ w) ->
                            buf_ w !! i = Some 0%Z).
  { intros i Hi. rewrite Hbuf. apply lookup_resize_new; lia. }
  split; [done|]. split; [by rewrite Hnb, nullBytesFor_ceil|].
  split; [done|]. split; [done|]. split; [|split; [|split]].
  - intros pos. unfold checkNullBit, nullByteOffset, byte_at.
    destruct (decide (headerLen_ w + Nat.shiftr pos 3 < length (buf_ w))).
    + rewrite Hzero by lia. reflexivity.
    + rewrite lookup_ge_None_2 by lia. reflexivity.
  - intros i. unfold isSetAt. rewrite Hset.
    destruct (decide (i < getNumFields schema)).
    + by rewrite lookup_replicate_2.
    + by rewrite lookup_ge_None_2 by (rewrite length_replicate; lia).
  - by rewrite Hset, length_replicate.
  - done.
Qed.

(** * Finishing a row *)

Section Finishing.

Variable toTimestamp : Z -> option Z.
Variable binary32 : fpnum -> Z.
Variable binary64 : fpnum -> Z.
Variable Value_eq : Value -> Value -> bool.
Variable schema : Schema.

Lemma checkUnsetFrom_all_set indices w :
  (forall i, i ∈ indices -> isSetAt w i = true) ->
  checkUnsetFrom toTimestamp binary32 binary64 Value_eq schema indices w
  = Ret (SUCCEEDED, w).
Proof.
  induction indices as [|i rest IH]; intros Hall; simpl; [done|].
  rewrite Hall by (apply elem_of_cons; by left).
  apply IH. intros k Hk. apply Hall. apply elem_of_cons. by right.
Qed.

(** X15: when every field is set and no string was written twice, [finish]
    only appends the eight bytes of the timestamp; taking them off the
    emitted row gives the buffer back. *)
Theorem finish_of_complete_row (w : RowWriterV2) (ts : Z) :
  finished_ w = false ->
  outOfSpaceStr_ w = false ->
  (forall i, i < getNumFields schema -> isSetAt w i = true) ->
  finish toTimestamp binary32 binary64 Value_eq schema w ts
  = Ret (SUCCEEDED, with_finished (with_buf w (buf_ w ++ le_bytes 8 ts)) true)
  /\ stripTrailer (buf_ w ++ le_bytes 8 ts) = buf_ w.
Proof.
  intros Hfin Hoos Hall. split.
  - unfold finish, checkUnsetFields. rewrite Hfin.
    rewrite checkUnsetFrom_all_set.
    + by rewrite Hoos.
    + intros i Hi. apply Hall. apply elem_of_seq in Hi. lia.
  - apply stripTrailer_app, length_le_bytes.
Qed.

(** X16: a [finish] that succeeds closes the writer: the emitted row ends
    with the timestamp, and every further [setValue], [setNull] and
    [finish] fails its check.  A [finish] that does not succeed leaves the
    writer open. *)
Theorem finished_writer_is_closed (w : RowWriterV2) (ts : Z)
  (r : WriteResult) (w' : RowWriterV2) :
  finish toTimestamp binary32 binary64 Value_eq schema w ts = Ret (r, w') ->
  (r = SUCCEEDED ->
   finished_ w' = true /\
   (exists b, buf_ w' = b ++ le_bytes 8 ts) /\
   (forall index v,
      setValue toTimestamp binary32 binary64 Value_eq schema w' index v
      = Abort Fatal) /\
   (forall index, setNull schema w' index = Abort Fatal) /\
   (forall ts',
      finish toTimestamp binary32 binary64 Value_eq schema w' ts'
      = Abort Fatal)) /\
  (r <> SUCCEEDED -> finished_ w' = false).
Proof.
  intros Hfin. split.
  - intros ->.
    destruct (finish_succeeded _ _ _ _ _ _ _ _ Hfin)
      as (_ & w1 & b & _ & _ & ->).
    split; [done|]. split; [by exists b|].
    unfold setValue, setNull, finish. wsimpl. done.
  - intros Hr. unfold finish, checkUnsetFields in Hfin.
    destruct (finished_ w) eqn:Hopen; [discriminate|].
    destruct (checkUnsetFrom _ _ _ _ _ _ _) as [[r1 w1]|] eqn:Hcheck;
      [|discriminate].
    apply checkUnsetFrom_grows in Hcheck.
    destruct r1;
      try (injection Hfin as <- <-; by rewrite (gr_finished _ _ Hcheck)).
    destruct (if outOfSpaceStr_ w1 then _ else _); [|discriminate].
    injection Hfin as <- _. by destruct Hr.
Qed.

End Finishing.

Lemma fresh_writer_is_blank_witness :
  checkNullBit nullableWriter 5 = false /\ isSetAt nullableWriter 0 = false.
Proof.
  destruct (fresh_writer_is_blank nullableSchema nullableWriter)
    as (_ & _ & _ & _ & Hnull & Hset & _).
  - vm_compute. reflexivity.
  - split; [exact (Hnull 5)|exact (Hset 0)].
Defined.

Lemma finish_of_complete_row_witness :
  finish anyTimestamp noBits noBits sameScalar int32Schema staleInt32Writer 7
  = Ret (SUCCEEDED,
         with_finished
           (with_buf staleInt32Writer
              (buf_ staleInt32Writer ++ le_bytes 8 7)) true).
Proof.
  refine (proj1 (finish_of_complete_row anyTimestamp noBits noBits sameScalar
                   int32Schema staleInt32Writer 7 eq_refl eq_refl _)).
  intros i Hi. unfold getNumFields in Hi. simpl in Hi.
  assert (i = 0) as -> by lia. reflexivity.
Defined.

Lemma finished_writer_is_closed_witness :
  setValue anyTimestamp noBits noBits sameScalar stringSchema
    helloWorldFinished 0 (StringV hello) = Abort Fatal /\
  finish anyTimestamp noBits noBits sameScalar stringSchema
    helloWorldFinished 8 = Abort Fatal.
Proof.
  destruct (finished_writer_is_closed anyTimestamp noBits noBits sameScalar
              stringSchema helloWorldWriter 7 SUCCEEDED helloWorldFinished)
    as [Hclosed _].
  - vm_compute. reflexivity.
  - destruct (Hclosed eq_refl) as (_ & _ & Hset & _ & Hfin).
    split; [exact (Hset 0%Z (StringV hello))|exact (Hfin 8%Z)].
Defined.

(** * A writer made from a reader *)

Section FromReader.

Variable toTimestamp : Z -> option Z.
Variable binary32 : fpnum -> Z.
Variable binary64 : fpnum -> Z.
Variable Value_eq : Value -> Value -> bool.
Variable schema : Schema.

Lemma seedField_marks w i v w' :
  seedField toTimestamp binary32 binary64 Value_eq schema w i v = Ret w' ->
  i < length (isSet_ w) /\
  length (isSet_ w') = length (isSet_ w) /\
  (forall k, isSetAt w k = true -> isSetAt w' k = true) /\
  isSetAt w' i = true /\
  finished_ w' = finished_ w.
Proof.
  unfold seedField.
  match goal with
  | |- match ?c with _ => _ end = _ -> _ => destruct c as [[[r w1]|]|] eqn:Hcall
  end; try discriminate.
  assert (Hg : grows w w1).
  { destruct v; try discriminate;
      try (eapply writeValue_grows; exact Hcall).
    - injection Hcall as Hcall. by eapply setNull_grows.
    - eapply grows_trans; [|eapply writeValue_grows; exact Hcall].
      apply grows_with_approxStrLen, grows_refl. }
  destruct (Nat.ltb_spec i (length (isSet_ w1))) as [Hi|]; [|discriminate].
  intros [= <-]. destruct Hg as [_ _ _ _ Hsl Hs _ _ Hf]. wsimpl.
  split; [lia|]. split; [by rewrite length_insert|]. split; [|split; [|done]].
  - intros k Hk. specialize (Hs k Hk). unfold isSetAt in *. wsimpl.
    destruct (decide (k = i)) as [->|Hne].
    + by rewrite list_lookup_insert_eq.
    + by rewrite list_lookup_insert_ne.
  - unfold isSetAt. wsimpl. by rewrite list_lookup_insert_eq.
Qed.

Lemma seedFrom_marks values i w w' :
  seedFrom toTimestamp binary32 binary64 Value_eq schema i values w = Ret w' ->
  length (isSet_ w') = length (isSet_ w) /\
  (forall k, isSetAt w k = true \/ i <= k < i + length values ->
             isSetAt w' k = true) /\
  finished_ w' = finished_ w /\
  (values <> [] -> i + length values <= length (isSet_ w)).
Proof.
  revert i w. induction values as [|v rest IH]; intros i w; simpl.
  - intros [= <-]. split; [done|]. split; [|done].
    intros k [Hk|Hk]; [done|lia].
  - destruct (seedField _ _ _ _ _ _ _ v) as [w1|] eqn:Hseed; [|discriminate].
    destruct (seedField_marks _ _ _ _ Hseed) as (Hi & Hl & Hkeep & Hset & Hf).
    intros Hrest.
    destruct (IH _ _ Hrest) as (Hl' & Hkeep' & Hf' & Hbound).
    split; [congruence|]. split; [|split; [congruence|]].
    + intros k [Hk|Hk]; apply Hkeep'.
      * left. by apply Hkeep.
      * destruct (decide (k = i)) as [->|Hne]; [by left|right; lia].
    + intros _. destruct rest as [|v2 rest2]; [simpl; lia|].
      rewrite <- Hl. etrans; [|apply Hbound; discriminate]. simpl. lia.
Qed.

(** X17: the constructor that copies a reader marks every field it visits as
    set, whatever [setNull] or the typed writer returned for the value;
    it cannot visit more fields than the schema has; and when it has
    visited them all, the check of unset fields finds nothing to fill and
    changes nothing. *)
Theorem reader_marks_every_field (values : list Value) (w : RowWriterV2) :
  RowWriterV2_fromReader toTimestamp binary32 binary64 Value_eq schema values
  = Ret w ->
  length values <= getNumFields schema /\
  (forall k, k < length values -> isSetAt w k = true) /\
  finished_ w = false /\
  (length values = getNumFields schema ->
   checkUnsetFields toTimestamp binary32 binary64 Value_eq schema w
   = Ret (SUCCEEDED, w)).
Proof.
  unfold RowWriterV2_fromReader.
  destruct (RowWriterV2_new schema) as [w0|] eqn:Hnew; [|discriminate].
  destruct (new_buffer _ _ Hnew) as (_ & _ & _ & _ & _ & Hset & _ & _ & _ & Hfin).
  intros Hseed.
  destruct (seedFrom_marks _ _ _ _ Hseed) as (Hl & Hmarks & Hf & Hbound).
  rewrite Hset, length_replicate in Hbound.
  assert (Hle : length values <= getNumFields schema).
  { destruct values; [simpl; lia|]. apply Hbound. discriminate. }
  split; [done|]. split; [|split; [congruence|]].
  - intros k Hk. apply Hmarks. right. lia.
  - intros Hall. unfold checkUnsetFields. apply checkUnsetFrom_all_set.
    intros i Hi. apply elem_of_seq in Hi. apply Hmarks. right. lia.
Qed.

End FromReader.

Lemma reader_marks_every_field_witness :
  exists w,
    RowWriterV2_fromReader anyTimestamp noBits noBits sameScalar int8Schema
      [Null false] = Ret w /\
    setNull int8Schema int8Writer 0 = Ret (NOT_NULLABLE, int8Writer) /\
    isSetAt w 0 = true.
Proof.
  eexists. split; [vm_compute; reflexivity|]. split; [reflexivity|].
  refine (proj1 (proj2 (reader_marks_every_field anyTimestamp noBits noBits
                          sameScalar int8Schema [Null false] _ _)) 0 _).
  - vm_compute. reflexivity.
  - simpl. lia.
Defined.

(** * Rows shorter than the timestamp *)

(** X18: the constructor from an encoded row takes eight bytes off the row by
    a subtraction in [size_t]; for a row of fewer than eight bytes
    nothing is taken off, the whole row is read as header, null bitmap and
    fields, and the estimate of the string bytes wraps to a number above
    2^63. *)
Theorem short_row_is_not_stripped (schema : Schema) (encoded : list Z) :
  length encoded < 8 ->
  RowWriterV2_fromEncoded schema encoded = processV2EncodedStr schema encoded /\
  forall w, RowWriterV2_fromEncoded schema encoded = Ret w ->
    buf_ w = encoded /\
    ((Z.of_nat (headerLen_ w + numNullBytes_ w + size schema) < 2 ^ 62)%Z ->
     (2 ^ 63 < approxStrLen_ w)%Z).
Proof.
  intros Hshort.
  assert (Hstrip : stripTrailer encoded = encoded).
  { unfold stripTrailer. destruct (Nat.ltb_spec (length encoded) 8); [done|lia]. }
  unfold RowWriterV2_fromEncoded. rewrite Hstrip. split; [done|].
  intros w. unfold processV2EncodedStr.
  destruct (negb _); [discriminate|].
  destruct (_ && _); [discriminate|].
  destruct (negb _); [discriminate|].
  intros [= <-]. wsimpl. split; [done|]. intros Hsmall.
  unfold wrap64.
  match goal with
  | |- (_ < ?x mod _)%Z =>
      assert (Hx : (x mod 2 ^ 64 = x + 2 ^ 64)%Z)
        by (symmetry; apply (Z.mod_unique_pos _ _ (-1)); lia)
  end.
  rewrite Hx. lia.
Qed.

Lemma short_row_is_not_stripped_witness :
  exists w, RowWriterV2_fromEncoded (schemaOfVersion 0 [] 0) [0x08%Z] = Ret w /\
    buf_ w = [0x08%Z] /\ (2 ^ 63 < approxStrLen_ w)%Z.
Proof.
  eexists. split; [vm_compute; reflexivity|].
  destruct (short_row_is_not_stripped (schemaOfVersion 0 [] 0) [0x08%Z])
    as [_ H].
  - simpl. lia.
  - destruct (H _ eq_refl) as [Hbuf Happrox]. split; [exact Hbuf|].
    apply Happrox. vm_compute. reflexivity.
Defined.

(** * What canonicalization keeps *)

(** The rewriting of the string slots leaves alone every byte of the
    string under construction that lies in none of these slots. *)
Lemma processStrings_outside w fs temp final :
  processStrings w fs temp = Ret final ->
  forall i, i < length temp ->
    (forall g, g ∈ fs -> isStringType (f_type g) = true ->
       ~ (fieldOffset w g <= i < fieldOffset w g + 8)) ->
    final !! i = temp !! i.
Proof.
  revert temp. induction fs as [|g rest IH]; intros temp;
    cbn [processStrings].
  - by intros [= <-].
  - change (match f_type g with STRING | GEOGRAPHY => true | _ => false end)
      with (isStringType (f_type g)).
    destruct (isStringType (f_type g)) eqn:Hs; simpl negb; cbv iota.
    + match goal with
      | |- match ?m with _ => _ end = _ -> _ =>
          destruct m as [[[t1 o1] l1]|] eqn:Hm
      end; [|discriminate].
      intros Hrun i Hi Hout.
      assert (Ht1 : exists t, t1 = temp ++ t).
      { repeat case_match; simplify_eq; try by eexists.
        exists []. by rewrite app_nil_r. }
      destruct Ht1 as [t ->].
      rewrite (IH _ Hrun).
      * assert (Hg : ~ (fieldOffset w g <= i < fieldOffset w g + 8)).
        { apply Hout; [|done]. apply elem_of_cons. by left. }
        destruct (decide (i < fieldOffset w g)).
        -- rewrite !list_lookup_inserts_lt by lia. by apply lookup_app_l.
        -- rewrite !list_lookup_inserts_ge by (rewrite length_le_bytes; lia).
           by apply lookup_app_l.
      * rewrite !length_inserts, length_app. lia.
      * intros g' Hg'. apply Hout. apply elem_of_cons. by right.
    + intros Hrun i Hi Hout. apply (IH _ Hrun); [done|].
      intros g' Hg'. apply Hout. apply elem_of_cons. by right.
Qed.

Lemma processStrings_app w fs1 fs2 temp :
  processStrings w (fs1 ++ fs2) temp
  = match processStrings w fs1 temp with
    | Ret temp1 => processStrings w fs2 temp1
    | Abort e => Abort e
    end.
Proof.
  revert temp. induction fs1 as [|g rest IH]; intros temp; [done|].
  cbn [app processStrings].
  destruct (negb _); [apply IH|].
  match goal with
  | |- match ?m with _ => _ end = _ => destruct m as [[[t1 o1] l1]|]
  end; [apply IH|done].
Qed.

Section CanonicalSlots.

Variable schema : Schema.
Hypothesis Hwf : wfLayout schema.

(** A byte of the slot of [g] lies in the first eight bytes of the slot
    of no other field. *)
Lemma slot_apart w j g gk i :
  fields schema !! j = Some g ->
  gk ∈ fields schema -> isStringType (f_type gk) = true -> gk <> g ->
  fieldOffset w g <= i < fieldOffset w g + f_size g ->
  ~ (fieldOffset w gk <= i < fieldOffset w gk + 8).
Proof.
  intros Hg Hin Hs Hne Hi.
  apply list_elem_of_lookup in Hin as [k Hgk].
  assert (Hkj : k <> j) by (intros ->; congruence).
  pose proof (wl_disjoint _ Hwf _ _ _ _ Hkj Hgk Hg) as Hdis.
  pose proof (wl_width _ Hwf _ _ Hgk) as Hwidth.
  assert (8 <= f_size gk) by (destruct (f_type gk); simplify_eq/=; lia).
  unfold fieldOffset in *. lia.
Qed.

(** Canonicalization keeps the slot of every field that is neither a
    STRING nor a GEOGRAPHY field, and the header and the null bitmap. *)
Lemma processOutOfSpace_keeps w b j g n :
  processOutOfSpace schema w = Ret b ->
  fields schema !! j = Some g -> isStringType (f_type g) = false ->
  n <= f_size g ->
  slice (fieldOffset w g) n b = slice (fieldOffset w g) n (buf_ w).
Proof.
  unfold processOutOfSpace.
  destruct (Nat.ltb_spec (length (buf_ w))
              (headerLen_ w + numNullBytes_ w + size schema)) as [|Hlen];
    [discriminate|].
  intros Hrun Hg Hs Hn.
  pose proof (wl_inside _ Hwf _ _ Hg) as Hin.
  apply slice_ext. intros i Hi.
  rewrite (processStrings_outside _ _ _ _ Hrun).
  - apply lookup_take_lt. unfold fieldOffset in *. lia.
  - rewrite length_take. unfold fieldOffset in *. lia.
  - intros gk Hgk Hsk. eapply slot_apart; eauto; [congruence|lia].
Qed.

End CanonicalSlots.

Section CanonicalKeeps.

Variable toTimestamp : Z -> option Z.
Variable binary32 : fpnum -> Z.
Variable binary64 : fpnum -> Z.
Variable Value_eq : Value -> Value -> bool.
Variable schema : Schema.
Hypothesis Hwf : wfSchema schema.

(** X19: what [finish] keeps of the writer it finds once the fields that were
    not set are filled: the bytes of the slot of every field that is
    neither a STRING nor a GEOGRAPHY field, every null flag, and the
    dimensions, whether or not the row is rebuilt for strings that were
    written more than once. *)
Theorem finish_keeps_fixed_slots (w : RowWriterV2) (ts : Z)
  (w' : RowWriterV2) :
  layout schema w ->
  finish toTimestamp binary32 binary64 Value_eq schema w ts
  = Ret (SUCCEEDED, w') ->
  exists w1,
    checkUnsetFields toTimestamp binary32 binary64 Value_eq schema w
    = Ret (SUCCEEDED, w1) /\
    headerLen_ w' = headerLen_ w1 /\ numNullBytes_ w' = numNullBytes_ w1 /\
    (forall j g, fields schema !! j = Some g ->
       isStringType (f_type g) = false ->
       slotBytes w' g (f_size g) = slotBytes w1 g (f_size g)) /\
    (forall pos, Nat.shiftr pos 3 < numNullBytes_ w1 ->
       checkNullBit w' pos = checkNullBit w1 pos).
Proof.
  intros Hlay Hfin.
  destruct (finish_succeeded _ _ _ _ _ _ _ _ Hfin)
    as (_ & w1 & b & Hcheck & Hb & ->).
  exists w1. split; [exact Hcheck|]. wsimpl.
  split; [done|]. split; [done|].
  apply checkUnsetFrom_grows in Hcheck.
  destruct Hcheck as [Hh Hn _ Hl _ _ _ _ _].
  destruct Hlay as [Hl1 Hl2 Hl3 Hl4].
  assert (Hfixed : headerLen_ w1 + numNullBytes_ w1 + size schema
                   <= length (buf_ w1)) by lia.
  assert (Hkeep : length (buf_ w1) <= length b \/ outOfSpaceStr_ w1 = true).
  { destruct (outOfSpaceStr_ w1); [by right|left]. by subst b. }
  assert (Hlenb : headerLen_ w1 + numNullBytes_ w1 + size schema <= length b).
  { destruct (outOfSpaceStr_ w1).
    - by destruct (processOutOfSpace_header _ _ _ Hb).
    - by subst b. }
  split.
  - intros j g Hg Hs. unfold slotBytes, fieldOffset. wsimpl.
    pose proof (wf_inside _ Hwf _ _ Hg) as Hin.
    rewrite slice_app_l by lia.
    destruct (outOfSpaceStr_ w1).
    + by apply (processOutOfSpace_keeps schema Hwf w1 b j g).
    + by subst b.
  - intros pos Hpos. apply checkNullBit_agree; [done|]. wsimpl.
    unfold nullByteOffset. rewrite lookup_app_l by lia.
    destruct (outOfSpaceStr_ w1).
    + destruct (processOutOfSpace_header _ _ _ Hb) as [_ Hsame].
      apply Hsame. lia.
    + by subst b.
Qed.

(** X20: in a row that is rebuilt, the slot of a STRING or GEOGRAPHY field
    that is null holds offset zero and length zero. *)
Theorem null_string_is_canonical_zero (w : RowWriterV2) (b : list Z)
  (j : nat) (g : SchemaField) :
  processOutOfSpace schema w = Ret b ->
  fields schema !! j = Some g ->
  isStringType (f_type g) = true ->
  isNullIn w g ->
  load_int32 b (fieldOffset w g) = 0%Z /\
  load_int32 b (fieldOffset w g + 4) = 0%Z.
Proof.
  unfold processOutOfSpace.
  destruct (Nat.ltb_spec (length (buf_ w))
              (headerLen_ w + numNullBytes_ w + size schema)) as [|Hlen];
    [discriminate|].
  intros Hrun Hg Hs [Hn Hbit].
  pose proof (wf_inside _ Hwf _ _ Hg) as Hin.
  pose proof (wf_width _ Hwf _ _ Hg) as Hwidth.
  assert (Hsize : 8 <= f_size g) by (destruct (f_type g); simplify_eq/=; lia).
  rewrite <- (take_drop_middle _ _ _ Hg) in Hrun.
  rewrite processStrings_app in Hrun.
  destruct (processStrings w (take j (fields schema)) _) as [temp1|] eqn:Hdone;
    [|discriminate].
  pose proof (processStrings_length _ _ _ _ Hdone) as Hlen1.
  rewrite length_take in Hlen1.
  cbn [processStrings] in Hrun.
  change (match f_type g with STRING | GEOGRAPHY => true | _ => false end)
    with (isStringType (f_type g)) in Hrun.
  rewrite Hs, Hn, Hbit in Hrun.
  cbn [negb andb] in Hrun. cbv beta iota zeta in Hrun.
  set (temp2 := list_inserts (fieldOffset w g + 4) (le_bytes 4 0)
                  (list_inserts (fieldOffset w g) (le_bytes 4 0) temp1))
    in Hrun.
  assert (Hslot : fieldOffset w g + 8 <= length temp1)
    by (unfold fieldOffset; lia).
  destruct (slot_after_stores temp1 (fieldOffset w g) 0 0 Hslot)
    as (Hoff & Hlen2 & Hlength & _).
  fold temp2 in Hoff, Hlen2, Hlength.
  assert (Hsame : forall i, fieldOffset w g <= i < fieldOffset w g + 8 ->
                            b !! i = temp2 !! i).
  { intros i Hi. apply (processStrings_outside _ _ _ _ Hrun); [lia|].
    intros gk Hgk Hsk.
    assert (Hk : exists k, k <> j /\ fields schema !! k = Some gk).
    { apply list_elem_of_lookup in Hgk as [k Hk].
      rewrite lookup_drop in Hk. exists (S j + k). split; [lia|done]. }
    destruct Hk as (k & Hkj & Hk).
    pose proof (wf_disjoint _ Hwf _ _ _ _ Hkj Hk Hg) as Hdis.
    pose proof (wf_width _ Hwf _ _ Hk) as Hwk.
    assert (8 <= f_size gk) by (destruct (f_type gk); simplify_eq/=; lia).
    unfold fieldOffset in *. lia. }
  rewrite !load_int32_slice.
  rewrite (slice_ext temp2 b (fieldOffset w g))
    by (intros i Hi; apply Hsame; lia).
  rewrite (slice_ext temp2 b (fieldOffset w g + 4))
    by (intros i Hi; apply Hsame; lia).
  rewrite <- !load_int32_slice. by rewrite Hoff, Hlen2.
Qed.

End CanonicalKeeps.

Lemma overwrittenWriter_layout : layout stringListSchema overwrittenWriter.
Proof. constructor; vm_compute; lia. Defined.

Lemma finish_keeps_fixed_slots_witness :
  exists w1,
    checkUnsetFields anyTimestamp noBits noBits sameScalar stringListSchema
      overwrittenWriter = Ret (SUCCEEDED, w1) /\
    slotBytes overwrittenFinished (plainField LIST_INT 8 4 false 0) 4
    = slotBytes w1 (plainField LIST_INT 8 4 false 0) 4.
Proof.
  destruct (finish_keeps_fixed_slots anyTimestamp noBits noBits sameScalar
              stringListSchema stringListSchema_wf overwrittenWriter 7
              overwrittenFinished overwrittenWriter_layout)
    as (w1 & Hcheck & _ & _ & Hslots & _).
  - vm_compute. reflexivity.
  - exists w1. split; [exact Hcheck|].
    exact (Hslots 1 (plainField LIST_INT 8 4 false 0) eq_refl eq_refl).
Defined.

Lemma nullableStringSchema_wf : wfSchema nullableStringSchema.
Proof.
  constructor.
  - intros [|i] f; [|done]. intros [= <-]. simpl. lia.
  - intros [|i] f; [|done]. intros [= <-]. simpl. lia.
  - intros [|i] [|j] f g Hne; try done.
  - intros [|i] f; [|done]. intros [= <-] _. vm_compute. lia.
  - intros [|i] [|j] f g Hne; try done.
  - intros [|i] f bad; [|done]. by intros [= <-].
Defined.

Lemma null_string_is_canonical_zero_witness :
  exists b,
    processOutOfSpace nullableStringSchema nulledStringWriter = Ret b /\
    load_int32 (buf_ nulledStringWriter) 6 = 1%Z /\
    load_int32 b 2 = 0%Z /\ load_int32 b 6 = 0%Z.
Proof.
  eexists. split; [vm_compute; reflexivity|]. split; [reflexivity|].
  refine (null_string_is_canonical_zero nullableStringSchema
            nullableStringSchema_wf nulledStringWriter _ 0
            nullableStringField _ eq_refl eq_refl _).
  - vm_compute. reflexivity.
  - split; reflexivity.
Defined.

(** * Not-a-number, infinities and geographies *)

Section EdgeValues.

Variable binary32 : fpnum -> Z.
Variable binary64 : fpnum -> Z.
Variable schema : Schema.

(** X21: the range guard of the floating-point writers is made of two
    comparisons, which are both false for a NaN: on an integer field a NaN
    passes the guard and reaches the conversion to the integer type, whose
    behaviour is undefined; an infinity is refused with OUT_OF_RANGE.  On a
    FLOAT field the double writer refuses an infinity and stores a NaN. *)
Theorem nan_passes_the_range_guard (w : RowWriterV2) (index : nat)
  (field : SchemaField) :
  fields schema !! index = Some field ->
  (forall n, intWidth (f_type field) = Some n ->
     write_double binary32 binary64 schema w index FNaN = Abort Undefined /\
     write_float binary32 binary64 schema w index FNaN = Abort Undefined /\
     forall negative,
       write_double binary32 binary64 schema w index (FInf negative)
       = Ret (OUT_OF_RANGE, w) /\
       write_float binary32 binary64 schema w index (FInf negative)
       = Ret (OUT_OF_RANGE, w)) /\
  (f_type field = FLOAT ->
   (forall negative,
      write_double binary32 binary64 schema w index (FInf negative)
      = Ret (OUT_OF_RANGE, w)) /\
   (slotInBuffer w field 4 ->
    exists w', write_double binary32 binary64 schema w index FNaN
               = Ret (SUCCEEDED, w') /\
      slotBytes w' field 4 = le_bytes 4 (binary32 FNaN))).
Proof.
  intros Hfield. unfold write_double, write_float, storeRounded.
  rewrite Hfield. cbv zeta. split.
  - intros n Hwidth.
    destruct (f_type field); try discriminate;
      (split; [reflexivity|]); (split; [reflexivity|]);
      intros [|]; split; reflexivity.
  - intros ->. split.
    + intros [|]; reflexivity.
    + intros Hslot. cbn [fp_gt fp_lt orb].
      rewrite <- (length_le_bytes 4 (binary32 FNaN)) in Hslot.
      destruct (slotBytes_store_succeed w field index _ Hslot)
        as (w' & Hret & Hbytes).
      rewrite length_le_bytes in Hbytes. by exists w'.
Qed.

(** X22: a geography is written as the string of its WKB bytes: when the
    shape of the field is ANY or that of the value, the geography writer
    does what the string writer does for these bytes with the WKB mark,
    and otherwise it returns TYPE_MISMATCH and changes nothing.  The mark
    matters for a GEOGRAPHY field only, which refuses a string without it;
    a STRING field stores a geography like any string. *)
Theorem geography_is_written_as_wkb (w : RowWriterV2) (index : nat)
  (field : SchemaField) (g : Geography) :
  fields schema !! index = Some field ->
  (f_geoShape field = ANY \/ GeoShape_code (f_geoShape field) = shape g ->
   write_geography schema w index g
   = write_string schema w index (asWKB g) true) /\
  (f_geoShape field <> ANY -> GeoShape_code (f_geoShape field) <> shape g ->
   write_geography schema w index g = Ret (TYPE_MISMATCH, w)) /\
  (f_type field = GEOGRAPHY ->
   forall s, write_string schema w index s false = Ret (TYPE_MISMATCH, w)) /\
  (f_type field = STRING ->
   write_string schema w index (asWKB g) true
   = write_string schema w index (asWKB g) false).
Proof.
  intros Hfield. unfold write_geography, write_string. rewrite Hfield.
  split; [|split; [|split]].
  - intros [-> | ->]; [reflexivity|].
    rewrite Z.eqb_refl. by rewrite andb_false_r.
  - intros Hany Hshape.
    destruct (Z.eqb_spec (GeoShape_code (f_geoShape field)) (shape g));
      [done|].
    destruct (f_geoShape field); done.
  - intros -> s. reflexivity.
  - intros ->. reflexivity.
Qed.

End EdgeValues.

Lemma nan_passes_the_range_guard_witness :
  write_double noBits noBits int8Schema int8Writer 0 FNaN = Abort Undefined.
Proof.
  refine (proj1 (proj1 (nan_passes_the_range_guard noBits noBits int8Schema
                          int8Writer 0 int8Field eq_refl) 1 eq_refl)).
Defined.

Lemma geography_is_written_as_wkb_witness :
  write_geography stringSchema stringWriter 0
    {| shape := 1; asWKB := hello |}
  = write_string stringSchema stringWriter 0 hello true.
Proof.
  refine (proj1 (geography_is_written_as_wkb stringSchema stringWriter 0
                   stringField {| shape := 1; asWKB := hello |} eq_refl) _).
  by left.
Defined.

(** * Fields that are set, up to the emitted row *)

Section SetFieldsKept.

Variable toTimestamp : Z -> option Z.
Variable binary32 : fpnum -> Z.
Variable binary64 : fpnum -> Z.
Variable Value_eq : Value -> Value -> bool.
Variable schema : Schema.
Hypothesis Hwf : wfLayout schema.

(** What a frame on field [i] keeps of another field. *)
Lemma frame_keeps_slot i f w w' k g n :
  layout schema w -> frame i f w w' ->
  fields schema !! i = Some f -> fields schema !! k = Some g -> k <> i ->
  n <= f_size g ->
  layout schema w' /\
  isSetAt w' k = isSetAt w k /\
  slotBytes w' g n = slotBytes w g n /\
  (f_nullable g = true ->
   checkNullBit w' (f_nullFlagPos g) = checkNullBit w (f_nullFlagPos g)).
Proof.
  intros Hlay Hfr Hf Hg Hne Hn.
  split; [by eapply layout_frame|].
  destruct (frame_keeps schema Hwf i f w w' k g Hlay Hfr Hf Hg Hne)
    as [Hset Hbit].
  split; [done|]. split; [|done].
  pose proof (frame_slot schema Hwf i f g k w w' n Hlay Hfr Hf Hg Hne Hn 0
                ltac:(lia)) as Hslot.
  by rewrite !Nat.add_0_r in Hslot.
Qed.

(** Calls on other fields keep the field [k]. *)
Lemma performAll_keeps_other calls w last w' last' k g n :
  layout schema w ->
  Forall (fun c => callIndex c <> Z.of_nat k) calls ->
  performAll toTimestamp binary32 binary64 Value_eq schema w last calls
  = Ret (w', last') ->
  fields schema !! k = Some g -> n <= f_size g ->
  layout schema w' /\
  isSetAt w' k = isSetAt w k /\
  slotBytes w' g n = slotBytes w g n /\
  (f_nullable g = true ->
   checkNullBit w' (f_nullFlagPos g) = checkNullBit w (f_nullFlagPos g)).
Proof.
  revert w last. induction calls as [|c rest IH]; intros w last Hlay Hother;
    simpl.
  - intros [= <- <-] Hg Hn. done.
  - destruct (perform _ _ _ _ _ _ c) as [[r w1]|] eqn:Hp; [|discriminate].
    intros Hrest Hg Hn. inversion Hother as [|? ? Hc Hothers]; subst.
    assert (Hstep : layout schema w1 /\
              isSetAt w1 k = isSetAt w k /\
              slotBytes w1 g n = slotBytes w g n /\
              (f_nullable g = true ->
               checkNullBit w1 (f_nullFlagPos g)
               = checkNullBit w (f_nullFlagPos g))).
    { destruct (perform_frame _ _ _ _ _ Hwf _ _ _ _ Hlay Hp)
        as [->|(f & Hf & Hfr & Hpos)]; [done|].
      apply (frame_keeps_slot (Z.to_nat (callIndex c)) f); auto. lia. }
    destruct Hstep as (Hlay1 & Hset1 & Hslot1 & Hbit1).
    destruct (IH _ _ Hlay1 Hothers Hrest Hg Hn) as (Hlay' & Hset' & Hslot' & Hbit').
    split; [done|]. split; [congruence|]. split; [congruence|].
    intros Hnl. rewrite Hbit', Hbit1; done.
Qed.

(** The condition on defaults holds of every writer that has grown from
    one of which it holds. *)
Lemma nullDefaultsNullable_grows w w' :
  grows w w' -> nullDefaultsNullable schema w ->
  nullDefaultsNullable schema w'.
Proof.
  intros Hg Hc j g bad Hj Hunset. apply (Hc j g bad Hj).
  destruct (isSetAt w j) eqn:Hset; [|done].
  apply (gr_isSet _ _ Hg) in Hset. congruence.
Qed.

(** The filling of the fields that are not set keeps the fields that
    are. *)
Lemma checkUnsetFrom_keeps_set indices w w1 k g n :
  (forall i, i ∈ indices -> i < getNumFields schema) ->
  layout schema w ->
  nullDefaultsNullable schema w ->
  checkUnsetFrom toTimestamp binary32 binary64 Value_eq schema indices w
  = Ret (SUCCEEDED, w1) ->
  fields schema !! k = Some g -> isSetAt w k = true -> n <= f_size g ->
  layout schema w1 /\
  isSetAt w1 k = true /\
  slotBytes w1 g n = slotBytes w g n /\
  (f_nullable g = true ->
   checkNullBit w1 (f_nullFlagPos g) = checkNullBit w (f_nullFlagPos g)).
Proof.
  revert w. induction indices as [|i rest IH]; intros w Hrange Hlay Hnd; simpl.
  - intros [= <-] Hg Hset Hn. done.
  - assert (Hrange' : forall j, j ∈ rest -> j < getNumFields schema)
      by (intros j Hj; apply Hrange; apply elem_of_cons; by right).
    destruct (isSetAt w i) eqn:Hi; [by apply IH|].
    destruct (fillUnset _ _ _ _ _ _ _) as [[r w']|] eqn:Hfill; [|discriminate].
    destruct r; try discriminate.
    intros Hrest Hg Hset Hn.
    assert (Hilt : i < length (fields schema))
      by (apply Hrange; apply elem_of_cons; by left).
    destruct (lookup_lt_is_Some_2 _ _ Hilt) as [f Hf].
    destruct (fillUnset_step toTimestamp binary32 binary64 Value_eq schema Hwf
                w i f w' Hlay Hf Hfill) as (_ & _ & _ & Hframe & _).
    assert (Hfr : frame i f w w').
    { apply Hframe. intros bad Hd. by apply (Hnd i f bad). }
    assert (Hnd' : nullDefaultsNullable schema w').
    { apply (nullDefaultsNullable_grows w); [|done].
      by eapply fillUnset_grows. }
    assert (Hne : k <> i) by (intros ->; congruence).
    destruct (frame_keeps_slot i f w w' k g n Hlay Hfr Hf Hg Hne Hn)
      as (Hlay1 & Hset1 & Hslot1 & Hbit1).
    destruct (IH w' Hrange' Hlay1 Hnd' Hrest Hg ltac:(congruence) Hn)
      as (Hlay' & Hset' & Hslot' & Hbit').
    split; [done|]. split; [done|]. split; [congruence|].
    intros Hnl. rewrite Hbit', Hbit1; done.
Qed.

(** Canonicalization and the timestamp keep, up to the emitted row, a
    field that is not a string. *)
Lemma emitted_keeps_slot w1 b ts k g n :
  layout schema w1 ->
  (if outOfSpaceStr_ w1 then processOutOfSpace schema w1 = Ret b
   else b = buf_ w1) ->
  fields schema !! k = Some g ->
  isStringType (f_type g) = false -> n <= f_size g ->
  let w' := with_finished (with_buf w1 (b ++ le_bytes 8 ts)) true in
  slotBytes w' g n = slotBytes w1 g n /\
  (f_nullable g = true ->
   checkNullBit w' (f_nullFlagPos g) = checkNullBit w1 (f_nullFlagPos g)).
Proof.
  intros [Hl1 Hl2 Hl3 Hl4] Hb Hg Hs Hn w'.
  pose proof (wl_inside _ Hwf _ _ Hg) as Hin.
  assert (Hlenb : headerLen_ w1 + numNullBytes_ w1 + size schema <= length b).
  { destruct (outOfSpaceStr_ w1).
    - by destruct (processOutOfSpace_header _ _ _ Hb).
    - subst b. lia. }
  split.
  - unfold slotBytes, fieldOffset, w'. wsimpl.
    rewrite slice_app_l by lia.
    destruct (outOfSpaceStr_ w1).
    + by apply (processOutOfSpace_keeps schema Hwf w1 b k g).
    + by subst b.
  - intros Hnl.
    apply checkNullBit_agree; [done|]. unfold w'. wsimpl.
    pose proof (wl_nullpos _ Hwf _ _ Hg Hnl) as Hpos.
    unfold nullByteOffset. rewrite lookup_app_l by lia.
    destruct (outOfSpaceStr_ w1).
    + destruct (processOutOfSpace_header _ _ _ Hb) as [_ Hsame].
      apply Hsame. lia.
    + by subst b.
Qed.

(** [finish] keeps, up to the emitted row, a field that is set and is
    not a string. *)
Lemma finish_keeps_set w ts w' k g n :
  layout schema w ->
  nullDefaultsNullable schema w ->
  finish toTimestamp binary32 binary64 Value_eq schema w ts
  = Ret (SUCCEEDED, w') ->
  fields schema !! k = Some g -> isSetAt w k = true ->
  isStringType (f_type g) = false -> n <= f_size g ->
  slotBytes w' g n = slotBytes w g n /\
  (f_nullable g = true ->
   checkNullBit w' (f_nullFlagPos g) = checkNullBit w (f_nullFlagPos g)).
Proof.
  intros Hlay Hnd Hfin Hg Hset Hs Hn.
  destruct (finish_succeeded _ _ _ _ _ _ _ _ Hfin)
    as (_ & w1 & b & Hcheck & Hb & ->).
  unfold checkUnsetFields in Hcheck.
  destruct (checkUnsetFrom_keeps_set (seq 0 (getNumFields schema)) w w1 k g n
              ltac:(intros i Hi%elem_of_seq; lia) Hlay Hnd Hcheck Hg Hset Hn)
    as (Hlay1 & _ & Hslot & Hbit).
  destruct (emitted_keeps_slot w1 b ts k g n Hlay1 Hb Hg Hs Hn)
    as [Hslot' Hbit'].
  split; [congruence|].
  intros Hnl. rewrite (Hbit' Hnl). by apply Hbit.
Qed.

(** An integer that was written with success, read back. *)
Lemma write_int64_succeeded w index field n v w' :
  fields schema !! index = Some field ->
  intWidth (f_type field) = Some n ->
  slotInBuffer w field n ->
  (int_min 64 <= v <= int_max 64)%Z ->
  write_int64 toTimestamp binary32 binary64 schema w index v
  = Ret (SUCCEEDED, w') ->
  le_signed (slotBytes w' field n) = v.
Proof.
  intros Hfield Hwidth Hslot H64. unfold write_int64. rewrite Hfield.
  cbv zeta.
  assert (Hcase : forall m, 0 < m -> slotInBuffer w field m ->
            ((int_min (8 * Z.of_nat m) <= v <= int_max (8 * Z.of_nat m))%Z ->
             succeed (store w (fieldOffset w field) (le_bytes m v)) field index
             = Ret (SUCCEEDED, w') ->
             le_signed (slotBytes w' field m) = v) /\
            (storeNarrow w field index v m = Ret (SUCCEEDED, w') ->
             le_signed (slotBytes w' field m) = v)).
  { intros m Hm Hsl.
    assert (Hdirect : (int_min (8 * Z.of_nat m) <= v
                       <= int_max (8 * Z.of_nat m))%Z ->
              succeed (store w (fieldOffset w field) (le_bytes m v)) field index
              = Ret (SUCCEEDED, w') ->
              le_signed (slotBytes w' field m) = v).
    { intros Hv Hs.
      destruct (slot_reads_back w field index m v Hm Hsl Hv)
        as (w'' & Hret & Hread).
      congruence. }
    split; [exact Hdirect|].
    intros Hs.
    destruct (Z.le_gt_cases v (int_max (8 * Z.of_nat m))) as [Hhi|Hhi].
    - destruct (Z.le_gt_cases (int_min (8 * Z.of_nat m)) v) as [Hlo|Hlo].
      + rewrite storeNarrow_in_range in Hs by lia. apply Hdirect; [lia|done].
      + rewrite storeNarrow_out_of_range in Hs by lia. discriminate.
    - rewrite storeNarrow_out_of_range in Hs by lia. discriminate. }
  destruct (f_type field) eqn:Htype; try discriminate;
    injection Hwidth as <-; intros Hs.
  - apply (proj1 (Hcase 8 ltac:(lia) Hslot)); [|done].
    change (8 * Z.of_nat 8)%Z with 64%Z. lia.
  - by apply (proj2 (Hcase 1 ltac:(lia) Hslot)).
  - by apply (proj2 (Hcase 2 ltac:(lia) Hslot)).
  - by apply (proj2 (Hcase 4 ltac:(lia) Hslot)).
Qed.

(** A successful [setValue] of an integer is a successful call of the
    integer writer. *)
Lemma setValue_int_succeeded w i f v w' :
  layout schema w ->
  fields schema !! i = Some f ->
  setValue toTimestamp binary32 binary64 Value_eq schema w (Z.of_nat i)
    (IntV v) = Ret (SUCCEEDED, w') ->
  isSetAt w' i = true /\
  (f_nullable f = true -> checkNullBit w' (f_nullFlagPos f) = false) /\
  layout schema w' /\
  write_int64 toTimestamp binary32 binary64 schema w i v = Ret (SUCCEEDED, w').
Proof.
  intros Hlay Hf. unfold setValue.
  destruct (finished_ w); [discriminate|].
  destruct (_ || _); [discriminate|].
  rewrite Nat2Z.id. cbn [writeValue]. intros Hw.
  assert (Hwv : writeValue toTimestamp binary32 binary64 Value_eq schema w i
                  (IntV v) = Some (Ret (SUCCEEDED, w'))) by (by rewrite <- Hw).
  destruct (writeValue_via_succeed _ _ _ _ _ _ _ _ _ _ Hf Hwv)
    as (wa & Hs & Hset).
  assert (Hidx : i < length (isSet_ w)).
  { destruct Hlay as [_ _ _ ->]. by eapply lookup_lt_Some. }
  split; [|split; [|split; [|done]]].
  - unfold succeed in Hs. injection Hs as <-. unfold isSetAt. wsimpl.
    rewrite list_lookup_insert_eq; [done|].
    destruct (f_nullable f); unfold clearNullBit; wsimpl; by rewrite Hset.
  - intros Hn. by apply (succeed_null _ _ _ _ _ Hs Hn).
  - eapply layout_frame; [done|].
    by eapply (writeValue_frame toTimestamp binary32 binary64 Value_eq schema
                 Hwf w Hlay i f Hf).
Qed.

(** X23: on a schema whose slots are wide enough, apart and inside the
    fixed part and whose nullable fields have flag positions of their
    own inside the bitmap, and when no field that is not set and is not
    nullable has a NULLVALUE default: [finish] leaves every field that is
    set and is neither a STRING nor a GEOGRAPHY field as it finds it: the
    bytes of its slot and its null flag are the same in the emitted row,
    whatever defaults are filled for other fields and whether or not the
    row is rebuilt. *)
Theorem finish_keeps_set_fields (w : RowWriterV2) (ts : Z)
  (w' : RowWriterV2) (k : nat) (g : SchemaField) :
  layout schema w ->
  nullDefaultsNullable schema w ->
  finish toTimestamp binary32 binary64 Value_eq schema w ts
  = Ret (SUCCEEDED, w') ->
  fields schema !! k = Some g ->
  isSetAt w k = true ->
  isStringType (f_type g) = false ->
  slotBytes w' g (f_size g) = slotBytes w g (f_size g) /\
  (f_nullable g = true ->
   checkNullBit w' (f_nullFlagPos g) = checkNullBit w (f_nullFlagPos g)) /\
  fieldOffset w' g = fieldOffset w g /\
  fieldOffset w g + f_size g + 8 <= length (buf_ w').
Proof.
  intros Hlay Hnd Hfin Hg Hset Hs.
  destruct (finish_keeps_set w ts w' k g (f_size g) Hlay Hnd Hfin Hg Hset Hs
              ltac:(lia)) as [Hslot Hbit].
  split; [done|]. split; [done|].
  destruct (finish_succeeded _ _ _ _ _ _ _ _ Hfin)
    as (_ & w1 & b & Hcheck & Hb & ->).
  apply checkUnsetFrom_grows in Hcheck.
  destruct Hcheck as [Hh Hn _ Hl _ _ _ _ _].
  destruct Hlay as [Hl1 Hl2 Hl3 Hl4].
  pose proof (wl_inside _ Hwf _ _ Hg) as Hin.
  unfold fieldOffset. wsimpl. split; [lia|].
  rewrite length_app, length_le_bytes.
  assert (headerLen_ w1 + numNullBytes_ w1 + size schema <= length b);
    [|lia].
  destruct (outOfSpaceStr_ w1).
  - by destruct (processOutOfSpace_header _ _ _ Hb).
  - subst b. lia.
Qed.

(** X24: on such a schema, an integer written with success to an INT8,
    INT16, INT32 or INT64 field is in the emitted row: after any calls on
    other fields, whatever they return, and a [finish] that succeeds and
    finds no field that is not set, not nullable and has a NULLVALUE
    default, the slot of the field, read back as a signed little-endian
    integer, is the value that was written, and the null flag of the
    field is clear. *)
Theorem emitted_integer_is_last_written (calls : list call)
  (w0 w1 w2 w' : RowWriterV2) (last last' : nat -> option (list Z))
  (ts : Z) (i : nat) (f : SchemaField) (n : nat) (v : Z) :
  layout schema w0 ->
  fields schema !! i = Some f ->
  intWidth (f_type f) = Some n ->
  (int_min 64 <= v <= int_max 64)%Z ->
  setValue toTimestamp binary32 binary64 Value_eq schema w0 (Z.of_nat i)
    (IntV v) = Ret (SUCCEEDED, w1) ->
  Forall (fun c => callIndex c <> Z.of_nat i) calls ->
  performAll toTimestamp binary32 binary64 Value_eq schema w1 last calls
  = Ret (w2, last') ->
  nullDefaultsNullable schema w2 ->
  finish toTimestamp binary32 binary64 Value_eq schema w2 ts
  = Ret (SUCCEEDED, w') ->
  le_signed (slotBytes w' f n) = v /\
  (f_nullable f = true -> checkNullBit w' (f_nullFlagPos f) = false).
Proof.
  intros Hlay Hf Hwidth H64 Hset Hother Hcalls Hnd Hfin.
  pose proof (wl_width _ Hwf _ _ Hf) as Hw.
  pose proof (wl_inside _ Hwf _ _ Hf) as Hin.
  assert (Hn : n <= f_size f /\ isStringType (f_type f) = false).
  { destruct (f_type f); simplify_eq/=; split; (lia || done). }
  destruct Hn as [Hn Hs].
  assert (Hslot0 : slotInBuffer w0 f n).
  { destruct Hlay as [H1 H2 H3 H4]. split.
    - unfold fieldOffset. lia.
    - intros Hnl. rewrite H2. by eapply wl_nullpos. }
  destruct (setValue_int_succeeded w0 i f v w1 Hlay Hf Hset)
    as (Hset1 & Hbit1 & Hlay1 & Hwrite).
  pose proof (write_int64_succeeded w0 i f n v w1 Hf Hwidth Hslot0 H64 Hwrite)
    as Hread.
  destruct (performAll_keeps_other calls w1 last w2 last' i f n Hlay1 Hother
              Hcalls Hf Hn) as (Hlay2 & Hset2 & Hslot2 & Hbit2).
  destruct (finish_keeps_set w2 ts w' i f n Hlay2 Hnd Hfin Hf
              ltac:(congruence) Hs Hn) as [Hslot' Hbit'].
  split; [congruence|].
  intros Hnl. rewrite (Hbit' Hnl), (Hbit2 Hnl). by apply Hbit1.
Qed.

End SetFieldsKept.

Lemma stringListSchema_nullDefaults w :
  nullDefaultsNullable stringListSchema w.
Proof. intros [|[|j]] g bad; try done; by intros [= <-]. Defined.

Lemma finish_keeps_set_fields_witness :
  slotBytes overwrittenFinished (plainField LIST_INT 8 4 false 0) 4
  = slotBytes overwrittenWriter (plainField LIST_INT 8 4 false 0) 4.
Proof.
  refine (proj1 (finish_keeps_set_fields anyTimestamp noBits noBits sameScalar
                   stringListSchema stringListSchema_wf overwrittenWriter 7
                   overwrittenFinished 1 (plainField LIST_INT 8 4 false 0)
                   overwrittenWriter_layout
                   (stringListSchema_nullDefaults overwrittenWriter)
                   _ eq_refl eq_refl eq_refl)).
  vm_compute. reflexivity.
Defined.

Lemma intPairSchema_wf : wfSchema intPairSchema.
Proof.
  constructor.
  - intros [|[|i]] f; [| |done]; intros [= <-]; simpl; lia.
  - intros [|[|i]] f; [| |done]; intros [= <-]; simpl; lia.
  - intros [|[|i]] [|[|j]] f g Hne; try done;
      intros [= <-] [= <-]; simpl; lia.
  - intros [|[|i]] f; [| |done]; by intros [= <-].
  - intros [|[|i]] [|[|j]] f g Hne; try done;
      by intros [= <-] [= <-].
  - intros [|[|i]] f bad; [| |done]; by intros [= <-].
Defined.

Lemma intPairWriter_layout : layout intPairSchema intPairWriter.
Proof. constructor; vm_compute; lia. Defined.

Lemma intPairSchema_nullDefaults w : nullDefaultsNullable intPairSchema w.
Proof. intros [|[|j]] g bad; try done; by intros [= <-]. Defined.

Lemma emitted_integer_is_last_written_witness :
  le_signed (slotBytes intPairFinished (plainField INT32 0 4 false 0) 4)
  = (-2)%Z.
Proof.
  refine (proj1 (emitted_integer_is_last_written anyTimestamp noBits noBits
                   sameScalar intPairSchema intPairSchema_wf
                   [SetValue 1 (IntV 5)] intPairWriter intPairFirst intPairBoth
                   intPairFinished (fun _ => None) (fun _ => None) 7 0
                   (plainField INT32 0 4 false 0) 4 (-2)
                   intPairWriter_layout eq_refl eq_refl _ _ _ _
                   (intPairSchema_nullDefaults intPairBoth) _)).
  - vm_compute. split; discriminate.
  - vm_compute. reflexivity.
  - repeat constructor. simpl. lia.
  - vm_compute. reflexivity.
  - vm_compute. reflexivity.
Defined.

(** * The null bitmap as an array of bits *)

Lemma orBits_shift p :
  byte_at orBits (Nat.land p 7) = Z.shiftr 0x80 (Z.of_nat (p mod 8)).
Proof.
  assert (Hland : Nat.land p 7 = p mod 8) by apply (Nat.land_ones p 3).
  rewrite Hland.
  assert (Hp : p mod 8 < 8) by (apply Nat.mod_upper_bound; discriminate).
  generalize dependent (p mod 8). intros r _ Hr.
  each_bit Hr; reflexivity.
Qed.

(** X25: the null bitmap behaves as an array of bits: after [setNullBit]
    the flag reads 1, after [clearNullBit] it reads 0, and neither changes
    any other flag nor any byte but the one that holds the flag; the flag
    of position [p] is the bit of weight 0x80 >> (p mod 8) in the byte at
    [headerLen_ + p / 8]. *)
Theorem null_bitmap_is_a_bit_array (w : RowWriterV2) (p : nat) :
  nullByteOffset w p < length (buf_ w) ->
  checkNullBit (setNullBit w p) p = true /\
  checkNullBit (clearNullBit w p) p = false /\
  (forall q, q <> p ->
     checkNullBit (setNullBit w p) q = checkNullBit w q /\
     checkNullBit (clearNullBit w p) q = checkNullBit w q) /\
  (forall i, i <> nullByteOffset w p ->
     buf_ (setNullBit w p) !! i = buf_ w !! i /\
     buf_ (clearNullBit w p) !! i = buf_ w !! i) /\
  nullByteOffset w p = headerLen_ w + p / 8 /\
  byte_at (buf_ (setNullBit w p)) (nullByteOffset w p)
  = Z.lor (byte_at (buf_ w) (nullByteOffset w p))
          (Z.shiftr 0x80 (Z.of_nat (p mod 8))).
Proof.
  intros Hin.
  split; [by apply checkNullBit_set_same|].
  split; [apply checkNullBit_clear_same|].
  split; [|split; [|split]].
  - intros q Hq. split.
    + by apply checkNullBit_set_other.
    + by apply checkNullBit_clear_other.
  - intros i Hi. unfold setNullBit, clearNullBit. wsimpl.
    split; by apply list_lookup_insert_ne.
  - unfold nullByteOffset. by rewrite Nat.shiftr_div_pow2.
  - unfold setNullBit. wsimpl. rewrite byte_at_insert.
    rewrite decide_True by done. by rewrite orBits_shift.
Qed.

Lemma null_bitmap_is_a_bit_array_witness :
  checkNullBit (setNullBit nullableWriter 3) 3 = true /\
  checkNullBit (clearNullBit nullableWriter 3) 3 = false.
Proof.
  destruct (null_bitmap_is_a_bit_array nullableWriter 3) as (Hs & Hc & _).
  - vm_compute. lia.
  - split; [exact Hs|exact Hc].
Defined.

(** * Other destinations of numbers *)

Section OtherDestinations.

Variable toTimestamp : Z -> option Z.
Variable binary32 : fpnum -> Z.
Variable binary64 : fpnum -> Z.
Variable schema : Schema.

(** X26: a finite double written to a FLOAT field is refused with
    OUT_OF_RANGE exactly when it lies beyond the largest finite float in
    either direction, and otherwise the four bytes of its conversion to
    float are stored; the float writer has no such guard. *)
Theorem double_range_for_float_field (w : RowWriterV2) (index : nat)
  (field : SchemaField) (q : Q) :
  fields schema !! index = Some field ->
  f_type field = FLOAT ->
  slotInBuffer w field 4 ->
  (write_double binary32 binary64 schema w index (FFin q)
   = Ret (OUT_OF_RANGE, w)
   <-> (FLT_MAX < q \/ q < - FLT_MAX)%Q) /\
  ((- FLT_MAX <= q)%Q -> (q <= FLT_MAX)%Q ->
   exists w', write_double binary32 binary64 schema w index (FFin q)
              = Ret (SUCCEEDED, w') /\
     slotBytes w' field 4 = le_bytes 4 (binary32 (FFin q))) /\
  (exists w', write_float binary32 binary64 schema w index (FFin q)
              = Ret (SUCCEEDED, w') /\
     slotBytes w' field 4 = le_bytes 4 (binary32 (FFin q))).
Proof.
  intros Hfield Htype Hslot. unfold write_double, write_float.
  rewrite Hfield, Htype. cbv zeta.
  assert (Hstore : exists w',
            succeed (store w (fieldOffset w field)
                       (le_bytes 4 (binary32 (FFin q)))) field index
            = Ret (SUCCEEDED, w') /\
            slotBytes w' field 4 = le_bytes 4 (binary32 (FFin q))).
  { rewrite <- (length_le_bytes 4 (binary32 (FFin q))) in Hslot.
    destruct (slotBytes_store_succeed w field index _ Hslot)
      as (w' & Hret & Hbytes).
    rewrite length_le_bytes in Hbytes. by exists w'. }
  split; [|split; [|exact Hstore]].
  - split.
    + intros H.
      destruct (fp_gt (FFin q) FLT_MAX) eqn:Hgt.
      { left. by apply fp_gt_finite. }
      destruct (fp_lt (FFin q) (- FLT_MAX)) eqn:Hlt.
      { right. by apply fp_lt_finite. }
      simpl in H. unfold succeed in H. discriminate.
    + intros [H|H].
      * apply fp_gt_finite in H. by rewrite H.
      * apply fp_lt_finite in H. by rewrite H, orb_true_r.
  - intros Hlo Hhi.
    assert (fp_gt (FFin q) FLT_MAX = false) as ->.
    { apply not_true_iff_false. rewrite fp_gt_finite. by apply Qle_not_lt. }
    assert (fp_lt (FFin q) (- FLT_MAX) = false) as ->.
    { apply not_true_iff_false. rewrite fp_lt_finite. by apply Qle_not_lt. }
    exact Hstore.
Qed.

(** X27: an integer written to a BOOL field is stored as one byte, 0 for
    zero and 1 for every other value; written to a TIMESTAMP field it is
    passed to [toTimestamp], whose refusal gives OUT_OF_RANGE and whose
    result is stored in eight bytes; every field type that is not BOOL, an
    integer type, TIMESTAMP, FLOAT or DOUBLE gives TYPE_MISMATCH and
    changes nothing. *)
Theorem integer_into_bool_or_timestamp (w : RowWriterV2) (index : nat)
  (field : SchemaField) (v : Z) :
  fields schema !! index = Some field ->
  (f_type field = BOOL -> slotInBuffer w field 1 ->
   exists w', write_int64 toTimestamp binary32 binary64 schema w index v
              = Ret (SUCCEEDED, w') /\
     slotBytes w' field 1 = [if (v =? 0)%Z then 0%Z else 1%Z]) /\
  (f_type field = TIMESTAMP -> slotInBuffer w field 8 ->
   match toTimestamp v with
   | None => write_int64 toTimestamp binary32 binary64 schema w index v
             = Ret (OUT_OF_RANGE, w)
   | Some ts =>
       exists w', write_int64 toTimestamp binary32 binary64 schema w index v
                  = Ret (SUCCEEDED, w') /\
         slotBytes w' field 8 = le_bytes 8 ts
   end) /\
  (intWidth (f_type field) = None -> f_type field <> BOOL ->
   f_type field <> TIMESTAMP -> f_type field <> FLOAT ->
   f_type field <> DOUBLE ->
   write_int64 toTimestamp binary32 binary64 schema w index v
   = Ret (TYPE_MISMATCH, w)).
Proof.
  intros Hfield. unfold write_int64. rewrite Hfield. cbv zeta.
  split; [|split].
  - intros -> Hslot.
    change (with_buf w (<[fieldOffset w field :=
                          if (v =? 0)%Z then 0%Z else 1%Z]> (buf_ w)))
      with (store w (fieldOffset w field) [if (v =? 0)%Z then 0%Z else 1%Z]).
    by apply (slotBytes_store_succeed w field index
                [if (v =? 0)%Z then 0%Z else 1%Z]).
  - intros -> Hslot. destruct (toTimestamp v) as [ts|]; [|reflexivity].
    rewrite <- (length_le_bytes 8 ts) in Hslot.
    destruct (slotBytes_store_succeed w field index _ Hslot)
      as (w' & Hret & Hbytes).
    rewrite length_le_bytes in Hbytes. by exists w'.
  - intros Hw Hb Ht Hf Hd. destruct (f_type field); try done.
Qed.

End OtherDestinations.

Lemma double_range_for_float_field_witness :
  write_double noBits noBits
    (schemaOfVersion 0 [plainField FLOAT 0 4 false 0] 4) staleInt32Writer 0
    (FFin (inject_Z (2 ^ 128)))
  = Ret (OUT_OF_RANGE, staleInt32Writer).
Proof.
  refine (proj2 (proj1 (double_range_for_float_field noBits noBits
                          (schemaOfVersion 0 [plainField FLOAT 0 4 false 0] 4)
                          staleInt32Writer 0 (plainField FLOAT 0 4 false 0)
                          (inject_Z (2 ^ 128)) eq_refl eq_refl _)) _).
  - split; [simpl; lia|discriminate].
  - left. vm_compute. reflexivity.
Defined.

Lemma integer_into_bool_or_timestamp_witness :
  exists w',
    write_int64 anyTimestamp noBits noBits
      (schemaOfVersion 0 [plainField BOOL 0 1 false 0] 1) int8Writer 0 256
    = Ret (SUCCEEDED, w') /\
    slotBytes w' (plainField BOOL 0 1 false 0) 1 = [1%Z].
Proof.
  refine (proj1 (integer_into_bool_or_timestamp anyTimestamp noBits noBits
                   (schemaOfVersion 0 [plainField BOOL 0 1 false 0] 1)
                   int8Writer 0 (plainField BOOL 0 1 false 0) 256 eq_refl)
            eq_refl _).
  split; [simpl; lia|discriminate].
Defined.

(** * What [finish] does with the fields that are not set *)

Section FinishFills.

Variable toTimestamp : Z -> option Z.
Variable binary32 : fpnum -> Z.
Variable binary64 : fpnum -> Z.
Variable Value_eq : Value -> Value -> bool.
Variable schema : Schema.
Hypothesis Hwf : wfLayout schema.




End FinishFills.




(** The writer [nulledStringWriter] is the one a fresh writer becomes when
    "abc" is written to the field three times and the field is then set
    to null. *)
Lemma nulledStringWriter_reached :
  match RowWriterV2_new nullableStringSchema with
  | Ret w0 =>
      match performAll anyTimestamp noBits noBits sameScalar
              nullableStringSchema w0 (fun _ => None)
              [SetValue 0 (StringV [0x61; 0x62; 0x63]%Z);
               SetValue 0 (StringV [0x61; 0x62; 0x63]%Z);
               SetValue 0 (StringV [0x61; 0x62; 0x63]%Z);
               SetNull 0] with
      | Ret (w, _) => w = nulledStringWriter
      | Abort _ => False
      end
  | Abort _ => False
  end.
Proof. vm_compute. reflexivity. Qed.
